(** * koa request core: middleware composition, request dispatch and
      response finalisation

    A shallow embedding of
    - [koa-compose/index.js]: [compose] and its inner [dispatch];
    - the application module: [use], [callback], [handleRequest],
      [onerror], [respond];
    - [cors-master/index.js]: the options of the CORS middleware and its
      handler.

    JavaScript values are a small inductive type.  Promises are modelled
    settled: handlers are written in await style, every call of the proceed
    callable is awaited before the handler goes on, so one pipeline
    invocation runs sequentially and a promise is observed only once it is
    fulfilled or rejected.  Closure variables (the cursor [index] of one
    pipeline invocation) live in a store of cells, so that nested pipelines
    each own their cursor.  Application objects are kept by address, so that
    the request handler that [callback] returns and the later calls of
    [use] share one array of middleware. *)

From Stdlib Require Import ZArith Ascii String List Lia Bool DecimalString Sorted.
From stdpp Require Import base list strings gmap.

#[local] Set Warnings "-register-all".

Open Scope Z_scope.

(** ** JavaScript values *)

Inductive pstate := Fulfilled | Rejected.

Inductive jsval :=
| JUndefined
| JNull
| JBool (b : bool)
| JNum (z : Z)
| JBigInt (z : Z)
| JStr (s : string)
| JBuffer (bytes : string)
| JStream (id : nat)
| JHost (name : string)
| JArray (items : list jsval)
| JObject (fields : list (string * jsval))
| JError (name message : string) (status : option Z) (expose : bool)
         (stack : option string)
| JPromise (st : pstate) (v : jsval).

(** How a function call completes: [return v] or [throw e]. *)
Inductive call_result :=
| Returns (v : jsval)
| Throws (e : jsval).

(** [new Error(msg)] and [new TypeError(msg)]; the stack text that the engine
    captures is not modelled. *)
Definition new_Error (msg : string) : jsval :=
  JError "Error" msg None false None.
Definition new_TypeError (msg : string) : jsval :=
  JError "TypeError" msg None false None.

(** [Promise.resolve(v)]: a promise is returned as it is, any other value is
    wrapped in a fulfilled promise. *)
Definition Promise_resolve (v : jsval) : jsval :=
  match v with
  | JPromise _ _ => v
  | _ => JPromise Fulfilled v
  end.

(** [Promise.reject(e)]. *)
Definition Promise_reject (e : jsval) : jsval := JPromise Rejected e.

(** [await v]: the value a fulfilled promise holds, the exception a rejected
    one holds, and [v] itself when it is not a promise. *)
Definition await (v : jsval) : call_result :=
  match v with
  | JPromise Fulfilled x => Returns x
  | JPromise Rejected e => Throws e
  | _ => Returns v
  end.

(** [e instanceof Error]. *)
Definition is_Error (e : jsval) : bool :=
  match e with
  | JError _ _ _ _ _ => true
  | _ => false
  end.

(** [e instanceof TypeError]. *)
Definition is_TypeError (e : jsval) : bool :=
  match e with
  | JError name _ _ _ _ => String.eqb name "TypeError"
  | _ => false
  end.

Definition is_promise (v : jsval) : bool :=
  match v with JPromise _ _ => true | _ => false end.

(** [!!v]: every value is truthy but [undefined], [null], [false], zero
    and the empty string. *)
Definition truthy (v : jsval) : bool :=
  match v with
  | JUndefined | JNull | JBool false => false
  | JNum z => negb (z =? 0)
  | JBigInt z => negb (z =? 0)
  | JStr s => negb (String.eqb s EmptyString)
  | _ => true
  end.

(** ** Observations *)

(** A ghost trace records what happens during a request: [Enter c i] when
    [dispatch] of pipeline invocation [c] calls the function at index [i],
    [Exit c i] when that call has completed, [Eff c i] when that function
    changes the context, [Responded] and [OnError e] when [handleRequest]
    runs its success and failure callbacks. *)
Inductive event :=
| Enter (cell : nat) (i : Z)
| Exit (cell : nat) (i : Z)
| Eff (cell : nat) (i : Z)
| Responded
| OnError (err : jsval).

(** ** koa-compose *)

Section Compose.

Context {Ctx : Type}.

(** The store: one cell per pipeline invocation for its closure variable
    [index], the ghost trace, and the context object handed to every
    handler. *)
Record World := mkWorld {
  cells : list Z;
  trace : list event;
  ctx : Ctx
}.

Definition index (cell : nat) (w : World) : Z :=
  default (-1) (cells w !! cell).

Definition set_index (cell : nat) (i : Z) (w : World) : World :=
  mkWorld (<[cell := i]> (cells w)) (trace w) (ctx w).

(** [let index = -1] of a new pipeline invocation. *)
Definition alloc_index (w : World) : World :=
  mkWorld (cells w ++ [-1]) (trace w) (ctx w).

Definition emit (e : event) (w : World) : World :=
  mkWorld (cells w) (trace w ++ [e]) (ctx w).

Definition set_ctx (c : Ctx) (w : World) : World :=
  mkWorld (cells w) (trace w) c.

(** A bound [dispatch], as a handler sees it: a state transformer.  [None]
    only when the model ran out of fuel. *)
Definition proceed := World -> option (call_result * World).

(** The body of a handler function [(ctx, next) => ...].  [AwaitNext k] is
    [await next()] inside a [try]: [k] receives the value, or the exception
    to catch or rethrow. *)
Inductive Prog :=
| Return (v : jsval)
| Throw (e : jsval)
| Act (f : Ctx -> Ctx) (k : Prog)
| Read (k : Ctx -> Prog)
| AwaitNext (k : call_result -> Prog).

(** A middleware unit: a function (plain or [async]) or the function that
    [compose] returned for a list of middleware. *)
Inductive handler :=
| Fn (async : bool) (body : Prog)
| Composed (middleware : list handler).

(** What can stand in the place of [fn] in [dispatch]: a middleware unit, or
    the [next] argument of the pipeline, which is not validated. *)
Inductive callee :=
| Falsy
| NotCallable (v : jsval)
| Func (h : handler)
| Bound (p : proceed).

(** Running the body of a plain or [async] function.  While [sync] holds
    the function has not suspended yet: in a plain function [throw] then
    leaves the call as an exception and [return v] hands back [v] itself.
    After the first [await], and in an [async] function from the start,
    both settle the promise that the call returned. *)
Fixpoint exec (cell : nat) (i : Z) (sync : bool) (p : Prog) (next : proceed)
    (w : World) : option (call_result * World) :=
  match p with
  | Return v => Some (Returns (if sync then v else Promise_resolve v), w)
  | Throw e => Some (if sync then Throws e else Returns (Promise_reject e), w)
  | Act f k => exec cell i sync k next (emit (Eff cell i) (set_ctx (f (ctx w)) w))
  | Read k => exec cell i sync (k (ctx w)) next w
  | AwaitNext k =>
      match next w with
      | None => None
      | Some (Returns v, w') => exec cell i false (k (await v)) next w'
      | Some (Throws e, w') => exec cell i sync (k (Throws e)) next w'
      end
  end.

(** [middleware[i]] for a JavaScript number [i]. *)
Definition array_get {A} (l : list A) (i : Z) : option A :=
  if i <? 0 then None else l !! Z.to_nat i.

(** [fn(context, dispatch.bind(null, i + 1))], where [dispatch_rec] is
    [dispatch] with the fuel that is left. *)
Definition invoke
    (dispatch_rec : list handler -> callee -> nat -> Z -> proceed)
    (fn : callee) (next : proceed) (cell : nat) (i : Z) (w : World)
    : option (call_result * World) :=
  match fn with
  | Falsy => Some (Throws (new_TypeError "fn is not a function"), w)
  | NotCallable _ => Some (Throws (new_TypeError "fn is not a function"), w)
  | Func (Fn async body) => exec cell i (negb async) body next w
  | Func (Composed middleware) =>
      let cell' := length (cells w) in
      dispatch_rec middleware (Bound next) cell' 0 (alloc_index w)
  | Bound p => p w
  end.

(** [!fn]: [Falsy] is the argument that is absent; a value that is not a
    function counts by its truthiness. *)
Definition is_falsy (fn : callee) : bool :=
  match fn with
  | Falsy => true
  | NotCallable v => negb (truthy v)
  | _ => false
  end.

(** [dispatch(i)] of the pipeline invocation whose cursor is [cell]. *)
Fixpoint dispatch (fuel : nat) (middleware : list handler) (next : callee)
    (cell : nat) (i : Z) (w : World) : option (call_result * World) :=
  if i <=? index cell w then
    Some (Returns (Promise_reject (new_Error "next() called multiple times")), w)
  else
    let w := set_index cell i w in
    let fn := match array_get middleware i with
              | Some h => Func h
              | None => Falsy
              end in
    let fn := if i =? Z.of_nat (length middleware) then next else fn in
    if is_falsy fn then Some (Returns (Promise_resolve JUndefined), w)
    else
      match fuel with
      | O => None
      | S fuel' =>
          match invoke (dispatch fuel') fn
                  (dispatch fuel' middleware next cell (i + 1))
                  cell i (emit (Enter cell i) w) with
          | None => None
          | Some (Returns v, w') =>
              Some (Returns (Promise_resolve v), emit (Exit cell i) w')
          | Some (Throws err, w') =>
              Some (Returns (Promise_reject err), emit (Exit cell i) w')
          end
      end.

(** Fuel that always suffices: one unit per index of the pipeline and of
    the deepest pipeline nested in it. *)
Fixpoint depth (h : handler) : nat :=
  match h with
  | Fn _ _ => O
  | Composed middleware =>
      S (S (length middleware + foldr (fun h acc => Nat.max (depth h) acc) O middleware))
  end.

Definition max_depth (middleware : list handler) : nat :=
  foldr (fun h acc => Nat.max (depth h) acc) O middleware.

Definition callee_depth (fn : callee) : nat :=
  match fn with
  | Func h => depth h
  | _ => O
  end.

Definition fuel_of (middleware : list handler) (next : callee) : nat :=
  S (S (length middleware + Nat.max (max_depth middleware) (callee_depth next))).

(** [compose(middleware)(context, next)]: a fresh cursor, then
    [dispatch(0)].  The two checks that [compose] makes before it returns
    the function (an array, of functions) hold by the type of
    [middleware]. *)
Definition compose (middleware : list handler) (next : callee) : proceed :=
  fun w =>
    dispatch (fuel_of middleware next) middleware next
      (length (cells w)) 0 (alloc_index w).

(** *** What the properties speak about *)

(** The promise that the re-entrancy guard returns. *)
Definition multiple_times : jsval :=
  Promise_reject (new_Error "next() called multiple times").

(** The promise that [dispatch] returns for a completed call. *)
Definition settled (r : call_result) : jsval :=
  match r with
  | Returns v => Promise_resolve v
  | Throws e => Promise_reject e
  end.

(** A [next] argument that returns whenever it is called, and one that
    leaves every cursor where it is or further. *)
Definition callee_total (next : callee) : Prop :=
  match next with
  | Bound q => forall w, is_Some (q w)
  | _ => True
  end.

Definition grown (w0 w : World) : Prop :=
  (length (cells w0) <= length (cells w))%nat /\
  forall cell, index cell w0 <= index cell w.

Definition callee_grows (next : callee) : Prop :=
  match next with
  | Bound q => forall w r w', q w = Some (r, w') -> grown w w'
  | _ => True
  end.

(** The body never calls [next]. *)
Inductive never_proceeds : Prog -> Prop :=
| np_Return v : never_proceeds (Return v)
| np_Throw e : never_proceeds (Throw e)
| np_Act f k : never_proceeds k -> never_proceeds (Act f k)
| np_Read k : (forall c, never_proceeds (k c)) -> never_proceeds (Read k).

(** The body never calls [next] and ends with [return v], for a [v] that is
    not a rejected promise. *)
Inductive resolves_alone : Prog -> Prop :=
| ra_Return v : (forall e, v <> JPromise Rejected e) -> resolves_alone (Return v)
| ra_Act f k : resolves_alone k -> resolves_alone (Act f k)
| ra_Read k : (forall c, resolves_alone (k c)) -> resolves_alone (Read k).

(** The body calls [next] exactly once, whatever the context holds, and
    awaits the promise before it goes on. *)
Inductive awaits_once : Prog -> Prop :=
| ao_Act f k : awaits_once k -> awaits_once (Act f k)
| ao_Read k : (forall c, awaits_once (k c)) -> awaits_once (Read k)
| ao_AwaitNext k : (forall r, never_proceeds (k r)) -> awaits_once (AwaitNext k).

Definition awaits_once_fn (h : handler) : Prop :=
  match h with
  | Fn _ body => awaits_once body
  | Composed _ => False
  end.

(** The events of the functions at the indexes [i], [i + 1], ..., [n - 1]
    of one pipeline invocation, strictly nested: the function at [i] is
    entered, acts, the functions behind it run from their entry to their
    exit, then it acts again and exits. *)
Inductive Onion (cell : nat) (n : Z) : Z -> list event -> Prop :=
| onion_core : Onion cell n n []
| onion_layer i before inner after :
    i < n ->
    Onion cell n (i + 1) inner ->
    Onion cell n i
      (Enter cell i :: repeat (Eff cell i) before ++ inner
         ++ repeat (Eff cell i) after ++ [Exit cell i]).

(** The indexes at which [dispatch] of a pipeline invocation called a
    function, in the order of the calls. *)
Fixpoint calls (cell : nat) (t : list event) : list Z :=
  match t with
  | [] => []
  | Enter c i :: t' => if Nat.eqb c cell then i :: calls cell t' else calls cell t'
  | _ :: t' => calls cell t'
  end.


(** *** The onion, in the words of the specification

    "Handler i's code before its proceed call completes before handler
    i + 1 starts, and handler i + 1's entire execution completes before
    handler i's code after the proceed call resumes."  The three
    definitions below say this by recursion over the list of handlers,
    without [dispatch], its cursor and its guard; the run of [compose] is
    compared with them. *)

(** The code of a handler before its proceed call: the context it leaves,
    how often it changed the context, and what follows the call ([None]
    when the body ends without calling). *)
Fixpoint before_proceed (p : Prog) (c : Ctx)
    : Ctx * nat * option (call_result -> Prog) :=
  match p with
  | Return _ | Throw _ => (c, O, None)
  | Act f k =>
      let '(c', n, rest) := before_proceed k (f c) in (c', S n, rest)
  | Read k => before_proceed (k c) c
  | AwaitNext k => (c, O, Some k)
  end.

(** The code of a handler after its proceed call, to its end: how the
    handler completes, how often it changed the context, and the context
    it leaves ([None] when it calls proceed again). *)
Fixpoint after_proceed (p : Prog) (c : Ctx) : option (call_result * nat * Ctx) :=
  match p with
  | Return v => Some (Returns v, O, c)
  | Throw e => Some (Throws e, O, c)
  | Act f k =>
      match after_proceed k (f c) with
      | Some (r, n, c') => Some (r, S n, c')
      | None => None
      end
  | Read k => after_proceed (k c) c
  | AwaitNext _ => None
  end.

(** The handlers run as an onion from the context [c]: the first runs to
    its proceed call, the others run as an onion from the context it
    left, then the first runs on, from the context they left and with
    the promise they returned.  The result is the promise of the first
    handler, the last context, and the events in their order, numbered
    from [i] for the pipeline invocation [cell]. *)
Fixpoint onion_run (cell : nat) (i : Z) (handlers : list handler) (c : Ctx)
    : option (jsval * Ctx * list event) :=
  match handlers with
  | [] => Some (Promise_resolve JUndefined, c, [])
  | Composed _ :: _ => None
  | Fn _ body :: rest =>
      match before_proceed body c with
      | (c1, n1, Some k) =>
          match onion_run cell (i + 1) rest c1 with
          | Some (p, c2, inner) =>
              match after_proceed (k (await p)) c2 with
              | Some (r, n2, c3) =>
                  Some (settled r, c3,
                        Enter cell i :: repeat (Eff cell i) n1 ++ inner
                          ++ repeat (Eff cell i) n2 ++ [Exit cell i])
              | None => None
              end
          | None => None
          end
      | (_, _, None) => None
      end
  end.

(** *** Nested composition *)

Definition is_function (h : handler) : bool :=
  match h with
  | Fn _ _ => true
  | Composed _ => false
  end.

(** A [next] argument that is not itself a pipeline. *)
Definition plain_next (next : callee) : bool :=
  match next with
  | Falsy | NotCallable _ | Func (Fn _ _) => true
  | Func (Composed _) | Bound _ => false
  end.

(** A pipeline with the pipeline of [B] as one unit after [A1], and the
    same handlers in one flat list. *)
Definition nested (A1 B A2 : list handler) : list handler :=
  A1 ++ Composed B :: A2.

Definition flat (A1 B A2 : list handler) : list handler :=
  A1 ++ B ++ A2.

End Compose.

Arguments World : clear implicits.
Arguments Prog : clear implicits.
Arguments handler : clear implicits.
Arguments callee : clear implicits.
Arguments proceed : clear implicits.

(** Reading the events of a run of [nested A1 B A2], whose cursor is the
    cell [c] and whose unit runs on the cell after it, as events of
    [flat A1 B A2]: with [a] and [b] the lengths of [A1] and [B], the index
    [j] of the inner pipeline becomes [a + j], the indexes behind the unit
    move up by [b - 1], and the calls that only exist in the nested run (of
    the unit, and of the [next] of the inner pipeline) are dropped. *)
Definition renumber (c : nat) (a b : Z) (cell : nat) (i : Z) : option (nat * Z) :=
  if Nat.eqb cell c then
    if i <? a then Some (c, i)
    else if i =? a then None
    else Some (c, i + b - 1)
  else if Nat.eqb cell (S c) then
    if i <? b then Some (c, a + i) else None
  else Some (cell, i).

Definition flatten_event (c : nat) (a b : Z) (e : event) : option event :=
  match e with
  | Enter cell i => (fun ci => Enter (fst ci) (snd ci)) <$> renumber c a b cell i
  | Exit cell i => (fun ci => Exit (fst ci) (snd ci)) <$> renumber c a b cell i
  | Eff cell i => (fun ci => Eff (fst ci) (snd ci)) <$> renumber c a b cell i
  | Responded => Some Responded
  | OnError err => Some (OnError err)
  end.

Definition flatten_trace (c : nat) (a b : Z) (t : list event) : list event :=
  omap (flatten_event c a b) t.

(** *** The checks of [compose], and more vocabulary *)

Section ComposeArgument.

Context {Ctx : Type}.

(** What a caller may hand to [compose]: any value, or an array whose
    elements are functions or other values. *)
Inductive js_element :=
| ElemFunction (h : handler Ctx)
| ElemOther (v : jsval).

Inductive js_argument :=
| NotAnArray (v : jsval)
| AnArray (items : list js_element).

(** [for (const fn of middleware) if (typeof fn !== 'function') throw ...]:
    the handlers when every element is a function. *)
Fixpoint functions_of (items : list js_element) : option (list (handler Ctx)) :=
  match items with
  | [] => Some []
  | ElemFunction h :: rest =>
      match functions_of rest with
      | Some hs => Some (h :: hs)
      | None => None
      end
  | ElemOther _ :: _ => None
  end.

(** [compose(middleware)] with its two checks: the [TypeError] thrown, or
    the pipeline function. *)
Definition compose_checked (middleware : js_argument)
    : jsval + (callee Ctx -> proceed Ctx) :=
  match middleware with
  | NotAnArray _ => inl (new_TypeError "Middleware stack must be an array!")
  | AnArray items =>
      match functions_of items with
      | None => inl (new_TypeError "Middleware must be composed of functions!")
      | Some hs => inr (compose hs)
      end
  end.

Definition is_element_function (x : js_element) : bool :=
  match x with
  | ElemFunction _ => true
  | ElemOther _ => false
  end.

(** A [next] argument that is not a bound [dispatch] of another pipeline. *)
Definition unbound (next : callee Ctx) : bool :=
  match next with
  | Bound _ => false
  | _ => true
  end.

(** The body never calls [next] and ends with [throw e]. *)
Inductive fails_with (e : jsval) : Prog Ctx -> Prop :=
| fw_Throw : fails_with e (Throw e)
| fw_Act f k : fails_with e k -> fails_with e (Act f k)
| fw_Read k : (forall c, fails_with e (k c)) -> fails_with e (Read k).

(** The body awaits [next] once and, when that fails, fails with the same
    error: it has no [catch] that swallows or replaces it. *)
Inductive transparent : Prog Ctx -> Prop :=
| tr_Act f k : transparent k -> transparent (Act f k)
| tr_Read k : (forall c, transparent (k c)) -> transparent (Read k)
| tr_AwaitNext k :
    (forall e, fails_with e (k (Throws e))) -> transparent (AwaitNext k).

Definition transparent_fn (h : handler Ctx) : Prop :=
  match h with
  | Fn _ body => transparent body
  | Composed _ => False
  end.

(** The body awaits [next] with no [catch] around the call, then goes on
    without a further call of [next]: what follows a second call that has
    fulfilled is of no account here, since a second call never fulfils. *)
Inductive proceeds_again : Prog Ctx -> Prop :=
| pa_Act f k : proceeds_again k -> proceeds_again (Act f k)
| pa_Read k : (forall c, proceeds_again (k c)) -> proceeds_again (Read k)
| pa_AwaitNext k :
    (forall e, fails_with e (k (Throws e))) -> proceeds_again (AwaitNext k).

(** The body awaits [next] and, when that call has fulfilled, awaits [next]
    again; no [catch] is around either call. *)
Inductive proceeds_twice : Prog Ctx -> Prop :=
| pt_Act f k : proceeds_twice k -> proceeds_twice (Act f k)
| pt_Read k : (forall c, proceeds_twice (k c)) -> proceeds_twice (Read k)
| pt_AwaitNext k :
    (forall e, fails_with e (k (Throws e))) ->
    (forall v, proceeds_again (k (Returns v))) ->
    proceeds_twice (AwaitNext k).

(** The body returns normally: it ends with [return v], for a [v] that is
    not a rejected promise, after at most one call of [next], which it
    awaits; what it does when that call fails is left open. *)
Inductive returns_normally : Prog Ctx -> Prop :=
| rn_Return v : (forall e, v <> JPromise Rejected e) -> returns_normally (Return v)
| rn_Act f k : returns_normally k -> returns_normally (Act f k)
| rn_Read k : (forall c, returns_normally (k c)) -> returns_normally (Read k)
| rn_AwaitNext k :
    (forall v, resolves_alone (k (Returns v))) -> returns_normally (AwaitNext k).

Definition returns_normally_fn (h : handler Ctx) : Prop :=
  match h with
  | Fn _ body => returns_normally body
  | Composed _ => False
  end.

(** A [next] argument that is absent or falsy, or a function that returns
    normally. *)
Definition quiet_next (next : callee Ctx) : Prop :=
  match next with
  | Falsy => True
  | NotCallable v => truthy v = false
  | Func h => returns_normally_fn h
  | Bound _ => False
  end.

End ComposeArgument.

Arguments js_element : clear implicits.
Arguments js_argument : clear implicits.

(** ** The application module *)

(** What [res.end] and [stream.pipe] did to the outbound transport. *)
Inductive res_action :=
| End (payload : option jsval)
| Pipe (stream : nat).

(** The raw response handle [res] of node. *)
Record response := mkResponse {
  statusCode : Z;
  headersSent : bool;
  output : list res_action;
  finish_listeners : nat
}.

(** Modelled from the spec: the context, request and response modules are
    absent, so the accessors of the context that this module uses are plain
    fields.  [ctx.status] reads [res.statusCode], [ctx.length] and [ctx.type]
    are the content-length and content-type headers, and [ctx.body = null]
    clears the body. *)
Record context := mkContext {
  ctx_respond : jsval;
  writable : bool;
  body : jsval;
  method : string;
  message : string;
  length_header : option jsval;
  type_header : option string;
  httpVersionMajor : Z;
  res : response
}.

Definition status (c : context) : Z := statusCode (res c).

Definition set_respond (v : jsval) (c : context) : context :=
  mkContext v (writable c) (body c) (method c) (message c)
    (length_header c) (type_header c) (httpVersionMajor c) (res c).

Definition set_body (v : jsval) (c : context) : context :=
  mkContext (ctx_respond c) (writable c) v (method c) (message c)
    (length_header c) (type_header c) (httpVersionMajor c) (res c).

Definition set_length (n : jsval) (c : context) : context :=
  mkContext (ctx_respond c) (writable c) (body c) (method c) (message c)
    (Some n) (type_header c) (httpVersionMajor c) (res c).

Definition set_type (t : string) (c : context) : context :=
  mkContext (ctx_respond c) (writable c) (body c) (method c) (message c)
    (length_header c) (Some t) (httpVersionMajor c) (res c).

Definition set_res (r : response) (c : context) : context :=
  mkContext (ctx_respond c) (writable c) (body c) (method c) (message c)
    (length_header c) (type_header c) (httpVersionMajor c) r.

Definition set_statusCode (code : Z) (r : response) : response :=
  mkResponse code (headersSent r) (output r) (finish_listeners r).

(** [onFinished(res, listener)] of the package on-finished keeps the
    listener; the only listener that this module registers is
    [err => ctx.onerror(err)], and [finish_listeners] counts how often it
    is held.  The package calls what it holds when the transport reports
    the end of the response, see [response_finished]. *)
Definition onFinished (r : response) : response :=
  mkResponse (statusCode r) (headersSent r) (output r) (S (finish_listeners r)).


Definition act (a : res_action) (r : response) : response :=
  mkResponse (statusCode r) (headersSent r) (output r ++ [a]) (finish_listeners r).

(** [res.end()], [res.end(body)] and [body.pipe(res)]; each returns [res]. *)
Definition res_end (payload : option jsval) (c : context) : call_result * context :=
  (Returns (JHost "res"), set_res (act (End payload) (res c)) c).

Definition pipe (stream : nat) (c : context) : call_result * context :=
  (Returns (JHost "res"), set_res (act (Pipe stream) (res c)) c).

(** The bytes that one action puts on the wire as payload. *)
Definition payload_bytes (a : res_action) : option nat :=
  match a with
  | End None => Some O
  | End (Some (JStr s)) => Some (String.length s)
  | End (Some (JBuffer b)) => Some (String.length b)
  | _ => None
  end.

(** [false === v]. *)
Definition is_false (v : jsval) : bool :=
  match v with JBool false => true | _ => false end.

(** [null == v]. *)
Definition is_nullish (v : jsval) : bool :=
  match v with JUndefined | JNull => true | _ => false end.

(** [String(code)] for an integer. *)
Definition String_of (code : Z) : string :=
  NilZero.string_of_int (Z.to_int code).

(** [Buffer.byteLength(v)]: strings are kept in their UTF-8 encoding. *)
Definition Buffer_byteLength (v : jsval) : call_result :=
  match v with
  | JStr s => Returns (JNum (Z.of_nat (String.length s)))
  | JBuffer b => Returns (JNum (Z.of_nat (String.length b)))
  | _ => Throws (new_TypeError "The string argument must be of type string or Buffer")
  end.

(** [msg.replace(/^/gm, '  ')]: two spaces at the start of the text and
    after every line terminator (LF, CR, U+2028, U+2029). *)
Fixpoint indent_rest (s : string) : string :=
  match s with
  | EmptyString => EmptyString
  | String c rest =>
      if (Ascii.eqb c "010"%char || Ascii.eqb c "013"%char)%bool then
        String c (String.append "  " (indent_rest rest))
      else
        match rest with
        | String c1 (String c2 rest') =>
            if (Ascii.eqb c "226"%char && Ascii.eqb c1 "128"%char
                && (Ascii.eqb c2 "168"%char || Ascii.eqb c2 "169"%char))%bool then
              String c (String c1 (String c2
                (String.append "  " (indent_rest rest'))))
            else String c (indent_rest rest)
        | _ => String c (indent_rest rest)
        end
  end.

Definition indent (msg : string) : string :=
  String.append "  " (indent_rest msg).

(** [err.toString()] of an error object. *)
Definition Error_toString (name message : string) : string :=
  if String.eqb name EmptyString then message
  else if String.eqb message EmptyString then name
  else String.append name (String.append ": " message).

(** The packages and modules that the application module calls and that are
    not part of it: [statuses.empty], [koa-is-json], the built-in
    [JSON.stringify], [util.format] with its [%j] directive, and the
    [onerror] method of the context.  [util.format] returns the text
    ([inl]) or throws ([inr]): the directive [%j] serialises its argument
    and lets what the serialiser throws through, save for the error of a
    circular structure. *)
Class Host := {
  statuses_empty : Z -> bool;
  isJSON : jsval -> bool;
  JSON_stringify : jsval -> call_result;
  util_format_j : string -> jsval -> string + jsval;
  ctx_onerror : jsval -> context -> call_result * context
}.

Section Application.

Context {host : Host}.

(** [ctx.length = Buffer.byteLength(text)], then the rest of the branch. *)
Definition with_byteLength (text : jsval) (c : context)
    (k : context -> call_result * context) : call_result * context :=
  match Buffer_byteLength text with
  | Returns n => k (set_length n c)
  | Throws e => (Throws e, c)
  end.

(** A statement whose value is dropped: the function goes on to return
    [undefined]. *)
Definition drop_value (r : call_result * context) : call_result * context :=
  match r with
  | (Returns _, c) => (Returns JUndefined, c)
  | (Throws e, c) => (Throws e, c)
  end.

(** Response helper. *)
Definition respond (c : context) : call_result * context :=
  if is_false (ctx_respond c) then (Returns JUndefined, c)
  else if negb (writable c) then (Returns JUndefined, c)
  else
    let code := status c in
    if statuses_empty code then res_end None (set_body JNull c)
    else if String.eqb "HEAD" (method c) then
      if (negb (headersSent (res c)) && isJSON (body c))%bool then
        match JSON_stringify (body c) with
        | Throws e => (Throws e, c)
        | Returns text => with_byteLength text c (res_end None)
        end
      else res_end None c
    else if is_nullish (body c) then
      let text :=
        if 2 <=? httpVersionMajor c then String_of code
        else if String.eqb (message c) EmptyString then String_of code
        else message c in
      if negb (headersSent (res c)) then
        with_byteLength (JStr text) (set_type "text" c) (res_end (Some (JStr text)))
      else res_end (Some (JStr text)) c
    else
      match body c with
      | JBuffer _ => res_end (Some (body c)) c
      | JStr _ => res_end (Some (body c)) c
      | JStream id => pipe id c
      | _ =>
          match JSON_stringify (body c) with
          | Throws e => (Throws e, c)
          | Returns text =>
              if negb (headersSent (res c)) then
                with_byteLength text c
                  (fun c => drop_value (res_end (Some text) c))
              else drop_value (res_end (Some text) c)
          end
      end.

(** Default error handler of the application; [console] collects the lines
    written with [console.error]. *)
Definition onerror (silent : bool) (err : jsval) (console : list string)
    : call_result * list string :=
  match err with
  | JError name msg st expose stack =>
      if (match st with Some s => s =? 404 | None => false end || expose)%bool
      then (Returns JUndefined, console)
      else if silent then (Returns JUndefined, console)
      else
        let msg :=
          match stack with
          | Some s => if String.eqb s EmptyString then Error_toString name msg else s
          | None => Error_toString name msg
          end in
        (Returns JUndefined, console ++ [EmptyString; indent msg; EmptyString])
  | _ =>
      match util_format_j "non-error thrown: %j" err with
      | inl text => (Throws (new_TypeError text), console)
      | inr e => (Throws e, console)
      end
  end.

Definition lift (f : context -> call_result * context)
    (w : World context) : call_result * World context :=
  let (r, c) := f (ctx w) in (r, set_ctx c w).

(** [promise.then(onFulfilled)] and [promise.catch(onRejected)] on a settled
    promise: the callback runs when the state matches, and its completion
    settles the promise that is returned. *)
Definition settle_with (cb : World context -> call_result * World context)
    (w : World context) : jsval * World context :=
  match cb w with
  | (Returns x, w') => (Promise_resolve x, w')
  | (Throws e, w') => (Promise_reject e, w')
  end.

Definition promise_then (st : pstate) (v : jsval)
    (onFulfilled : jsval -> World context -> call_result * World context)
    (w : World context) : jsval * World context :=
  match st with
  | Fulfilled => settle_with (onFulfilled v) w
  | Rejected => (JPromise st v, w)
  end.

Definition promise_catch (p : jsval)
    (onRejected : jsval -> World context -> call_result * World context)
    (w : World context) : jsval * World context :=
  match p with
  | JPromise Rejected e => settle_with (onRejected e) w
  | _ => (p, w)
  end.

(** [res.statusCode = 404] and [onFinished(res, onerror)]. *)
Definition default_status (w : World context) : World context :=
  set_ctx (set_res (set_statusCode 404 (res (ctx w))) (ctx w)) w.

Definition observe_finish (w : World context) : World context :=
  set_ctx (set_res (onFinished (res (ctx w))) (ctx w)) w.

(** Handle request in callback. *)
Definition handleRequest (fnMiddleware : proceed context) (w : World context)
    : option (call_result * World context) :=
  let w := default_status w in
  let onerror := fun err w => lift (ctx_onerror err) (emit (OnError err) w) in
  let handleResponse := fun (_ : jsval) w => lift respond (emit Responded w) in
  let w := observe_finish w in
  match fnMiddleware w with
  | None => None
  | Some (Throws e, w') => Some (Throws e, w')
  | Some (Returns (JPromise st v), w') =>
      let (p1, w1) := promise_then st v handleResponse w' in
      let (p2, w2) := promise_catch p1 onerror w1 in
      Some (Returns p2, w2)
  | Some (Returns _, w') =>
      Some (Throws (new_TypeError "fnMiddleware(...).then is not a function"), w')
  end.



(** The request handler that [callback] builds from the registered
    middleware, applied to the context of one request. *)
Definition callback (middleware : list (handler context))
    : World context -> option (call_result * World context) :=
  handleRequest (compose middleware Falsy).


(** A body that [respond] writes as it is: a Buffer, a string or a stream. *)
Definition is_raw (v : jsval) : bool :=
  match v with
  | JBuffer _ | JStr _ | JStream _ => true
  | _ => false
  end.

(** The text that stands for a body that is absent: [ctx.message], or the
    digits of the status when that is empty or the connection is HTTP/2. *)
Definition status_text (c : context) : string :=
  if ((2 <=? httpVersionMajor c) || String.eqb (message c) EmptyString)%bool
  then String_of (status c) else message c.

End Application.



(** A host for the examples.  [statuses.empty] holds 204, 205 and 304;
    [koa-is-json] accepts every truthy value that is not a string, a stream
    or a buffer; [JSON.stringify] is given for null, booleans, integers,
    strings, arrays and objects of those, and throws on a BigInt; buffers,
    streams, errors, promises and host objects, whose own properties are
    not modelled, print as an empty object.  The [onerror] method of the
    context just returns. *)
Definition hex_digit (n : nat) : ascii :=
  nth n (list_ascii_of_string "0123456789abcdef") "0"%char.

Definition backslash : ascii := "092"%char.

Definition escape_char (c : ascii) : string :=
  let n := nat_of_ascii c in
  if Ascii.eqb c "034"%char then String backslash (String c EmptyString)
  else if Ascii.eqb c backslash then String backslash (String c EmptyString)
  else if Ascii.eqb c "008"%char then String backslash "b"
  else if Ascii.eqb c "009"%char then String backslash "t"
  else if Ascii.eqb c "010"%char then String backslash "n"
  else if Ascii.eqb c "012"%char then String backslash "f"
  else if Ascii.eqb c "013"%char then String backslash "r"
  else if (n <? 32)%nat then
    String backslash
      (String.append "u00"
         (String (hex_digit (n / 16)) (String (hex_digit (n mod 16)) EmptyString)))
  else String c EmptyString.

Fixpoint escape (s : string) : string :=
  match s with
  | EmptyString => EmptyString
  | String c rest => String.append (escape_char c) (escape rest)
  end.

Definition quote (s : string) : string :=
  String "034"%char (String.append (escape s) (String "034"%char EmptyString)).

(** The JSON text of a value; [None] when serialising throws.  Inside an
    array [undefined] prints as [null]; a property whose value is
    [undefined] is left out; [undefined] on its own is dealt with in
    [sample_stringify]. *)
Fixpoint json_text (v : jsval) : option string :=
  match v with
  | JUndefined => Some "null"%string
  | JNull => Some "null"%string
  | JBool true => Some "true"%string
  | JBool false => Some "false"%string
  | JNum z => Some (String_of z)
  | JBigInt _ => None
  | JStr s => Some (quote s)
  | JArray items =>
      let fix go (l : list jsval) (first : bool) : option string :=
        match l with
        | [] => Some "]"%string
        | x :: l' =>
            match json_text x, go l' false with
            | Some t, Some rest =>
                Some (String.append (if first then EmptyString else ",")
                        (String.append t rest))
            | _, _ => None
            end
        end in
      match go items true with
      | Some t => Some (String.append "[" t)
      | None => None
      end
  | JObject fields =>
      let fix go (l : list (string * jsval)) (first : bool) : option string :=
        match l with
        | [] => Some "}"%string
        | (_, JUndefined) :: l' => go l' first
        | (k, x) :: l' =>
            match json_text x, go l' false with
            | Some t, Some rest =>
                Some (String.append (if first then EmptyString else ",")
                        (String.append (quote k)
                           (String.append ":" (String.append t rest))))
            | _, _ => None
            end
        end in
      match go fields true with
      | Some t => Some (String.append "{" t)
      | None => None
      end
  | _ => Some "{}"%string
  end.

Definition sample_stringify (v : jsval) : call_result :=
  match v with
  | JUndefined => Returns JUndefined
  | _ =>
      match json_text v with
      | Some t => Returns (JStr t)
      | None => Throws (new_TypeError "Do not know how to serialize a BigInt")
      end
  end.

Definition sample_format (fmt : string) (v : jsval) : string + jsval :=
  match sample_stringify v with
  | Returns (JStr t) => inl (String.append "non-error thrown: " t)
  | Returns _ => inl "non-error thrown: undefined"%string
  | Throws e => inr e
  end.

#[export] Instance sample_host : Host := {|
  statuses_empty := fun code => (code =? 204) || (code =? 205) || (code =? 304);
  isJSON := fun v =>
    match v with
    | JStr _ | JStream _ | JBuffer _ => false
    | _ => truthy v
    end;
  JSON_stringify := sample_stringify;
  util_format_j := sample_format;
  ctx_onerror := fun _ c => (Returns JUndefined, c)
|}.

(** A host like the sample one, with one host object whose method
    [toJSON] throws a [RangeError]: the serialiser calls the method, and
    [JSON.stringify] and [util.format] let the error through. *)
Definition stubborn : jsval := JHost "toJSON throws".

Definition range_error : jsval := JError "RangeError" "no" None false None.

Definition is_stubborn (v : jsval) : bool :=
  match v with
  | JHost name => String.eqb name "toJSON throws"
  | _ => false
  end.

Definition stubborn_host : Host := {|
  statuses_empty := fun code => (code =? 204) || (code =? 205) || (code =? 304);
  isJSON := fun v =>
    match v with
    | JStr _ | JStream _ | JBuffer _ => false
    | _ => truthy v
    end;
  JSON_stringify := fun v =>
    if is_stubborn v then Throws range_error else sample_stringify v;
  util_format_j := fun fmt v =>
    if is_stubborn v then inr range_error else sample_format fmt v;
  ctx_onerror := fun _ c => (Returns JUndefined, c)
|}.

(** ** Handlers and requests of the examples *)

(** A logging handler over a shared log:
    [async (ctx, next) => { log.push('before' + n); await next();
                            log.push('after' + n) }]. *)
Definition logger (async : bool) (n : string) : handler (list string) :=
  Fn async
    (Act (fun log => log ++ [String.append "before" n])
       (AwaitNext (fun r =>
          match r with
          | Returns _ =>
              Act (fun log => log ++ [String.append "after" n]) (Return JUndefined)
          | Throws e => Throw e
          end))).

(** [async (ctx, next) => { await next() }] *)
Definition passes : handler unit :=
  Fn true (AwaitNext (fun r =>
    match r with
    | Throws e => Throw e
    | Returns _ => Return JUndefined
    end)).

(** A handler that awaits its proceed callable twice and keeps what the
    second call threw:
    [async (ctx, next) => { await next(); try { await next(); return null }
                            catch (e) { return e } }]. *)
Definition catches_second_call : handler unit :=
  Fn true (AwaitNext (fun first =>
    match first with
    | Throws e => Throw e
    | Returns _ =>
        AwaitNext (fun second =>
          match second with
          | Throws e => Return e
          | Returns _ => Return JNull
          end)
    end)).

(** The same without the [try]:
    [async (ctx, next) => { await next(); await next() }]. *)
Definition calls_next_twice : handler unit :=
  Fn true (AwaitNext (fun first =>
    match first with
    | Throws e => Throw e
    | Returns _ =>
        AwaitNext (fun second =>
          match second with
          | Throws e => Throw e
          | Returns _ => Return JUndefined
          end)
    end)).

(** [async (ctx, next) => { await next(); throw new Error('late') }] in front
    of a handler that resolves without proceeding: the invocation rejects. *)
Definition fails_late : handler unit :=
  Fn true (AwaitNext (fun r =>
    match r with
    | Throws e => Throw e
    | Returns _ => Throw (new_Error "late")
    end)).

Definition answers : handler unit := Fn true (Return JUndefined).


Definition fresh_request : World context :=
  mkWorld [] []
    (mkContext JUndefined true JUndefined "GET" EmptyString None None 1
       (mkResponse 200 false [] O)).

(** A HEAD request whose handlers left an object with the one property [a],
    of value 1, as the body. *)
Definition head_request (flag : jsval) (code : Z) : context :=
  mkContext flag true (JObject [("a"%string, JNum 1)]) "HEAD" "OK" None None 1
    (mkResponse code false [] O).

(** The text of that body: an opening brace, the quoted name, [:1] and the
    closing brace, seven bytes. *)
Definition a_is_1 : string :=
  String.append "{" (String.append (quote "a") ":1}").


(** ** The application object *)

(** A listener of the [error] event: the default handler [this.onerror],
    or one that the program registered. *)
Inductive listener :=
| DefaultOnerror
| Registered (id : nat).

Section ApplicationObject.

Context {host : Host}.

(** Generator functions, and [koa-convert], which turns one into a
    function of the shape that [compose] expects. *)
Variable Generator : Type.
Variable convert : Generator -> handler context.

(** The state of an application that [use] and [callback] read and write:
    the array [this.middleware], the listeners of [error], and the
    warnings given to [deprecate]. *)
Record application := mkApplication {
  app_middleware : list (handler context);
  error_listeners : list listener;
  deprecations : list string
}.


(** What [use] is called with. *)
Inductive use_argument :=
| UseFunction (h : handler context)
| UseGenerator (g : Generator)
| UseOther (v : jsval).

Definition generator_warning : string :=
  String.append "Support for generators will be removed in v3. "
    (String.append
       "See the documentation for examples of how to convert old middleware "
       "https://github.com/koajs/koa/blob/master/docs/migration.md").

(** [app.use(fn)]: the [TypeError] thrown, or [this]. *)
Definition use (fn : use_argument) (app : application) : jsval + application :=
  match fn with
  | UseOther _ => inl (new_TypeError "middleware must be a function!")
  | UseGenerator g =>
      inr (mkApplication (app_middleware app ++ [convert g])
             (error_listeners app) (deprecations app ++ [generator_warning]))
  | UseFunction h =>
      inr (mkApplication (app_middleware app ++ [h])
             (error_listeners app) (deprecations app))
  end.

(** [app.use(f1).use(f2)...]: the calls in turn, up to the first that
    throws; the application as the calls left it. *)
Fixpoint use_all (fns : list use_argument) (app : application)
    : option jsval * application :=
  match fns with
  | [] => (None, app)
  | fn :: rest =>
      match use fn app with
      | inl e => (Some e, app)
      | inr app' => use_all rest app'
      end
  end.

(** [app.callback()]: the application with the default listener of [error]
    when there was none, and the request handler.  [compose] keeps the
    array [this.middleware] itself, not a copy, so the handler runs what
    the array holds when the request arrives: it takes the application of
    that moment. *)
Definition app_callback (app : application)
    : application *
      (application -> World context -> option (call_result * World context)) :=
  (match error_listeners app with
   | [] => mkApplication (app_middleware app) [DefaultOnerror] (deprecations app)
   | _ => app
   end,
   fun now => handleRequest (compose (app_middleware now) Falsy)).







(** The function that [use] registers for an argument. *)
Definition registered (fn : use_argument) : option (handler context) :=
  match fn with
  | UseFunction h => Some h
  | UseGenerator g => Some (convert g)
  | UseOther _ => None
  end.

Definition is_generator (fn : use_argument) : bool :=
  match fn with
  | UseGenerator _ => true
  | _ => false
  end.

End ApplicationObject.

Arguments use_argument : clear implicits.
Arguments UseFunction {Generator} h.
Arguments UseGenerator {Generator} g.
Arguments UseOther {Generator} v.
Arguments is_generator {Generator} fn.

(** ** The CORS middleware *)

(** A header option as it is documented: absent, a string, or an array of
    strings. *)
Inductive header_option :=
| HUndefined
| HText (s : string)
| HList (items : list string).

(** The [maxAge] option: absent, a string or a number. *)
Inductive age_option :=
| AgeUndefined
| AgeText (s : string)
| AgeNumber (n : Z).

(** What the middleware asks of the context: [ctx.vary(field)],
    [ctx.set(field, value)] and [ctx.status = code]. *)
Inductive cors_effect :=
| Vary (field : string)
| SetHeader (field : string) (value : jsval)
| SetStatus (code : Z).

(** Modelled from the spec: the header operations of the context belong to
    modules that are not among the sources.  [ctx.get] is a lookup in the
    request, [ctx.method] is a string, and the calls of [ctx.vary] and
    [ctx.set] and the assignment to [ctx.status] are recorded in the order
    in which they are made. *)
Record cors_context := mkCorsContext {
  request_header : string -> jsval;
  request_method : string;
  performed : list cors_effect
}.

Definition ctx_get (field : string) (c : cors_context) : jsval :=
  request_header c field.

Definition perform (e : cors_effect) (c : cors_context) : cors_context :=
  mkCorsContext (request_header c) (request_method c) (performed c ++ [e]).

(** An object with header names as properties. *)
Definition headers_object := gmap string jsval.

(** What a function throws, or a promise is rejected with: an object and
    what its property [headers] holds, [None] when that is falsy.  Thrown
    primitives are outside the model. *)
Record thrown := mkThrown {
  reason : jsval;
  headers : option headers_object
}.

(** How an awaited call completes. *)
Inductive completion :=
| Completes (v : jsval)
| Fails (e : thrown).

(** [await next()]: what the rest of the pipeline does to the context and
    how it completes. *)
Definition cors_next := cors_context -> completion * cors_context.

(** What the function given as [origin] does when it is called with the
    context, which it only inspects: it returns a value that is not a
    promise, returns a promise that is fulfilled or rejected, or throws. *)
Inductive origin_result :=
| OriginReturns (v : jsval)
| OriginFulfils (v : jsval)
| OriginRejects (e : thrown)
| OriginThrows (e : thrown).

Inductive origin_option :=
| OriginValue (v : jsval)
| OriginFunction (f : cors_context -> origin_result).

(** The argument of the module function.  A property that is absent reads
    as [undefined]; for [allowMethods], which has a default, [None] is the
    absent property and [Some HUndefined] the property set to
    [undefined]. *)
Record cors_arguments := mkCorsArguments {
  arg_origin : origin_option;
  arg_allowMethods : option header_option;
  arg_exposeHeaders : header_option;
  arg_allowHeaders : header_option;
  arg_maxAge : age_option;
  arg_credentials : jsval;
  arg_keepHeadersOnError : jsval
}.

(** [options] once the module function has normalised it. *)
Record cors_options := mkCorsOptions {
  origin : origin_option;
  allowMethods : header_option;
  exposeHeaders : header_option;
  allowHeaders : header_option;
  maxAge : age_option;
  credentials : bool;
  keepHeadersOnError : bool
}.

(** [items.join(',')]. *)
Definition join (items : list string) : string := String.concat "," items.

(** [if (Array.isArray(x)) x = x.join(',')]. *)
Definition joined (x : header_option) : header_option :=
  match x with
  | HList items => HText (join items)
  | _ => x
  end.

(** Truthiness and value of an option. *)
Definition header_truthy (x : header_option) : bool :=
  match x with
  | HUndefined => false
  | HText s => negb (String.eqb s EmptyString)
  | HList _ => true
  end.

Definition header_value (x : header_option) : jsval :=
  match x with
  | HUndefined => JUndefined
  | HText s => JStr s
  | HList items => JArray (map JStr items)
  end.

Definition age_truthy (x : age_option) : bool :=
  match x with
  | AgeUndefined => false
  | AgeText s => negb (String.eqb s EmptyString)
  | AgeNumber n => negb (n =? 0)
  end.

Definition age_value (x : age_option) : jsval :=
  match x with
  | AgeUndefined => JUndefined
  | AgeText s => JStr s
  | AgeNumber n => JNum n
  end.

Definition is_undefined (v : jsval) : bool :=
  match v with JUndefined => true | _ => false end.

Section Cors.

(** [String(n)] for a number, the conversion that the engine performs:
    the decimal digits of an integer below 10^21, its exponent form from
    there on. *)
Variable Number_String : Z -> string.

(** [vary.append(header, field)] of the package [vary]. *)
Variable vary_append : jsval -> string -> call_result.

(** [String(options.maxAge)]. *)
Definition age_String (x : age_option) : string :=
  match x with
  | AgeUndefined => "undefined"
  | AgeText s => s
  | AgeNumber n => Number_String n
  end.

(** The first part of the module function: the defaults and the
    normalisation of the options. *)
Definition normalise (options : cors_arguments) : cors_options :=
  mkCorsOptions
    (arg_origin options)
    (joined (default (HText "GET,HEAD,PUT,POST,DELETE,PATCH")
               (arg_allowMethods options)))
    (joined (arg_exposeHeaders options))
    (joined (arg_allowHeaders options))
    (if age_truthy (arg_maxAge options)
     then AgeText (age_String (arg_maxAge options))
     else arg_maxAge options)
    (truthy (arg_credentials options))
    (is_undefined (arg_keepHeadersOnError options)
     || truthy (arg_keepHeadersOnError options)).


(** The local function [set]: [ctx.set(key, value)] and
    [headersSet[key] = value]. *)
Definition cors_set (key : string) (value : jsval)
    (st : cors_context * headers_object) : cors_context * headers_object :=
  (perform (SetHeader key value) (fst st), <[key := value]> (snd st)).

(** [a || b]. *)
Definition js_or (a b : jsval) : jsval := if truthy a then a else b.

(** [object[key]]. *)
Definition property (object : headers_object) (key : string) : jsval :=
  default JUndefined (object !! key).

(** The [catch] block of the handler. *)
Definition decorate (headersSet : headers_object) (err : thrown) : completion :=
  let errHeadersSet := default ∅ (headers err) in
  match vary_append
          (js_or (js_or (property errHeadersSet "vary") (property errHeadersSet "Vary"))
             (JStr EmptyString))
          "Origin" with
  | Throws e => Fails (mkThrown e None)
  | Returns varyWithOrigin =>
      Fails (mkThrown (reason err)
               (Some (<["vary" := varyWithOrigin]>
                        (headersSet ∪ delete "Vary" errHeadersSet))))
  end.

(** The handler from the point where [origin] is known. *)
Definition cors_respond (options : cors_options) (origin : jsval)
    (c : cors_context) (next : cors_next) : completion * cors_context :=
  if negb (String.eqb (request_method c) "OPTIONS") then
    let st := cors_set "Access-Control-Allow-Origin" origin (c, ∅) in
    let st :=
      if credentials options
      then cors_set "Access-Control-Allow-Credentials" (JStr "true") st
      else st in
    let st :=
      if header_truthy (exposeHeaders options)
      then cors_set "Access-Control-Expose-Headers"
             (header_value (exposeHeaders options)) st
      else st in
    if negb (keepHeadersOnError options) then next (fst st)
    else
      match next (fst st) with
      | (Completes v, c') => (Completes v, c')
      | (Fails err, c') => (decorate (snd st) err, c')
      end
  else if negb (truthy (ctx_get "Access-Control-Request-Method" c)) then next c
  else
    let c := perform (SetHeader "Access-Control-Allow-Origin" origin) c in
    let c :=
      if credentials options
      then perform (SetHeader "Access-Control-Allow-Credentials" (JStr "true")) c
      else c in
    let c :=
      if age_truthy (maxAge options)
      then perform (SetHeader "Access-Control-Max-Age" (age_value (maxAge options))) c
      else c in
    let c :=
      if header_truthy (allowMethods options)
      then perform (SetHeader "Access-Control-Allow-Methods"
                      (header_value (allowMethods options))) c
      else c in
    let allowHeaders :=
      if header_truthy (allowHeaders options)
      then header_value (allowHeaders options)
      else ctx_get "Access-Control-Request-Headers" c in
    let c :=
      if truthy allowHeaders
      then perform (SetHeader "Access-Control-Allow-Headers" allowHeaders) c
      else c in
    (Completes JUndefined, perform (SetStatus 204) c).

(** [async function cors(ctx, next)]. *)
Definition cors (options : cors_options) (c : cors_context) (next : cors_next)
    : completion * cors_context :=
  let requestOrigin := ctx_get "Origin" c in
  let c := perform (Vary "Origin") c in
  if negb (truthy requestOrigin) then next c
  else
    match origin options with
    | OriginFunction f =>
        match f c with
        | OriginThrows e => (Fails e, c)
        | OriginRejects e => (Fails e, c)
        | OriginReturns v | OriginFulfils v =>
            if negb (truthy v) then next c else cors_respond options v c next
        end
    | OriginValue v => cors_respond options (js_or v requestOrigin) c next
    end.


End Cors.

(** *** What the properties of the CORS handler speak about *)

(** The context after further effects. *)
Definition extended (c : cors_context) (es : list cors_effect) : cors_context :=
  mkCorsContext (request_header c) (request_method c) (performed c ++ es).

(** What an effect writes to: a header, or the status. *)
Definition target (e : cors_effect) : string :=
  match e with
  | Vary _ => "Vary"
  | SetHeader field _ => field
  | SetStatus _ => ":status"
  end.

(** The handler hands [c1] to [next] once and returns what [next] returns,
    but for the decoration of a failure; or it does not call [next] and
    leaves [c1]. *)
Definition hands_over (run : cors_next -> completion * cors_context)
    (c1 : cors_context) : Prop :=
  (exists r, forall next, run next = (r, c1)) \/
  (exists k : completion * cors_context -> completion * cors_context,
     (forall next, run next = k (next c1)) /\
     (forall r c', snd (k (r, c')) = c')).

(** ** Further examples *)

(** [async () => { throw new Error('teapot') }]. *)
Definition throws_teapot : handler unit := Fn true (Throw (new_Error "teapot")).

(** The same for a request. *)
Definition fails_with_teapot : handler context :=
  Fn true (Throw (new_Error "teapot")).


(** A stand-in for [vary.append] in the examples: the field is appended to
    a header that is a string.  The package also leaves a header alone
    that lists the field already or is the wildcard. *)
Definition sample_vary_append (header : jsval) (field : string) : call_result :=
  match header with
  | JStr s =>
      if String.eqb s EmptyString then Returns (JStr field)
      else Returns (JStr (String.append s (String.append ", " field)))
  | _ => Throws (new_TypeError "header argument is required")
  end.

(** A request from another origin that announces a [PUT] with the header
    [X-Token]. *)
Definition cross_origin (method : string) : cors_context :=
  mkCorsContext
    (fun field =>
       if String.eqb field "Origin" then JStr "https://a.example"
       else if String.eqb field "Access-Control-Request-Method" then JStr "PUT"
       else if String.eqb field "Access-Control-Request-Headers" then JStr "X-Token"
       else JStr EmptyString)
    method [].

(** [cors()], and [cors({ credentials: true })]. *)
Definition no_arguments : cors_arguments :=
  mkCorsArguments (OriginValue JUndefined) None HUndefined HUndefined
    AgeUndefined JUndefined JUndefined.

Definition with_credentials : cors_arguments :=
  mkCorsArguments (OriginValue JUndefined) None HUndefined HUndefined
    AgeUndefined (JBool true) JUndefined.

(** An error with the header [Vary: Accept] that the rest of the pipeline
    throws. *)
Definition teapot : thrown :=
  mkThrown (new_Error "teapot") (Some {["Vary" := JStr "Accept"]}).

(** * Properties of koa-compose *)

Section ComposeFacts.

Context {Ctx : Type}.
Implicit Types (w : World Ctx) (p : Prog Ctx) (next : callee Ctx).
Implicit Types (middleware : list (handler Ctx)).

Lemma dispatch_eq fuel middleware next cell i w :
  dispatch fuel middleware next cell i w =
  if i <=? index cell w then Some (Returns multiple_times, w)
  else
    let w := set_index cell i w in
    let fn := match array_get middleware i with
              | Some h => Func h
              | None => Falsy
              end in
    let fn := if i =? Z.of_nat (length middleware) then next else fn in
    if is_falsy fn then Some (Returns (Promise_resolve JUndefined), w)
    else
      match fuel with
      | O => None
      | S fuel' =>
          match invoke (dispatch fuel') fn
                  (dispatch fuel' middleware next cell (i + 1))
                  cell i (emit (Enter cell i) w) with
          | None => None
          | Some (Returns v, w') =>
              Some (Returns (Promise_resolve v), emit (Exit cell i) w')
          | Some (Throws err, w') =>
              Some (Returns (Promise_reject err), emit (Exit cell i) w')
          end
      end.
Proof. destruct fuel; reflexivity. Qed.

Lemma Promise_resolve_promise v : is_promise (Promise_resolve v) = true.
Proof. destruct v; reflexivity. Qed.

Lemma Promise_resolve_idem v : Promise_resolve (Promise_resolve v) = Promise_resolve v.
Proof. destruct v; reflexivity. Qed.

Lemma is_promise_inv v : is_promise v = true -> exists st x, v = JPromise st x.
Proof. destruct v; try discriminate. eauto. Qed.

(** Every completion of [dispatch] is the return of a promise. *)
Lemma dispatch_returns_promise fuel middleware next cell i w r w' :
  dispatch fuel middleware next cell i w = Some (r, w') ->
  exists v, r = Returns v /\ is_promise v = true.
Proof.
  rewrite dispatch_eq.
  destruct (i <=? index cell w).
  { intros [= <- <-]. eexists; split; reflexivity. }
  cbv zeta.
  destruct (is_falsy _).
  { intros [= <- <-]. eexists; split; reflexivity. }
  destruct fuel as [|fuel']; [discriminate|].
  destruct (invoke _ _ _ _ _ _) as [[[v|e] w1]|]; [| |discriminate].
  - intros [= <- <-]. eexists; split; [reflexivity|apply Promise_resolve_promise].
  - intros [= <- <-]. eexists; split; reflexivity.
Qed.

(** *** Enough fuel *)

Lemma exec_total cell i p (q : proceed Ctx) :
  (forall w, is_Some (q w)) ->
  forall sync w, is_Some (exec cell i sync p q w).
Proof.
  intros Hq. induction p as [v|e|f k IH|k IH|k IH]; intros sync w; simpl; eauto.
  destruct (Hq w) as [[[v|e] w1] ->]; eauto.
Qed.

Lemma depth_le_max_depth middleware n h :
  middleware !! n = Some h -> (depth h <= max_depth middleware)%nat.
Proof.
  revert n. induction middleware as [|h0 l IH]; intros [|n]; simpl; try discriminate.
  - intros [= ->]. unfold max_depth; simpl. lia.
  - intros H. specialize (IH _ H). unfold max_depth in *; simpl. lia.
Qed.

Lemma array_get_Some {A} (l : list A) i x :
  array_get l i = Some x -> 0 <= i < Z.of_nat (length l) /\ l !! Z.to_nat i = Some x.
Proof.
  unfold array_get. destruct (Z.ltb_spec i 0) as [Hneg|Hpos]; [discriminate|].
  intros Hget. split; [|exact Hget]. apply lookup_lt_Some in Hget. lia.
Qed.

Lemma dispatch_total fuel :
  forall middleware next cell i w,
    callee_total next ->
    (fuel_of middleware next <= fuel + Z.to_nat i)%nat ->
    is_Some (dispatch fuel middleware next cell i w).
Proof.
  induction fuel as [|fuel IH]; intros middleware next cell i w Hnext Hfuel;
    rewrite dispatch_eq; destruct (i <=? index cell w); eauto; cbv zeta.
  - (* no fuel is needed past the end *)
    unfold fuel_of in Hfuel.
    destruct (array_get middleware i) as [h|] eqn:Hget.
    { apply array_get_Some in Hget. lia. }
    destruct (Z.eqb_spec i (Z.of_nat (length middleware))); [lia|]. simpl. eauto.
  - set (fn := if i =? Z.of_nat (length middleware) then next else _).
    destruct (is_falsy fn) eqn:Hfalsy; eauto.
    assert (Hi : 0 <= i <= Z.of_nat (length middleware)).
    { subst fn. destruct (Z.eqb_spec i (Z.of_nat (length middleware))); [lia|].
      destruct (array_get middleware i) as [h|] eqn:Hget; [|discriminate].
      apply array_get_Some in Hget. lia. }
    assert (Hdepth : (callee_depth fn <=
              Nat.max (max_depth middleware) (callee_depth next))%nat).
    { subst fn. destruct (Z.eqb_spec i (Z.of_nat (length middleware))); [lia|].
      destruct (array_get middleware i) as [h|] eqn:Hget; simpl; [|lia].
      apply array_get_Some in Hget as [_ Hget].
      apply depth_le_max_depth in Hget. lia. }
    assert (Htot : callee_total fn).
    { subst fn. destruct (i =? _); [assumption|]. destruct (array_get _ _); exact I. }
    assert (Hq : forall w1, is_Some (dispatch fuel middleware next cell (i + 1) w1)).
    { intros w1. apply IH; [assumption|]. unfold fuel_of in *. lia. }
    assert (Hinv : is_Some (invoke (dispatch fuel) fn
               (dispatch fuel middleware next cell (i + 1)) cell i
               (emit (Enter cell i) (set_index cell i w)))).
    { clearbody fn. destruct fn as [|v|[async body|mw']|q]; simpl; eauto.
      - apply exec_total, Hq.
      - apply IH; [exact Hq|]. simpl in Hdepth. unfold fuel_of in *.
        fold (max_depth mw') in Hdepth. simpl. lia. }
    destruct Hinv as [[[v|e] w1] ->]; eauto.
Qed.

Lemma compose_total middleware next w :
  callee_total next -> is_Some (compose middleware next w).
Proof. intros H. apply dispatch_total; [assumption|lia]. Qed.

Lemma compose_returns_promise middleware next w :
  callee_total next ->
  exists st v w', compose middleware next w = Some (Returns (JPromise st v), w').
Proof.
  intros Hnext.
  destruct (compose_total middleware next w Hnext) as [[r w'] Hrun].
  destruct (dispatch_returns_promise _ _ _ _ _ _ _ _ Hrun) as (v & -> & Hv).
  apply is_promise_inv in Hv as (st & x & ->). eauto.
Qed.

(** *** The store *)

Lemma index_cells cell w1 w2 : cells w1 = cells w2 -> index cell w1 = index cell w2.
Proof. unfold index. intros ->. reflexivity. Qed.

Lemma index_set_index_eq cell i w :
  (cell < length (cells w))%nat -> index cell (set_index cell i w) = i.
Proof.
  intros Hlt. unfold index, set_index; simpl.
  rewrite list_lookup_insert_eq by assumption. reflexivity.
Qed.

Lemma index_set_index_ne cell cell' i w :
  cell <> cell' -> index cell' (set_index cell i w) = index cell' w.
Proof.
  intros Hne. unfold index, set_index; simpl.
  rewrite list_lookup_insert_ne by assumption. reflexivity.
Qed.

Lemma set_index_ge cell i w :
  (length (cells w) <= cell)%nat -> set_index cell i w = w.
Proof.
  intros Hge. unfold set_index. rewrite list_insert_ge by assumption.
  destruct w; reflexivity.
Qed.

Lemma index_alloc_index cell w : index cell (alloc_index w) = index cell w.
Proof.
  unfold index, alloc_index; simpl.
  destruct (decide (cell < length (cells w))%nat) as [Hlt|Hge].
  - rewrite lookup_app_l by assumption. reflexivity.
  - rewrite lookup_app_r by lia.
    rewrite (lookup_ge_None_2 (cells w)) by lia.
    destruct (cell - length (cells w))%nat as [|[|n]]; reflexivity.
Qed.

Lemma length_cells_set_index cell i w :
  length (cells (set_index cell i w)) = length (cells w).
Proof. unfold set_index; simpl. apply length_insert. Qed.

Lemma length_cells_alloc_index w :
  length (cells (alloc_index w)) = S (length (cells w)).
Proof. unfold alloc_index; simpl. rewrite length_app; simpl. lia. Qed.

(** *** Invariants of a run *)

(** A property of the store that survives every step of a pipeline whose
    cursor is one of the cells [own] survives the whole run of
    [dispatch], nested pipelines included. *)
Section Invariant.

Variable P : World Ctx -> Prop.
Variable own : nat -> Prop.

Hypothesis P_set_index : forall cell i w,
  own cell -> P w -> index cell w < i -> P (set_index cell i w).
Hypothesis P_emit_Enter : forall cell i w, own cell -> P w -> P (emit (Enter cell i) w).
Hypothesis P_emit_Exit : forall cell i w, own cell -> P w -> P (emit (Exit cell i) w).
Hypothesis P_emit_Eff : forall cell i w, own cell -> P w -> P (emit (Eff cell i) w).
Hypothesis P_set_ctx : forall c w, P w -> P (set_ctx c w).
Hypothesis P_alloc_index : forall w, P w -> P (alloc_index w) /\ own (length (cells w)).

Definition preserves (q : proceed Ctx) : Prop :=
  forall w r w', P w -> q w = Some (r, w') -> P w'.

Definition callee_preserves next : Prop :=
  match next with
  | Bound q => preserves q
  | _ => True
  end.

Lemma exec_preserves cell i p q :
  (forall w, P w -> P (emit (Eff cell i) w)) ->
  preserves q -> forall sync, preserves (exec cell i sync p q).
Proof.
  intros Heff Hq. induction p as [v|e|f k IH|k IH|k IH]; intros sync w r w' HP; simpl.
  - intros [= <- <-]. assumption.
  - intros [= <- <-]. assumption.
  - apply IH. apply Heff. apply P_set_ctx, HP.
  - apply IH, HP.
  - destruct (q w) as [[[v|e] w1]|] eqn:Hqw; [| |discriminate];
      apply IH; eapply Hq; eassumption.
Qed.

Lemma invoke_preserves rec fn q cell i :
  (forall middleware next cell i,
      own cell -> callee_preserves next -> preserves (rec middleware next cell i)) ->
  own cell -> callee_preserves fn -> preserves q ->
  preserves (invoke rec fn q cell i).
Proof.
  intros Hrec Hown Hfn Hq w r w' HP.
  destruct fn as [|v|[async body|mw']|q']; simpl.
  - intros [= <- <-]. assumption.
  - intros [= <- <-]. assumption.
  - apply exec_preserves; try assumption. intros; apply P_emit_Eff; assumption.
  - destruct (P_alloc_index w HP) as [HP' Hown'].
    apply Hrec; assumption.
  - apply Hfn, HP.
Qed.

Lemma dispatch_preserves fuel :
  forall middleware next cell i,
    own cell -> callee_preserves next ->
    preserves (dispatch fuel middleware next cell i).
Proof.
  induction fuel as [|fuel IH]; intros middleware next cell i Hown Hnext w r w' HP;
    rewrite dispatch_eq;
    destruct (Z.leb_spec i (index cell w)) as [Hle|Hlt];
    try (intros [= <- <-]; assumption); cbv zeta;
    (destruct (is_falsy _) eqn:Hfalsy;
     [intros [= <- <-]; apply P_set_index; assumption|]);
    [discriminate|].
  set (fn := if i =? Z.of_nat (length middleware) then next else _) in *.
  assert (Hfn : callee_preserves fn).
  { subst fn. destruct (i =? _); [assumption|]. destruct (array_get _ _); exact I. }
  assert (Hstart : P (emit (Enter cell i) (set_index cell i w))).
  { apply P_emit_Enter; [assumption|]. apply P_set_index; assumption. }
  assert (Hinvoke : preserves (invoke (dispatch fuel) fn
             (dispatch fuel middleware next cell (i + 1)) cell i)).
  { apply invoke_preserves; try assumption. apply IH; assumption. }
  destruct (invoke _ _ _ _ _ _) as [[[v|e] w1]|] eqn:Hinv; [| |discriminate];
    intros [= <- <-]; apply P_emit_Exit; try assumption;
    eapply Hinvoke; eassumption.
Qed.

End Invariant.

(** *** Cursors only grow *)

Lemma grown_refl w : grown w w.
Proof. split; [lia|intros; lia]. Qed.

Lemma grown_set_index w0 cell i w :
  grown w0 w -> index cell w < i -> grown w0 (set_index cell i w).
Proof.
  intros [Hlen Hidx] Hlt. split.
  - rewrite length_cells_set_index. assumption.
  - intros cell'. destruct (decide (cell = cell')) as [<-|Hne].
    + destruct (decide (cell < length (cells w))%nat) as [Hin|Hout].
      * rewrite index_set_index_eq by assumption. specialize (Hidx cell). lia.
      * rewrite set_index_ge by lia. apply Hidx.
    + rewrite index_set_index_ne by assumption. apply Hidx.
Qed.

Lemma grown_alloc_index w0 w : grown w0 w -> grown w0 (alloc_index w).
Proof.
  intros [Hlen Hidx]. split.
  - rewrite length_cells_alloc_index. lia.
  - intros cell. rewrite index_alloc_index. apply Hidx.
Qed.

Lemma grown_trans w0 w1 w2 : grown w0 w1 -> grown w1 w2 -> grown w0 w2.
Proof.
  intros [Hlen1 Hidx1] [Hlen2 Hidx2]. split; [lia|].
  intros cell. specialize (Hidx1 cell). specialize (Hidx2 cell). lia.
Qed.

Lemma callee_grows_preserves w0 next :
  callee_grows next -> callee_preserves (grown w0) next.
Proof.
  destruct next as [| | |q]; simpl; try exact (fun _ => I).
  intros Hq w r w' Hw Hrun. eapply grown_trans; [exact Hw|]. eapply Hq, Hrun.
Qed.

Lemma grown_emit w0 e w : grown w0 w -> grown w0 (emit e w).
Proof. intros Hg. exact Hg. Qed.

Lemma grown_set_ctx w0 c w : grown w0 w -> grown w0 (set_ctx c w).
Proof. intros Hg. exact Hg. Qed.

Local Ltac grown_side :=
  intros;
  first [ exact I
        | apply grown_set_index; assumption
        | apply grown_emit; assumption
        | apply grown_set_ctx; assumption
        | split; [apply grown_alloc_index; assumption|exact I]
        | apply callee_grows_preserves; assumption ].

Lemma grown_dispatch w0 fuel middleware next cell i :
  callee_grows next -> preserves (grown w0) (dispatch fuel middleware next cell i).
Proof.
  intros Hnext.
  apply (dispatch_preserves (grown w0) (fun _ => True)); grown_side.
Qed.

Lemma grown_invoke w0 fuel fn (q : proceed Ctx) cell i :
  callee_grows fn -> preserves (grown w0) q ->
  preserves (grown w0) (invoke (dispatch fuel) fn q cell i).
Proof.
  intros Hfn Hq.
  apply (invoke_preserves (grown w0) (fun _ => True)); try assumption;
    try grown_side.
  intros mw n c j _ Hn.
  apply (dispatch_preserves (grown w0) (fun _ => True)); try assumption;
    grown_side.
Qed.

Lemma dispatch_grows fuel middleware next cell i w r w' :
  callee_grows next ->
  dispatch fuel middleware next cell i w = Some (r, w') -> grown w w'.
Proof.
  intros Hnext Hrun. eapply grown_dispatch; [exact Hnext|apply grown_refl|exact Hrun].
Qed.

(** *** The re-entrancy guard *)

Lemma dispatch_guard fuel middleware next cell i w :
  i <= index cell w ->
  dispatch fuel middleware next cell i w = Some (Returns multiple_times, w).
Proof.
  intros Hle. rewrite dispatch_eq.
  destruct (Z.leb_spec i (index cell w)); [reflexivity|lia].
Qed.

Lemma dispatch_reaches fuel middleware next cell i w r w' :
  callee_grows next ->
  (cell < length (cells w))%nat ->
  dispatch fuel middleware next cell i w = Some (r, w') ->
  i <= index cell w'.
Proof.
  intros Hnext Hcell. rewrite dispatch_eq.
  destruct (Z.leb_spec i (index cell w)) as [Hle|Hlt].
  { intros [= <- <-]. assumption. }
  cbv zeta. destruct (is_falsy _).
  { intros [= <- <-]. rewrite index_set_index_eq by assumption. lia. }
  destruct fuel as [|fuel]; [discriminate|].
  set (fn := if i =? Z.of_nat (length middleware) then next else _) in *.
  assert (Hfn : callee_grows fn).
  { subst fn. destruct (i =? _); [assumption|]. destruct (array_get _ _); exact I. }
  set (w1 := emit (Enter cell i) (set_index cell i w)).
  assert (Hinvoke : forall r w2,
             invoke (dispatch fuel) fn (dispatch fuel middleware next cell (i + 1))
               cell i w1 = Some (r, w2) -> i <= index cell w2).
  { intros r0 w2 Hrun.
    assert (Hg : grown w1 w2).
    { eapply grown_invoke; [exact Hfn| |apply grown_refl|exact Hrun].
      apply grown_dispatch, Hnext. }
    destruct Hg as [_ Hidx]. specialize (Hidx cell).
    assert (Hw1 : index cell w1 = i) by (apply index_set_index_eq; assumption).
    lia. }
  destruct (invoke _ _ _ _ _ _) as [[[v|e] w2]|] eqn:Hinv; [| |discriminate];
    intros [= <- <-]; apply (Hinvoke _ w2 eq_refl).
Qed.

Lemma index_fresh w : index (length (cells w)) (alloc_index w) = -1.
Proof.
  unfold index, alloc_index; simpl.
  rewrite lookup_app_r by lia. rewrite Nat.sub_diag. reflexivity.
Qed.


(** *** A handler that never proceeds *)

Lemma exec_never_proceeds (P : World Ctx -> Prop) cell i p (q : proceed Ctx) :
  (forall c w, P w -> P (set_ctx c w)) ->
  (forall w, P w -> P (emit (Eff cell i) w)) ->
  never_proceeds p ->
  forall sync w, P w ->
    exists r w', exec cell i sync p q w = Some (r, w') /\ P w'.
Proof.
  intros Hctx Heff Hp. induction Hp as [v|e|f k Hk IH|k Hk IH];
    intros sync w HP; simpl; eauto.
Qed.

Lemma exec_resolves_alone cell i p (q : proceed Ctx) :
  resolves_alone p ->
  forall sync w, exists v w',
    exec cell i sync p q w = Some (Returns v, w') /\
    forall e, Promise_resolve v <> JPromise Rejected e.
Proof.
  intros Hp. induction Hp as [v Hv|f k Hk IH|k Hk IH]; intros sync w; simpl; eauto.
  exists (if sync then v else Promise_resolve v), w. split; [reflexivity|].
  intros e. destruct sync; [|rewrite Promise_resolve_idem];
    destruct v; simpl; try discriminate; apply Hv.
Qed.

Section ShortCircuit.

Variables (middleware : list (handler Ctx)) (k : nat) (async : bool) (body : Prog Ctx).
Variables (cell : nat) (t0 : list event).
Hypothesis handler_k : middleware !! k = Some (Fn async body).
Hypothesis body_stops : never_proceeds body.

(** The cursor of the pipeline has not passed [k] and no function behind
    index [k] has been entered. *)
Definition stopped (w : World Ctx) : Prop :=
  (cell < length (cells w))%nat /\
  index cell w <= Z.of_nat k /\
  exists t, trace w = t0 ++ t /\ forall j, In (Enter cell j) t -> j <= Z.of_nat k.

Lemma stopped_emit e w :
  (forall j, e = Enter cell j -> j <= Z.of_nat k) ->
  stopped w -> stopped (emit e w).
Proof.
  intros He (Hcell & Hidx & t & Ht & Hin). repeat split; try assumption.
  exists (t ++ [e]). split.
  - unfold emit; simpl. rewrite Ht. symmetry. apply app_assoc.
  - intros j [Hj|[Hj|[]]]%in_app_or; [apply Hin, Hj|apply He, Hj].
Qed.

Lemma stopped_set_ctx c w : stopped w -> stopped (set_ctx c w).
Proof. intros H. exact H. Qed.

Lemma stopped_set_index_other cell' i w :
  cell' <> cell -> stopped w -> stopped (set_index cell' i w).
Proof.
  intros Hne (Hcell & Hidx & Ht). repeat split.
  - rewrite length_cells_set_index. assumption.
  - rewrite index_set_index_ne by assumption. assumption.
  - exact Ht.
Qed.

Lemma stopped_set_index_own i w :
  i <= Z.of_nat k -> stopped w -> stopped (set_index cell i w).
Proof.
  intros Hi (Hcell & Hidx & Ht). repeat split.
  - rewrite length_cells_set_index. assumption.
  - rewrite index_set_index_eq by assumption. assumption.
  - exact Ht.
Qed.

Lemma stopped_alloc_index w :
  stopped w -> stopped (alloc_index w) /\ length (cells w) <> cell.
Proof.
  intros (Hcell & Hidx & Ht). split; [|lia]. repeat split.
  - rewrite length_cells_alloc_index. lia.
  - rewrite index_alloc_index. assumption.
  - exact Ht.
Qed.

(** Pipelines nested below keep the invariant as long as the [next] they
    were given does. *)
Lemma stopped_dispatch_other fuel mw next cell' i :
  cell' <> cell -> callee_preserves stopped next ->
  preserves stopped (dispatch fuel mw next cell' i).
Proof.
  intros Hne Hnext.
  apply (dispatch_preserves stopped (fun c => c <> cell)); try assumption.
  - intros; apply stopped_set_index_other; assumption.
  - intros c j w Hc Hw. apply stopped_emit; [|assumption]. intros j' [= -> _]. congruence.
  - intros c j w Hc Hw. apply stopped_emit; [|assumption]. discriminate.
  - intros c j w Hc Hw. apply stopped_emit; [|assumption]. discriminate.
  - apply stopped_set_ctx.
  - apply stopped_alloc_index.
Qed.

(** The pipeline itself keeps it from every index up to [k]. *)
Lemma stopped_dispatch_own fuel :
  forall next i, i <= Z.of_nat k ->
    preserves stopped (dispatch fuel middleware next cell i).
Proof.
  pose proof (lookup_lt_Some _ _ _ handler_k) as Hk.
  induction fuel as [|fuel IH]; intros next i Hi w r w' HP;
    rewrite dispatch_eq;
    destruct (Z.leb_spec i (index cell w)) as [Hle|Hlt];
    try (intros [= <- <-]; assumption); cbv zeta;
    (destruct (is_falsy _) eqn:Hfalsy;
     [intros [= <- <-]; apply stopped_set_index_own; assumption|]);
    [discriminate|].
  destruct (Z.eqb_spec i (Z.of_nat (length middleware))) as [Heq|Hne]; [lia|].
  assert (Hstart : stopped (emit (Enter cell i) (set_index cell i w))).
  { apply stopped_emit; [intros j [= <-]; assumption|].
    apply stopped_set_index_own; assumption. }
  assert (Hinvoke : preserves stopped
            (invoke (dispatch fuel)
               match array_get middleware i with Some h => Func h | None => Falsy end
               (dispatch fuel middleware next cell (i + 1)) cell i)).
  { destruct (array_get middleware i) as [h|] eqn:Hget; [|discriminate].
    apply array_get_Some in Hget as [Hrange Hget].
    destruct (decide (Z.to_nat i = k)) as [Hik|Hik].
    - (* the handler that never proceeds *)
      rewrite Hik, handler_k in Hget. injection Hget as <-.
      intros w1 r1 w2 HP1 Hrun. unfold invoke in Hrun.
      destruct (exec_never_proceeds stopped cell i body
                  (dispatch fuel middleware next cell (i + 1))
                  stopped_set_ctx
                  (fun w Hw => stopped_emit (Eff cell i) w
                                 ltac:(discriminate) Hw)
                  body_stops (negb async) w1 HP1) as (r2 & w3 & Hrun' & HP3).
      rewrite Hrun in Hrun'. injection Hrun' as <- <-. assumption.
    - (* an earlier handler: its proceed callable targets an index up to [k] *)
      assert (Hnext : preserves stopped (dispatch fuel middleware next cell (i + 1))).
      { apply IH. lia. }
      destruct h as [a p|mw']; unfold invoke.
      + apply (exec_preserves stopped stopped_set_ctx); [|assumption].
        intros w1 Hw1. apply stopped_emit; [discriminate|assumption].
      + intros w1 r1 w2 HP1.
        destruct (stopped_alloc_index w1 HP1) as [HP1' Hfresh].
        apply stopped_dispatch_other; assumption. }
  destruct (invoke _ _ _ _ _ _) as [[[v|e] w1]|] eqn:Hinv; [| |discriminate];
    intros [= <- <-];
    (apply stopped_emit; [discriminate|]); eapply Hinvoke; eassumption.
Qed.

End ShortCircuit.

(** *** One step of [dispatch] *)

Lemma array_get_app_l {A} (l1 l2 : list A) i :
  i < Z.of_nat (length l1) -> array_get (l1 ++ l2) i = array_get l1 i.
Proof.
  intros Hi. unfold array_get. destruct (i <? 0) eqn:Hneg; [reflexivity|].
  apply Z.ltb_ge in Hneg. apply lookup_app_l. lia.
Qed.

Lemma array_get_app_r {A} (l1 l2 : list A) i :
  Z.of_nat (length l1) <= i ->
  array_get (l1 ++ l2) i = array_get l2 (i - Z.of_nat (length l1)).
Proof.
  intros Hi. unfold array_get.
  destruct (Z.ltb_spec i 0); [lia|].
  destruct (Z.ltb_spec (i - Z.of_nat (length l1)) 0); [lia|].
  rewrite lookup_app_r by lia. f_equal. lia.
Qed.


Lemma array_get_cons_S {A} (x : A) l i :
  0 < i -> array_get (x :: l) i = array_get l (i - 1).
Proof.
  intros Hi. unfold array_get.
  destruct (Z.ltb_spec i 0); [lia|]. destruct (Z.ltb_spec (i - 1) 0); [lia|].
  replace (Z.to_nat i) with (S (Z.to_nat (i - 1))) by lia. reflexivity.
Qed.

Lemma array_get_ge {A} (l : list A) i :
  Z.of_nat (length l) <= i -> array_get l i = None.
Proof.
  intros Hi. unfold array_get. destruct (Z.ltb_spec i 0); [reflexivity|].
  apply lookup_ge_None. lia.
Qed.

Lemma array_get_function middleware i h :
  Forall (fun h => is_function h = true) middleware ->
  array_get middleware i = Some h -> exists async body, h = Fn async body.
Proof.
  intros Hall [_ Hget]%array_get_Some.
  pose proof (Forall_lookup_1 _ _ _ _ Hall Hget) as Hfn.
  destruct h; [eauto|discriminate].
Qed.


Lemma dispatch_call fuel middleware next cell i w fn :
  index cell w < i ->
  (if i =? Z.of_nat (length middleware) then next
   else match array_get middleware i with Some h => Func h | None => Falsy end) = fn ->
  is_falsy fn = false ->
  dispatch (S fuel) middleware next cell i w =
  match invoke (dispatch fuel) fn (dispatch fuel middleware next cell (i + 1))
          cell i (emit (Enter cell i) (set_index cell i w)) with
  | None => None
  | Some (r, w') => Some (Returns (settled r), emit (Exit cell i) w')
  end.
Proof.
  intros Hidx Hfn Hfalsy. rewrite dispatch_eq.
  destruct (Z.leb_spec i (index cell w)); [lia|]. cbv zeta.
  rewrite Hfn, Hfalsy.
  destruct (invoke _ _ _ _ _ _) as [[[v|e] w1]|]; reflexivity.
Qed.

Lemma dispatch_end fuel middleware next cell i w :
  index cell w < i ->
  (if i =? Z.of_nat (length middleware) then next
   else match array_get middleware i with Some h => Func h | None => Falsy end) = Falsy ->
  dispatch fuel middleware next cell i w =
  Some (Returns (Promise_resolve JUndefined), set_index cell i w).
Proof.
  intros Hidx Hfn. rewrite dispatch_eq.
  destruct (Z.leb_spec i (index cell w)); [lia|]. cbv zeta.
  rewrite Hfn. reflexivity.
Qed.

Lemma dispatch_falsy fuel middleware next cell i w fn :
  index cell w < i ->
  (if i =? Z.of_nat (length middleware) then next
   else match array_get middleware i with Some h => Func h | None => Falsy end) = fn ->
  is_falsy fn = true ->
  dispatch fuel middleware next cell i w =
  Some (Returns (Promise_resolve JUndefined), set_index cell i w).
Proof.
  intros Hidx Hfn Hfalsy. rewrite dispatch_eq.
  destruct (Z.leb_spec i (index cell w)); [lia|]. cbv zeta.
  rewrite Hfn, Hfalsy. reflexivity.
Qed.

(** *** The onion *)

Lemma calls_app cell t1 t2 : calls cell (t1 ++ t2) = calls cell t1 ++ calls cell t2.
Proof.
  induction t1 as [|e t1 IH]; simpl; [reflexivity|].
  destruct e as [c i|c i|c i| |e]; try assumption.
  destruct (Nat.eqb c cell); simpl; congruence.
Qed.

Lemma calls_repeat_Eff cell c i n : calls cell (repeat (Eff c i) n) = [].
Proof. induction n; simpl; [reflexivity|assumption]. Qed.

Lemma Onion_calls cell n i t :
  Onion cell n i t -> i <= n /\ calls cell t = seqZ i (n - i).
Proof.
  induction 1 as [|i before inner after Hi Hinner [Hle IH]].
  - split; [lia|]. rewrite Z.sub_diag. reflexivity.
  - split; [lia|]. simpl. rewrite Nat.eqb_refl.
    rewrite !calls_app, !calls_repeat_Eff, IH. simpl. rewrite app_nil_r.
    rewrite (seqZ_cons i (n - i)) by lia. f_equal. f_equal; lia.
Qed.

Lemma world_eta w : mkWorld (cells w) (trace w) (ctx w) = w.
Proof. destruct w; reflexivity. Qed.

Lemma exec_after_proceed cell i p q :
  never_proceeds p ->
  forall w,
    exists r n c',
      after_proceed p (ctx w) = Some (r, n, c') /\
      exec cell i false p q w =
      Some (Returns (settled r),
            mkWorld (cells w) (trace w ++ repeat (Eff cell i) n) c').
Proof.
  induction 1 as [v|e|f k _ IH|k _ IH]; intros w; simpl.
  - exists (Returns v), O, (ctx w). simpl. rewrite app_nil_r, world_eta. eauto.
  - exists (Throws e), O, (ctx w). simpl. rewrite app_nil_r, world_eta. eauto.
  - destruct (IH (emit (Eff cell i) (set_ctx (f (ctx w)) w)))
      as (r & n & c' & Hafter & Hrun).
    simpl in Hafter. rewrite Hafter. exists r, (S n), c'. split; [reflexivity|].
    rewrite Hrun. simpl. rewrite <- app_assoc. reflexivity.
  - apply IH.
Qed.

Lemma exec_before_proceed cell i p q :
  awaits_once p ->
  forall sync w,
    exists c1 n1 k,
      before_proceed p (ctx w) = (c1, n1, Some k) /\
      (forall r, never_proceeds (k r)) /\
      exec cell i sync p q w =
      match q (mkWorld (cells w) (trace w ++ repeat (Eff cell i) n1) c1) with
      | None => None
      | Some (Returns v, w') => exec cell i false (k (await v)) q w'
      | Some (Throws e, w') => exec cell i sync (k (Throws e)) q w'
      end.
Proof.
  induction 1 as [f k _ IH|k _ IH|k Hk]; intros sync w; simpl.
  - destruct (IH sync (emit (Eff cell i) (set_ctx (f (ctx w)) w)))
      as (c1 & n1 & k' & Hbefore & Hk' & Hrun).
    simpl in Hbefore. rewrite Hbefore. exists c1, (S n1), k'.
    split; [reflexivity|]. split; [exact Hk'|].
    rewrite Hrun. simpl. rewrite <- app_assoc. reflexivity.
  - apply IH.
  - exists (ctx w), O, k. split; [reflexivity|]. split; [exact Hk|].
    simpl. rewrite app_nil_r, world_eta. reflexivity.
Qed.

Lemma settled_promise r : exists st v, settled r = JPromise st v.
Proof.
  destruct r as [v|e]; simpl; [|eauto].
  apply is_promise_inv, Promise_resolve_promise.
Qed.

Lemma dispatch_onion_run middleware cell :
  Forall awaits_once_fn middleware ->
  forall rest pre,
    middleware = pre ++ rest ->
    forall fuel w,
      (length rest <= fuel)%nat ->
      (cell < length (cells w))%nat ->
      index cell w < Z.of_nat (length pre) ->
      exists st v c' t,
        onion_run cell (Z.of_nat (length pre)) rest (ctx w) =
          Some (JPromise st v, c', t) /\
        dispatch fuel middleware Falsy cell (Z.of_nat (length pre)) w =
          Some (Returns (JPromise st v),
                mkWorld (<[cell := Z.of_nat (length middleware)]> (cells w))
                  (trace w ++ t) c').
Proof.
  intros Hall. induction rest as [|h rest IH]; intros pre Hmw fuel w Hfuel Hcell Hidx.
  - rewrite app_nil_r in Hmw. subst pre.
    exists Fulfilled, JUndefined, (ctx w), []. split; [reflexivity|].
    rewrite (dispatch_end fuel middleware Falsy cell _ w Hidx).
    + rewrite app_nil_r. reflexivity.
    + rewrite Z.eqb_refl. reflexivity.
  - assert (Hget : middleware !! length pre = Some h).
    { rewrite Hmw. apply list_lookup_middle. reflexivity. }
    assert (Hh : awaits_once_fn h) by (eapply Forall_lookup_1; eassumption).
    destruct h as [async body|]; [|contradiction]. simpl in Hh.
    assert (Hlen : (length pre < length middleware)%nat).
    { apply lookup_lt_Some in Hget. exact Hget. }
    assert (Hfn : (if Z.of_nat (length pre) =? Z.of_nat (length middleware) then Falsy
                   else match array_get middleware (Z.of_nat (length pre)) with
                        | Some h => Func h | None => Falsy end)
                  = Func (Fn async body)).
    { destruct (Z.eqb_spec (Z.of_nat (length pre)) (Z.of_nat (length middleware)));
        [lia|].
      unfold array_get. destruct (Z.ltb_spec (Z.of_nat (length pre)) 0); [lia|].
      rewrite Nat2Z.id, Hget. reflexivity. }
    destruct fuel as [|fuel]; [simpl in Hfuel; lia|].
    rewrite (dispatch_call fuel _ _ _ _ _ _ Hidx Hfn eq_refl). unfold invoke.
    set (i := Z.of_nat (length pre)) in *.
    set (w0 := emit (Enter cell i) (set_index cell i w)).
    destruct (exec_before_proceed cell i body
                (dispatch fuel middleware Falsy cell (i + 1)) Hh (negb async) w0)
      as (c1 & n1 & k & Hbefore & Hk & ->).
    set (w1 := mkWorld (cells w0) (trace w0 ++ repeat (Eff cell i) n1) c1).
    assert (Hi1 : i + 1 = Z.of_nat (length (pre ++ [Fn async body]))).
    { rewrite length_app. simpl. lia. }
    assert (Hmw' : middleware = (pre ++ [Fn async body]) ++ rest).
    { rewrite <- app_assoc. exact Hmw. }
    destruct (IH (pre ++ [Fn async body]) Hmw' fuel w1)
      as (st & v & c2 & inner & Hinner & Hrun).
    { simpl in Hfuel. lia. }
    { subst w1 w0. simpl. rewrite length_insert. exact Hcell. }
    { rewrite <- Hi1.
      replace (index cell w1) with (index cell (set_index cell i w)) by reflexivity.
      rewrite index_set_index_eq by exact Hcell. lia. }
    rewrite <- Hi1 in Hinner, Hrun. rewrite Hrun.
    set (w2 := mkWorld _ (trace w1 ++ inner) c2).
    destruct (exec_after_proceed cell i (k (await (JPromise st v)))
                (dispatch fuel middleware Falsy cell (i + 1)) (Hk _) w2)
      as (r & n2 & c3 & Hafter & ->).
    destruct (settled_promise r) as (st' & v' & Hp).
    exists st', v', c3,
      (Enter cell i :: repeat (Eff cell i) n1 ++ inner
         ++ repeat (Eff cell i) n2 ++ [Exit cell i]).
    split.
    + simpl. change (ctx w) with (ctx w0) at 1.
      replace (ctx w) with (ctx w0) by reflexivity.
      rewrite Hbefore. change (ctx w1) with c1 in Hinner. rewrite Hinner.
      change (ctx w2) with c2 in Hafter. rewrite Hafter, Hp. reflexivity.
    + rewrite Hp. unfold emit, set_index; simpl.
      rewrite list_insert_insert_eq, <- !app_assoc. reflexivity.
Qed.

Lemma onion_run_Onion cell (rest : list (handler Ctx)) :
  forall i c pr c' t,
    onion_run cell i rest c = Some (pr, c', t) ->
    Onion cell (i + Z.of_nat (length rest)) i t.
Proof.
  induction rest as [|h rest IH]; intros i c pr c' t; simpl.
  - intros [= <- <- <-]. rewrite Z.add_0_r. constructor.
  - destruct h as [async body|]; [|discriminate].
    destruct (before_proceed body c) as [[c1 n1] [k|]]; [|discriminate].
    destruct (onion_run cell (i + 1) rest c1) as [[[p1 c2] inner]|] eqn:Hinner;
      [|discriminate].
    destruct (after_proceed (k (await p1)) c2) as [[[r n2] c3]|]; [|discriminate].
    intros [= <- <- <-].
    apply IH in Hinner.
    replace (i + Z.of_nat (S (length rest)))
      with (i + 1 + Z.of_nat (length rest)) by lia.
    constructor; [lia|exact Hinner].
Qed.

Lemma compose_is_onion_run (middleware : list (handler Ctx)) w :
  Forall awaits_once_fn middleware ->
  exists st v c' t,
    onion_run (length (cells w)) 0 middleware (ctx w) = Some (JPromise st v, c', t) /\
    compose middleware Falsy w =
      Some (Returns (JPromise st v),
            mkWorld (cells w ++ [Z.of_nat (length middleware)]) (trace w ++ t) c').
Proof.
  intros Hall. unfold compose.
  destruct (dispatch_onion_run middleware (length (cells w)) Hall middleware []
              eq_refl (fuel_of middleware Falsy) (alloc_index w))
    as (st & v & c' & t & Hspec & Hrun).
  - unfold fuel_of. lia.
  - rewrite length_cells_alloc_index. lia.
  - rewrite index_fresh. simpl. lia.
  - exists st, v, c', t. split; [exact Hspec|].
    change (Z.of_nat (length (@nil (handler Ctx)))) with 0 in Hrun.
    rewrite Hrun. do 3 f_equal.
    unfold alloc_index; simpl.
    rewrite insert_app_r_alt by lia. rewrite Nat.sub_diag. reflexivity.
Qed.

(** C1.  When every handler is a function that awaits its proceed callable
    exactly once, an invocation of the composed pipeline (without a [next]
    argument) is the onion of the specification: it returns the promise,
    leaves the context and produces the events, in their order, that
    [onion_run] gives, in which each handler runs to its proceed call,
    then the handlers behind it run from their entry to their exit, and
    only then the handler runs on.  So [dispatch] called the functions at
    the indexes 0, 1, ..., n - 1, each once and in this order, and the
    cursor ends at n. *)
Theorem compose_runs_the_handlers_as_an_onion middleware w :
  Forall awaits_once_fn middleware ->
  exists st v c' t,
    onion_run (length (cells w)) 0 middleware (ctx w) = Some (JPromise st v, c', t) /\
    compose middleware Falsy w =
      Some (Returns (JPromise st v),
            mkWorld (cells w ++ [Z.of_nat (length middleware)]) (trace w ++ t) c') /\
    Onion (length (cells w)) (Z.of_nat (length middleware)) 0 t /\
    calls (length (cells w)) t = seqZ 0 (Z.of_nat (length middleware)).
Proof.
  intros Hall.
  destruct (compose_is_onion_run middleware w Hall) as (st & v & c' & t & Hspec & Hrun).
  exists st, v, c', t. split; [exact Hspec|]. split; [exact Hrun|].
  pose proof (onion_run_Onion _ _ _ _ _ _ _ Hspec) as Honion. simpl in Honion.
  split; [exact Honion|].
  apply Onion_calls in Honion as [_ ->]. f_equal. lia.
Qed.

(** *** A pipeline as a unit of another *)

(** Two runs of one body, whose stores are related and whose proceed
    callables keep them related, complete alike. *)
Lemma exec_sim (R : World Ctx -> World Ctx -> Prop) cn jn cf jf p
    (qn qf : proceed Ctx) :
  (forall wn wf, R wn wf -> ctx wn = ctx wf) ->
  (forall wn wf x, R wn wf ->
     R (emit (Eff cn jn) (set_ctx x wn)) (emit (Eff cf jf) (set_ctx x wf))) ->
  (forall wn wf, R wn wf ->
     exists r wn' wf', qn wn = Some (r, wn') /\ qf wf = Some (r, wf') /\ R wn' wf') ->
  forall sync wn wf, R wn wf ->
    exists r wn' wf',
      exec cn jn sync p qn wn = Some (r, wn') /\
      exec cf jf sync p qf wf = Some (r, wf') /\
      R wn' wf'.
Proof.
  intros Hctx Hact Hq.
  induction p as [v|e|f k IH|k IH|k IH]; intros sync wn wf HR; simpl.
  - eauto 7.
  - eauto 7.
  - rewrite (Hctx _ _ HR). apply IH, Hact, HR.
  - rewrite (Hctx _ _ HR). apply IH, HR.
  - destruct (Hq _ _ HR) as ([v|e] & wn' & wf' & -> & -> & HR'); apply IH, HR'.
Qed.

Section Flatten.

Variables (A1 B A2 : list (handler Ctx)) (next : callee Ctx).
Hypothesis A1_functions : Forall (fun h => is_function h = true) A1.
Hypothesis B_functions : Forall (fun h => is_function h = true) B.
Hypothesis A2_functions : Forall (fun h => is_function h = true) A2.
Hypothesis next_plain : plain_next next = true.

(** The cells before the cursor of the pipeline, and the trace so far. *)
Variables (pre : list Z) (t0 : list event).

Local Abbreviation c := (length pre).
Local Abbreviation a := (Z.of_nat (length A1)).
Local Abbreviation b := (Z.of_nat (length B)).
Local Abbreviation n2 := (Z.of_nat (length A2)).

(** The cursors of the nested run, outer then inner, when the cursor of the
    flat run is [z]. *)
Definition nested_cells (z : Z) : list Z :=
  if z <? a then [z]
  else if z <? a + b then [a; z - a]
  else [z - b + 1; b].

(** Same context, and the trace of the nested run reads as that of the
    flat run. *)
Definition related (wn wf : World Ctx) : Prop :=
  ctx wn = ctx wf /\
  exists tn tf,
    trace wn = t0 ++ tn /\ trace wf = t0 ++ tf /\ flatten_trace c a b tn = tf.

Definition aligned (wn wf : World Ctx) : Prop :=
  related wn wf /\
  exists z, cells wf = pre ++ [z] /\ cells wn = pre ++ nested_cells z.

Lemma related_emit en ef wn wf :
  flatten_event c a b en = Some ef ->
  related wn wf -> related (emit en wn) (emit ef wf).
Proof.
  intros He (Hctx & tn & tf & Hn & Hf & Hfl). split; [exact Hctx|].
  exists (tn ++ [en]), (tf ++ [ef]). unfold emit; simpl.
  rewrite Hn, Hf, <- !app_assoc. repeat split.
  unfold flatten_trace in *. rewrite omap_app, Hfl. simpl. rewrite He. reflexivity.
Qed.

Lemma related_drop en wn wf :
  flatten_event c a b en = None ->
  related wn wf -> related (emit en wn) wf.
Proof.
  intros He (Hctx & tn & tf & Hn & Hf & Hfl). split; [exact Hctx|].
  exists (tn ++ [en]), tf. unfold emit; simpl.
  rewrite Hn, <- !app_assoc. repeat split; [assumption|].
  unfold flatten_trace in *. rewrite omap_app, Hfl. simpl. rewrite He.
  apply app_nil_r.
Qed.

Lemma related_set_ctx x wn wf :
  related wn wf -> related (set_ctx x wn) (set_ctx x wf).
Proof. intros (_ & Ht). split; [reflexivity|exact Ht]. Qed.


Lemma index_outer w x rest : cells w = pre ++ x :: rest -> index c w = x.
Proof. unfold index. intros ->. rewrite list_lookup_middle; reflexivity. Qed.

Lemma index_inner w x y : cells w = pre ++ [x; y] -> index (S c) w = y.
Proof.
  unfold index. intros ->. rewrite lookup_app_r by lia.
  replace (S c - c)%nat with 1%nat by lia. reflexivity.
Qed.

Lemma cells_set_outer w x rest i :
  cells w = pre ++ x :: rest -> cells (set_index c i w) = pre ++ i :: rest.
Proof.
  unfold set_index; simpl. intros ->. rewrite insert_app_r_alt by lia.
  rewrite Nat.sub_diag. reflexivity.
Qed.

Lemma cells_set_inner w x y j :
  cells w = pre ++ [x; y] -> cells (set_index (S c) j w) = pre ++ [x; j].
Proof.
  unfold set_index; simpl. intros ->. rewrite insert_app_r_alt by lia.
  replace (S c - c)%nat with 1%nat by lia. reflexivity.
Qed.

Lemma cells_alloc w x :
  cells w = pre ++ [x] ->
  cells (alloc_index w) = pre ++ [x; -1] /\ length (cells w) = S c.
Proof.
  unfold alloc_index; simpl. intros ->. rewrite <- app_assoc, length_app.
  simpl. split; [reflexivity|lia].
Qed.

(** The proceed callables of the two runs that stand for the flat index
    [i]: in the nested run, [dispatch] of the outer pipeline up to the unit
    and behind it, and of the inner pipeline inside it. *)
Definition outer (fo : nat) (i : Z) : proceed Ctx :=
  dispatch fo (nested A1 B A2) next c i.

Definition inner (fo fi : nat) (j : Z) : proceed Ctx :=
  dispatch fi B (Bound (outer fo (a + 1))) (S c) j.

Definition nested_proceed (fo fi : nat) (i : Z) : proceed Ctx :=
  if i <=? a then outer fo i
  else if i <=? a + b then inner fo fi (i - a)
  else outer fo (i - b + 1).

Definition flat_proceed (ff : nat) (i : Z) : proceed Ctx :=
  dispatch ff (flat A1 B A2) next c i.

Definition enough (fo fi ff : nat) (i : Z) : Prop :=
  a + b + n2 + 1 - i <= Z.of_nat ff /\
  if i <=? a then a - i + b + n2 + 2 <= Z.of_nat fo
  else if i <=? a + b then
    a + b + 1 - i <= Z.of_nat fi /\ n2 + 1 <= Z.of_nat fo
  else a + b + n2 + 1 - i <= Z.of_nat fo.

(** The two callables for [i] complete alike from aligned stores in which
    the handler before [i] has been reached. *)
Definition alike (qn qf : proceed Ctx) (i : Z) : Prop :=
  forall wn wf,
    aligned wn wf -> i - 1 <= index c wf ->
    exists r wn' wf',
      qn wn = Some (r, wn') /\ qf wf = Some (r, wf') /\
      aligned wn' wf' /\ i - 1 <= index c wf'.

Definition sim (i : Z) : Prop :=
  forall fo fi ff, enough fo fi ff i ->
    alike (nested_proceed fo fi i) (flat_proceed ff i) i.

Lemma length_nested : Z.of_nat (length (nested A1 B A2)) = a + 1 + n2.
Proof. unfold nested. rewrite length_app. simpl. lia. Qed.

Lemma length_flat : Z.of_nat (length (flat A1 B A2)) = a + b + n2.
Proof. unfold flat. rewrite !length_app. lia. Qed.



(** When the guard fires in one run it fires in the other. *)
Lemma guard_alike fo fi ff i wn wf :
  aligned wn wf -> i - 1 <= index c wf -> i <= index c wf ->
  nested_proceed fo fi i wn = Some (Returns multiple_times, wn) /\
  flat_proceed ff i wf = Some (Returns multiple_times, wf).
Proof.
  intros (_ & z & Hf & Hn) Hpre Hle.
  rewrite (index_outer _ _ _ Hf) in *.
  split; [|apply dispatch_guard; rewrite (index_outer _ _ _ Hf); assumption].
  unfold nested_proceed, nested_cells in *.
  destruct (Z.leb_spec i a) as [Hia|Hia].
  - apply dispatch_guard.
    destruct (Z.ltb_spec z a); [|destruct (Z.ltb_spec z (a + b))];
      rewrite (index_outer _ _ _ Hn); lia.
  - destruct (Z.leb_spec i (a + b)) as [Hib|Hib]; apply dispatch_guard.
    + destruct (Z.ltb_spec z a); [lia|]. destruct (Z.ltb_spec z (a + b));
        rewrite (index_inner _ _ _ Hn); lia.
    + destruct (Z.ltb_spec z a); [lia|]. destruct (Z.ltb_spec z (a + b)); [lia|].
      rewrite (index_outer _ _ _ Hn). lia.
Qed.

(** One function, called in both runs under matching labels. *)
Lemma call_alike i cn jn async body (qn qf : proceed Ctx) wn wf :
  renumber c a b cn jn = Some (c, i) ->
  alike qn qf (i + 1) ->
  aligned wn wf -> index c wf = i ->
  exists r wn' wf',
    exec cn jn (negb async) body qn wn = Some (r, wn') /\
    exec c i (negb async) body qf wf = Some (r, wf') /\
    aligned (emit (Exit cn jn) wn') (emit (Exit c i) wf') /\
    i <= index c wf'.
Proof.
  intros Hlabel Hq Hal Hidx.
  destruct (exec_sim (fun wn wf => aligned wn wf /\ i <= index c wf)
              cn jn c i body qn qf) with (sync := negb async) (wn := wn) (wf := wf)
    as (r & wn' & wf' & Hn & Hf & Hal' & Hi').
  - intros ? ? [[[Hctx _] _] _]. exact Hctx.
  - intros wn1 wf1 x [[Hrel Hcells] Hi]. split; [split|exact Hi].
    + apply related_emit; [simpl; rewrite Hlabel; reflexivity|].
      apply related_set_ctx, Hrel.
    + exact Hcells.
  - intros wn1 wf1 [Hal1 Hi1].
    destruct (Hq wn1 wf1 Hal1) as (r & wn' & wf' & Hn & Hf & Hal' & Hi'); [lia|].
    exists r, wn', wf'. split; [assumption|]. split; [assumption|].
    split; [assumption|lia].
  - split; [assumption|lia].
  - exists r, wn', wf'. split; [assumption|]. split; [assumption|].
    split; [|assumption]. split; [|apply Hal'].
    apply related_emit; [simpl; rewrite Hlabel; reflexivity|]. apply Hal'.
Qed.

Lemma array_get_nested_tail i :
  a < i -> array_get (nested A1 B A2) i = array_get A2 (i - a - 1).
Proof.
  intros Hi. unfold nested. rewrite array_get_app_r by lia.
  rewrite array_get_cons_S by lia. reflexivity.
Qed.

Lemma array_get_flat_tail i :
  a + b <= i -> array_get (flat A1 B A2) i = array_get A2 (i - a - b).
Proof.
  intros Hi. unfold flat. rewrite array_get_app_r by lia.
  rewrite array_get_app_r by lia. reflexivity.
Qed.

Lemma array_get_in_range {A} (l : list A) i :
  0 <= i < Z.of_nat (length l) -> exists x, array_get l i = Some x.
Proof.
  intros Hi. unfold array_get. destruct (Z.ltb_spec i 0); [lia|].
  apply lookup_lt_is_Some. lia.
Qed.

Lemma renumber_outer_tail i : a < i -> renumber c a b c i = Some (c, i + b - 1).
Proof.
  intros Hi. unfold renumber. rewrite Nat.eqb_refl.
  destruct (Z.ltb_spec i a); [lia|]. destruct (Z.eqb_spec i a); [lia|]. reflexivity.
Qed.

Lemma renumber_outer_head i : i < a -> renumber c a b c i = Some (c, i).
Proof.
  intros Hi. unfold renumber. rewrite Nat.eqb_refl.
  destruct (Z.ltb_spec i a); [reflexivity|lia].
Qed.

Lemma renumber_unit : renumber c a b c a = None.
Proof.
  unfold renumber. rewrite Nat.eqb_refl, Z.ltb_irrefl, Z.eqb_refl. reflexivity.
Qed.

Lemma renumber_inner j : j < b -> renumber c a b (S c) j = Some (c, a + j).
Proof.
  intros Hj. unfold renumber.
  destruct (Nat.eqb_spec (S c) c); [lia|]. rewrite Nat.eqb_refl.
  destruct (Z.ltb_spec j b); [reflexivity|lia].
Qed.

Lemma renumber_inner_next : renumber c a b (S c) b = None.
Proof.
  unfold renumber.
  destruct (Nat.eqb_spec (S c) c); [lia|]. rewrite Nat.eqb_refl, Z.ltb_irrefl.
  reflexivity.
Qed.

(** The outer pipeline behind the unit, and the end of the pipeline. *)
Lemma tail_alike i fo ff wn wf :
  sim (i + 1) ->
  a + b <= i <= a + b + n2 ->
  a + b + n2 + 1 - i <= Z.of_nat fo ->
  a + b + n2 + 1 - i <= Z.of_nat ff ->
  related wn wf ->
  cells wn = pre ++ [i - b; b] ->
  cells wf = pre ++ [i - 1] ->
  exists r wn' wf',
    outer fo (i - b + 1) wn = Some (r, wn') /\
    flat_proceed ff i wf = Some (r, wf') /\
    aligned wn' wf' /\ i - 1 <= index c wf'.
Proof.
  intros Hsim Hi Hfo Hff Hrel Hn Hf.
  unfold outer, flat_proceed.
  pose proof (index_outer _ _ _ Hn) as Hxn.
  pose proof (index_outer _ _ _ Hf) as Hxf.
  pose proof length_nested as HlenN. pose proof length_flat as HlenF.
  assert (Hlt_n : index c wn < i - b + 1) by lia.
  assert (Hlt_f : index c wf < i) by lia.
  set (wn1 := set_index c (i - b + 1) wn).
  set (wf1 := set_index c i wf).
  assert (Hal1 : aligned wn1 wf1).
  { split; [exact Hrel|]. exists i. split; [apply (cells_set_outer _ _ _ _ Hf)|].
    unfold nested_cells. destruct (Z.ltb_spec i a); [lia|].
    destruct (Z.ltb_spec i (a + b)); [lia|]. apply (cells_set_outer _ _ _ _ Hn). }
  assert (Hidx1 : index c wf1 = i).
  { apply (index_outer wf1 i []), (cells_set_outer _ _ _ _ Hf). }
  assert (Hlabel : renumber c a b c (i - b + 1) = Some (c, i)).
  { rewrite renumber_outer_tail by lia. do 2 f_equal. lia. }
  assert (Henter : aligned (emit (Enter c (i - b + 1)) wn1) (emit (Enter c i) wf1)).
  { split; [|apply Hal1]. apply related_emit; [|apply Hal1].
    simpl. rewrite Hlabel. reflexivity. }
  assert (Hnext1 : forall fo' ff',
             a + b + n2 + 1 - (i + 1) <= Z.of_nat fo' ->
             a + b + n2 + 1 - (i + 1) <= Z.of_nat ff' ->
             alike (dispatch fo' (nested A1 B A2) next c (i - b + 1 + 1))
               (dispatch ff' (flat A1 B A2) next c (i + 1)) (i + 1)).
  { intros fo' ff' Hfo' Hff'.
    specialize (Hsim fo' O ff'). unfold nested_proceed, flat_proceed, outer in Hsim.
    destruct (Z.leb_spec (i + 1) a); [lia|].
    destruct (Z.leb_spec (i + 1) (a + b)); [lia|].
    replace (i + 1 - b + 1) with (i - b + 1 + 1) in Hsim by lia.
    apply Hsim. unfold enough.
    destruct (Z.leb_spec (i + 1) a); [lia|].
    destruct (Z.leb_spec (i + 1) (a + b)); [lia|]. lia. }
  destruct (Z.eq_dec i (a + b + n2)) as [Hend|Hmid].
  - (* the end of both pipelines: [fn] is [next] *)
    assert (Hfn_n : (if i - b + 1 =? Z.of_nat (length (nested A1 B A2)) then next
               else match array_get (nested A1 B A2) (i - b + 1) with
                    | Some h => Func h | None => Falsy end) = next).
    { destruct (Z.eqb_spec (i - b + 1) (Z.of_nat (length (nested A1 B A2))));
        [reflexivity|lia]. }
    assert (Hfn_f : (if i =? Z.of_nat (length (flat A1 B A2)) then next
               else match array_get (flat A1 B A2) i with
                    | Some h => Func h | None => Falsy end) = next).
    { destruct (Z.eqb_spec i (Z.of_nat (length (flat A1 B A2))));
        [reflexivity|lia]. }
    destruct next as [|v|[async body|]|] eqn:Hnext; try discriminate.
    + rewrite !dispatch_end by (assumption || lia).
      eexists _, _, _. split; [reflexivity|]. split; [reflexivity|].
      split; [exact Hal1|]. fold wf1. lia.
    + destruct (truthy v) eqn:Hv.
      * assert (Hcall : is_falsy (NotCallable v : callee Ctx) = false)
          by (simpl; rewrite Hv; reflexivity).
        destruct fo as [|fo']; [lia|]. destruct ff as [|ff']; [lia|].
        rewrite (dispatch_call fo' _ _ _ _ _ _ Hlt_n Hfn_n Hcall).
        rewrite (dispatch_call ff' _ _ _ _ _ _ Hlt_f Hfn_f Hcall).
        simpl. eexists _, _, _. split; [reflexivity|]. split; [reflexivity|].
        split.
        -- split; [|apply Hal1]. apply related_emit; [|apply Henter].
           simpl. rewrite Hlabel. reflexivity.
        -- fold wf1. change (index c (emit _ (emit _ wf1))) with (index c wf1). lia.
      * assert (Hnone : is_falsy (NotCallable v : callee Ctx) = true)
          by (simpl; rewrite Hv; reflexivity).
        rewrite (dispatch_falsy fo _ _ _ _ _ _ Hlt_n Hfn_n Hnone).
        rewrite (dispatch_falsy ff _ _ _ _ _ _ Hlt_f Hfn_f Hnone).
        eexists _, _, _. split; [reflexivity|]. split; [reflexivity|].
        split; [exact Hal1|]. fold wf1. lia.
    + destruct fo as [|fo']; [lia|]. destruct ff as [|ff']; [lia|].
      rewrite (dispatch_call fo' _ _ _ _ _ _ Hlt_n Hfn_n eq_refl).
      rewrite (dispatch_call ff' _ _ _ _ _ _ Hlt_f Hfn_f eq_refl).
      assert (Hfo1 : a + b + n2 + 1 - (i + 1) <= Z.of_nat fo') by lia.
      assert (Hff1 : a + b + n2 + 1 - (i + 1) <= Z.of_nat ff') by lia.
      unfold invoke. fold wn1 wf1.
      destruct (call_alike i c (i - b + 1) async body _ _ _ _ Hlabel
                  (Hnext1 fo' ff' Hfo1 Hff1) Henter Hidx1)
        as (r & wn' & wf' & -> & -> & Hal' & Hi').
      eexists _, _, _. split; [reflexivity|]. split; [reflexivity|].
      split; [exact Hal'|]. change (index c (emit _ wf')) with (index c wf'). lia.
  - (* a handler of [A2] *)
    assert (Hrange : 0 <= i - a - b < n2) by lia.
    destruct (array_get_in_range A2 (i - a - b) Hrange) as [h Hh].
    destruct (array_get_function _ _ _ A2_functions Hh) as (async & body & ->).
    assert (Hfn_n : (if i - b + 1 =? Z.of_nat (length (nested A1 B A2)) then next
               else match array_get (nested A1 B A2) (i - b + 1) with
                    | Some h => Func h | None => Falsy end) = Func (Fn async body)).
    { destruct (Z.eqb_spec (i - b + 1) (Z.of_nat (length (nested A1 B A2)))); [lia|].
      rewrite array_get_nested_tail by lia.
      replace (i - b + 1 - a - 1) with (i - a - b) by lia. rewrite Hh. reflexivity. }
    assert (Hfn_f : (if i =? Z.of_nat (length (flat A1 B A2)) then next
               else match array_get (flat A1 B A2) i with
                    | Some h => Func h | None => Falsy end) = Func (Fn async body)).
    { destruct (Z.eqb_spec i (Z.of_nat (length (flat A1 B A2)))); [lia|].
      rewrite array_get_flat_tail by lia. rewrite Hh. reflexivity. }
    destruct fo as [|fo']; [lia|]. destruct ff as [|ff']; [lia|].
    rewrite (dispatch_call fo' _ _ _ _ _ _ Hlt_n Hfn_n eq_refl).
    rewrite (dispatch_call ff' _ _ _ _ _ _ Hlt_f Hfn_f eq_refl).
    assert (Hfo1 : a + b + n2 + 1 - (i + 1) <= Z.of_nat fo') by lia.
    assert (Hff1 : a + b + n2 + 1 - (i + 1) <= Z.of_nat ff') by lia.
    unfold invoke. fold wn1 wf1.
    destruct (call_alike i c (i - b + 1) async body _ _ _ _ Hlabel
                (Hnext1 fo' ff' ltac:(lia) ltac:(lia)) Henter Hidx1)
      as (r & wn' & wf' & -> & -> & Hal' & Hi').
    eexists _, _, _. split; [reflexivity|]. split; [reflexivity|].
    split; [exact Hal'|]. change (index c (emit _ wf')) with (index c wf'). lia.
Qed.

Lemma dispatch_result_settled fuel middleware nxt cell i w r w' :
  dispatch fuel middleware nxt cell i w = Some (r, w') -> Returns (settled r) = r.
Proof.
  intros (v & -> & Hv)%dispatch_returns_promise.
  destruct v; try discriminate. reflexivity.
Qed.

Lemma sim_base : sim (a + b + n2 + 1).
Proof.
  intros fo fi ff _ wn wf Hal Hpre.
  destruct (Z.le_gt_cases (a + b + n2 + 1) (index c wf)) as [Hle|Hgt].
  { destruct (guard_alike fo fi ff _ _ _ Hal Hpre Hle) as [-> ->]. eauto 8. }
  destruct Hal as (Hrel & z & Hf & Hn).
  pose proof (index_outer _ _ _ Hf) as Hz.
  assert (z = a + b + n2) as -> by lia.
  unfold nested_cells in Hn.
  destruct (Z.ltb_spec (a + b + n2) a); [lia|].
  destruct (Z.ltb_spec (a + b + n2) (a + b)); [lia|].
  pose proof (index_outer _ _ _ Hn) as Hx.
  pose proof length_nested as HlenN. pose proof length_flat as HlenF.
  unfold nested_proceed, flat_proceed, outer.
  destruct (Z.leb_spec (a + b + n2 + 1) a); [lia|].
  destruct (Z.leb_spec (a + b + n2 + 1) (a + b)); [lia|].
  rewrite !dispatch_end; try lia.
  - eexists _, _, _. split; [reflexivity|]. split; [reflexivity|]. split.
    + split; [exact Hrel|]. exists (a + b + n2 + 1).
      split; [apply (cells_set_outer _ _ _ _ Hf)|].
      unfold nested_cells.
      destruct (Z.ltb_spec (a + b + n2 + 1) a); [lia|].
      destruct (Z.ltb_spec (a + b + n2 + 1) (a + b)); [lia|].
      apply (cells_set_outer _ _ _ _ Hn).
    + rewrite (index_outer _ (a + b + n2 + 1) []); [lia|].
      apply (cells_set_outer _ _ _ _ Hf).
  - destruct (Z.eqb_spec (a + b + n2 + 1) (Z.of_nat (length (flat A1 B A2)))); [lia|].
    rewrite array_get_ge by lia. reflexivity.
  - destruct (Z.eqb_spec (a + b + n2 + 1 - b + 1)
                (Z.of_nat (length (nested A1 B A2)))); [lia|].
    rewrite array_get_ge by lia. reflexivity.
Qed.

(** A handler of [A1]. *)
Lemma head_alike i fo fi ff wn wf :
  sim (i + 1) -> 0 <= i < a -> enough fo fi ff i ->
  related wn wf ->
  cells wn = pre ++ [i - 1] -> cells wf = pre ++ [i - 1] ->
  exists r wn' wf',
    outer fo i wn = Some (r, wn') /\ flat_proceed ff i wf = Some (r, wf') /\
    aligned wn' wf' /\ i - 1 <= index c wf'.
Proof.
  intros Hsim Hi Hfuel Hrel Hn Hf.
  unfold enough in Hfuel. destruct (Z.leb_spec i a); [|lia].
  destruct Hfuel as [Hff Hfo].
  pose proof (index_outer _ _ _ Hn) as Hxn.
  pose proof (index_outer _ _ _ Hf) as Hxf.
  pose proof length_nested as HlenN. pose proof length_flat as HlenF.
  assert (Hlt_n : index c wn < i) by lia.
  assert (Hlt_f : index c wf < i) by lia.
  assert (Hrange : 0 <= i < a) by lia.
  destruct (array_get_in_range A1 i Hrange) as [h Hh].
  destruct (array_get_function _ _ _ A1_functions Hh) as (async & body & ->).
  assert (Hfn_n : (if i =? Z.of_nat (length (nested A1 B A2)) then next
             else match array_get (nested A1 B A2) i with
                  | Some h => Func h | None => Falsy end) = Func (Fn async body)).
  { destruct (Z.eqb_spec i (Z.of_nat (length (nested A1 B A2)))); [lia|].
    unfold nested. rewrite array_get_app_l by lia. rewrite Hh. reflexivity. }
  assert (Hfn_f : (if i =? Z.of_nat (length (flat A1 B A2)) then next
             else match array_get (flat A1 B A2) i with
                  | Some h => Func h | None => Falsy end) = Func (Fn async body)).
  { destruct (Z.eqb_spec i (Z.of_nat (length (flat A1 B A2)))); [lia|].
    unfold flat. rewrite array_get_app_l by lia. rewrite Hh. reflexivity. }
  destruct fo as [|fo']; [lia|]. destruct ff as [|ff']; [lia|].
  unfold outer, flat_proceed.
  rewrite (dispatch_call fo' _ _ _ _ _ _ Hlt_n Hfn_n eq_refl).
  rewrite (dispatch_call ff' _ _ _ _ _ _ Hlt_f Hfn_f eq_refl).
  unfold invoke.
  set (wn1 := set_index c i wn). set (wf1 := set_index c i wf).
  assert (Hal1 : aligned (emit (Enter c i) wn1) (emit (Enter c i) wf1)).
  { split.
    - apply related_emit; [simpl; rewrite renumber_outer_head by lia; reflexivity|].
      exact Hrel.
    - exists i. split; [apply (cells_set_outer _ _ _ _ Hf)|].
      unfold nested_cells. destruct (Z.ltb_spec i a); [|lia].
      apply (cells_set_outer _ _ _ _ Hn). }
  assert (Hidx1 : index c (emit (Enter c i) wf1) = i).
  { apply (index_outer _ i []), (cells_set_outer _ _ _ _ Hf). }
  assert (Hq : alike (dispatch fo' (nested A1 B A2) next c (i + 1))
                 (dispatch ff' (flat A1 B A2) next c (i + 1)) (i + 1)).
  { specialize (Hsim fo' fi ff'). unfold nested_proceed, flat_proceed, outer in Hsim.
    destruct (Z.leb_spec (i + 1) a); [|lia]. apply Hsim.
    unfold enough. destruct (Z.leb_spec (i + 1) a); [|lia]. lia. }
  destruct (call_alike i c i async body _ _ _ _
              (renumber_outer_head i ltac:(lia)) Hq Hal1 Hidx1)
    as (r & wn' & wf' & -> & -> & Hal' & Hi').
  eexists _, _, _. split; [reflexivity|]. split; [reflexivity|].
  split; [exact Hal'|]. change (index c (emit _ wf')) with (index c wf'). lia.
Qed.

(** A handler of [B], inside the unit. *)
Lemma inside_alike j fo fi ff wn wf :
  sim (a + j + 1) -> 0 <= j < b ->
  a + b + n2 + 1 - (a + j) <= Z.of_nat ff ->
  b + 1 - j <= Z.of_nat fi -> n2 + 1 <= Z.of_nat fo ->
  related wn wf ->
  cells wn = pre ++ [a; j - 1] -> cells wf = pre ++ [a + j - 1] ->
  exists r wn' wf',
    inner fo fi j wn = Some (r, wn') /\
    flat_proceed ff (a + j) wf = Some (r, wf') /\
    aligned wn' wf' /\ a + j - 1 <= index c wf'.
Proof.
  intros Hsim Hj Hff Hfi Hfo Hrel Hn Hf.
  pose proof (index_inner _ _ _ Hn) as Hxn.
  pose proof (index_outer _ _ _ Hf) as Hxf.
  pose proof length_flat as HlenF.
  assert (Hlt_n : index (S c) wn < j) by lia.
  assert (Hlt_f : index c wf < a + j) by lia.
  destruct (array_get_in_range B j Hj) as [h Hh].
  destruct (array_get_function _ _ _ B_functions Hh) as (async & body & ->).
  assert (Hfn_n : (if j =? Z.of_nat (length B) then Bound (outer fo (a + 1))
             else match array_get B j with
                  | Some h => Func h | None => Falsy end) = Func (Fn async body)).
  { destruct (Z.eqb_spec j (Z.of_nat (length B))); [lia|]. rewrite Hh. reflexivity. }
  assert (Hfn_f : (if a + j =? Z.of_nat (length (flat A1 B A2)) then next
             else match array_get (flat A1 B A2) (a + j) with
                  | Some h => Func h | None => Falsy end) = Func (Fn async body)).
  { destruct (Z.eqb_spec (a + j) (Z.of_nat (length (flat A1 B A2)))); [lia|].
    unfold flat. rewrite array_get_app_r by lia. rewrite array_get_app_l by lia.
    replace (a + j - a) with j by lia. rewrite Hh. reflexivity. }
  destruct fi as [|fi']; [lia|]. destruct ff as [|ff']; [lia|].
  unfold inner, flat_proceed.
  rewrite (dispatch_call fi' _ _ _ _ _ _ Hlt_n Hfn_n eq_refl).
  rewrite (dispatch_call ff' _ _ _ _ _ _ Hlt_f Hfn_f eq_refl).
  unfold invoke.
  set (wn1 := set_index (S c) j wn). set (wf1 := set_index c (a + j) wf).
  assert (Hlabel : renumber c a b (S c) j = Some (c, a + j)).
  { apply renumber_inner. lia. }
  assert (Hal1 : aligned (emit (Enter (S c) j) wn1) (emit (Enter c (a + j)) wf1)).
  { split.
    - apply related_emit; [simpl; rewrite Hlabel; reflexivity|]. exact Hrel.
    - exists (a + j). split; [apply (cells_set_outer _ _ _ _ Hf)|].
      unfold nested_cells. destruct (Z.ltb_spec (a + j) a); [lia|].
      destruct (Z.ltb_spec (a + j) (a + b)); [|lia].
      replace (a + j - a) with j by lia. apply (cells_set_inner _ _ _ _ Hn). }
  assert (Hidx1 : index c (emit (Enter c (a + j)) wf1) = a + j).
  { apply (index_outer _ (a + j) []), (cells_set_outer _ _ _ _ Hf). }
  assert (Hq : alike (dispatch fi' B (Bound (outer fo (a + 1))) (S c) (j + 1))
                 (dispatch ff' (flat A1 B A2) next c (a + j + 1)) (a + j + 1)).
  { specialize (Hsim fo fi' ff'). unfold nested_proceed, flat_proceed, inner in Hsim.
    destruct (Z.leb_spec (a + j + 1) a); [lia|].
    destruct (Z.leb_spec (a + j + 1) (a + b)); [|lia].
    replace (a + j + 1 - a) with (j + 1) in Hsim by lia. apply Hsim.
    unfold enough. destruct (Z.leb_spec (a + j + 1) a); [lia|].
    destruct (Z.leb_spec (a + j + 1) (a + b)); [|lia]. lia. }
  destruct (call_alike (a + j) (S c) j async body _ _ _ _ Hlabel Hq Hal1 Hidx1)
    as (r & wn' & wf' & -> & -> & Hal' & Hi').
  eexists _, _, _. split; [reflexivity|]. split; [reflexivity|].
  split; [exact Hal'|]. change (index c (emit _ wf')) with (index c wf'). lia.
Qed.

(** The end of the inner pipeline: its [next] is the proceed callable of
    the outer one. *)
Lemma last_alike fo fi ff wn wf :
  sim (a + b + 1) ->
  n2 + 1 <= Z.of_nat ff -> 1 <= Z.of_nat fi -> n2 + 1 <= Z.of_nat fo ->
  related wn wf ->
  cells wn = pre ++ [a; b - 1] -> cells wf = pre ++ [a + b - 1] ->
  exists r wn' wf',
    inner fo fi b wn = Some (r, wn') /\
    flat_proceed ff (a + b) wf = Some (r, wf') /\
    aligned wn' wf' /\ a + b - 1 <= index c wf'.
Proof.
  intros Hsim Hff Hfi Hfo Hrel Hn Hf.
  pose proof (index_inner _ _ _ Hn) as Hxn.
  assert (Hlt_n : index (S c) wn < b) by lia.
  assert (Hfn_n : (if b =? Z.of_nat (length B) then Bound (outer fo (a + 1))
             else match array_get B b with
                  | Some h => Func h | None => Falsy end) = Bound (outer fo (a + 1))).
  { rewrite Z.eqb_refl. reflexivity. }
  destruct fi as [|fi']; [lia|].
  unfold inner.
  rewrite (dispatch_call fi' _ _ _ _ _ _ Hlt_n Hfn_n eq_refl).
  unfold invoke.
  set (wn1 := emit (Enter (S c) b) (set_index (S c) b wn)).
  destruct (tail_alike (a + b) fo ff wn1 wf) as (r & wn' & wf' & Hrn & Hrf & Hal' & Hi');
    try assumption; try lia.
  - apply related_drop; [simpl; rewrite renumber_inner_next; reflexivity|].
    exact Hrel.
  - replace (a + b - b) with a by lia. apply (cells_set_inner _ _ _ _ Hn).
  - replace (a + b - b + 1) with (a + 1) in Hrn by lia. rewrite Hrn.
    rewrite (dispatch_result_settled _ _ _ _ _ _ _ _ Hrf).
    exists r, (emit (Exit (S c) b) wn'), wf'.
    split; [reflexivity|]. split; [exact Hrf|]. split; [|exact Hi'].
    split; [|apply Hal'].
    apply related_drop; [simpl; rewrite renumber_inner_next; reflexivity|].
    apply Hal'.
Qed.

(** The unit: the outer pipeline calls the inner one. *)
Lemma unit_alike fo fi ff wn wf :
  sim (a + 1) -> enough fo fi ff a ->
  related wn wf ->
  cells wn = pre ++ [a - 1] -> cells wf = pre ++ [a - 1] ->
  exists r wn' wf',
    outer fo a wn = Some (r, wn') /\ flat_proceed ff a wf = Some (r, wf') /\
    aligned wn' wf' /\ a - 1 <= index c wf'.
Proof.
  intros Hsim Hfuel Hrel Hn Hf.
  unfold enough in Hfuel. rewrite Z.leb_refl in Hfuel. destruct Hfuel as [Hff Hfo].
  pose proof (index_outer _ _ _ Hn) as Hxn.
  pose proof length_nested as HlenN.
  assert (Hlt_n : index c wn < a) by lia.
  assert (Hfn_n : (if a =? Z.of_nat (length (nested A1 B A2)) then next
             else match array_get (nested A1 B A2) a with
                  | Some h => Func h | None => Falsy end) = Func (Composed B)).
  { destruct (Z.eqb_spec a (Z.of_nat (length (nested A1 B A2)))); [lia|].
    unfold nested. rewrite array_get_app_r by lia. rewrite Z.sub_diag. reflexivity. }
  destruct fo as [|fo']; [lia|].
  unfold outer.
  rewrite (dispatch_call fo' _ _ _ _ _ _ Hlt_n Hfn_n eq_refl).
  unfold invoke.
  set (wn1 := emit (Enter c a) (set_index c a wn)).
  assert (Hn1 : cells wn1 = pre ++ [a]) by apply (cells_set_outer _ _ _ _ Hn).
  destruct (cells_alloc _ _ Hn1) as [Hn2 ->].
  assert (Hrel2 : related (alloc_index wn1) wf).
  { apply (related_drop (Enter c a) wn wf); [|exact Hrel].
    simpl. rewrite renumber_unit. reflexivity. }
  fold (outer fo' (a + 1)). fold (inner fo' fo' 0).
  assert (Hinner : exists r wn' wf',
             inner fo' fo' 0 (alloc_index wn1) = Some (r, wn') /\
             flat_proceed ff a wf = Some (r, wf') /\
             aligned wn' wf' /\ a - 1 <= index c wf').
  { destruct (Z.eq_dec b 0) as [Hb|Hb].
    - destruct (last_alike fo' fo' ff (alloc_index wn1) wf)
        as (r & wn' & wf' & Hrn & Hrf & Hal' & Hi'); try assumption; try lia.
      + rewrite Hb, Z.add_0_r. exact Hsim.
      + rewrite Hb. exact Hn2.
      + rewrite Hb, Z.add_0_r. exact Hf.
      + rewrite Hb in Hrn. rewrite Hb, Z.add_0_r in Hrf, Hi'. eauto 8.
    - destruct (inside_alike 0 fo' fo' ff (alloc_index wn1) wf)
        as (r & wn' & wf' & Hrn & Hrf & Hal' & Hi'); try assumption; try lia.
      + rewrite Z.add_0_r. exact Hsim.
      + rewrite Z.add_0_r. exact Hf.
      + rewrite Z.add_0_r in Hrf, Hi'. eauto 8. }
  destruct Hinner as (r & wn' & wf' & -> & Hrf & Hal' & Hi').
  rewrite (dispatch_result_settled _ _ _ _ _ _ _ _ Hrf).
  exists r, (emit (Exit c a) wn'), wf'.
  split; [reflexivity|]. split; [exact Hrf|]. split; [|exact Hi'].
  split; [|apply Hal'].
  apply related_drop; [simpl; rewrite renumber_unit; reflexivity|]. apply Hal'.
Qed.

Lemma sim_step i : 0 <= i <= a + b + n2 -> sim (i + 1) -> sim i.
Proof.
  intros Hi Hsim fo fi ff Hfuel wn wf Hal Hpre.
  destruct (Z.le_gt_cases i (index c wf)) as [Hle|Hgt].
  { destruct (guard_alike fo fi ff _ _ _ Hal Hpre Hle) as [-> ->]. eauto 8. }
  destruct Hal as (Hrel & z & Hf & Hn).
  pose proof (index_outer _ _ _ Hf) as Hz.
  assert (z = i - 1) as -> by lia.
  unfold nested_cells in Hn. unfold nested_proceed.
  pose proof Hfuel as Hfuel'. unfold enough in Hfuel'.
  destruct (Z.leb_spec i a) as [Hia|Hia].
  - destruct (Z.ltb_spec (i - 1) a); [|lia].
    destruct (Z.eq_dec i a) as [->|Hne].
    + apply (unit_alike fo fi ff); assumption.
    + apply (head_alike i fo fi ff); try assumption. lia.
  - destruct (Z.ltb_spec (i - 1) a); [lia|].
    destruct Hfuel' as [Hff Hfo].
    destruct (Z.leb_spec i (a + b)) as [Hib|Hib].
    + destruct (Z.ltb_spec (i - 1) (a + b)); [|lia]. destruct Hfo as [Hfi Hfo].
      destruct (Z.eq_dec i (a + b)) as [->|Hne].
      * replace (a + b - a) with b by lia.
        apply (last_alike fo fi ff); try assumption; try lia.
        replace (b - 1) with (a + b - 1 - a) by lia. exact Hn.
      * assert (Heq : a + (i - a) = i) by lia.
        pose proof (inside_alike (i - a) fo fi ff wn wf) as Hin.
        rewrite Heq in Hin. apply Hin; try assumption; try lia.
        replace (i - a - 1) with (i - 1 - a) by lia. exact Hn.
    + destruct (Z.ltb_spec (i - 1) (a + b)); [lia|].
      apply (tail_alike i fo ff); try assumption; try lia.
      replace (i - b) with (i - 1 - b + 1) by lia. exact Hn.
Qed.

Lemma sim_all m : forall i, 0 <= i -> Z.of_nat m = a + b + n2 + 1 - i -> sim i.
Proof.
  induction m as [|m IH]; intros i Hi Hm.
  - replace i with (a + b + n2 + 1) by lia. apply sim_base.
  - apply sim_step; [lia|]. apply IH; lia.
Qed.

End Flatten.

(** C4.  For lists [A1], [B] and [A2] of handler functions, the pipeline
    composed of [A1], then the composed pipeline of [B] as one unit, then
    [A2], and the pipeline composed of the flat list, invoked on the same
    store with the same [next] (none, or one that is not itself a
    pipeline), both complete, with the same promise and the same context;
    and the events of the nested run, read at the indexes that the handlers
    have in the flat list, are the events of the flat run: the same
    handlers are entered, act and exit in the same order. *)
Theorem nested_pipeline_behaves_as_flattened A1 B A2 next w :
  Forall (fun h => is_function h = true) A1 ->
  Forall (fun h => is_function h = true) B ->
  Forall (fun h => is_function h = true) A2 ->
  plain_next next = true ->
  exists r wn wf tn,
    compose (nested A1 B A2) next w = Some (r, wn) /\
    compose (flat A1 B A2) next w = Some (r, wf) /\
    ctx wn = ctx wf /\
    trace wn = trace w ++ tn /\
    trace wf =
      trace w ++ flatten_trace (length (cells w)) (Z.of_nat (length A1))
                   (Z.of_nat (length B)) tn.
Proof.
  intros HA1 HB HA2 Hnext. unfold compose.
  pose proof (length_nested A1 B A2) as HlenN.
  pose proof (length_flat A1 B A2) as HlenF.
  assert (Hdepth : (2 + length B <= max_depth (nested A1 B A2))%nat).
  { assert (Hget : nested A1 B A2 !! length A1 = Some (Composed B))
      by apply list_lookup_middle, eq_refl.
    apply depth_le_max_depth in Hget. simpl in Hget. lia. }
  set (fo := fuel_of (nested A1 B A2) next).
  set (ff := fuel_of (flat A1 B A2) next).
  assert (Hfuel : enough A1 B A2 fo O ff 0).
  { unfold enough, fo, ff, fuel_of.
    destruct (Z.leb_spec 0 (Z.of_nat (length A1))); [|lia]. lia. }
  pose proof (sim_all A1 B A2 next HA1 HB HA2 Hnext (cells w) (trace w)
                (length A1 + length B + length A2 + 1) 0 ltac:(lia) ltac:(lia)
                fo O ff Hfuel (alloc_index w) (alloc_index w)) as Hsim.
  unfold nested_proceed, flat_proceed, outer in Hsim.
  destruct (Z.leb_spec 0 (Z.of_nat (length A1))); [|lia].
  destruct Hsim as (r & wn & wf & Hrn & Hrf & [(Hctx & tn & tf & Hn & Hf & Hfl) _] & _).
  - split.
    + split; [reflexivity|]. exists [], []. simpl. rewrite app_nil_r. auto.
    + exists (-1). split; [reflexivity|]. unfold nested_cells.
      destruct (Z.ltb_spec (-1) (Z.of_nat (length A1))); [reflexivity|lia].
  - rewrite index_fresh. lia.
  - exists r, wn, wf, tn. rewrite Hfl. auto.
Qed.

(** *** Failures and normal returns on the way out *)

Lemma exec_fails_with e p :
  fails_with e p ->
  forall cell i sync (q : proceed Ctx) w,
    exists w', exec cell i sync p q w =
               Some (if sync then Throws e else Returns (Promise_reject e), w').
Proof.
  induction 1 as [|f k _ IH|k _ IH]; intros cell i sync q w; simpl; eauto.
Qed.

Lemma exec_transparent_to (P : jsval -> Prop) p :
  transparent p ->
  forall cell i sync (q : proceed Ctx) w,
    (forall w1, cells w1 = cells w ->
       exists e w2, q w1 = Some (Returns (JPromise Rejected e), w2) /\ P e) ->
    exists e w',
      exec cell i sync p q w = Some (Returns (Promise_reject e), w') /\ P e.
Proof.
  induction 1 as [f k _ IH|k _ IH|k Hk]; intros cell i sync q w Hq; simpl.
  - apply IH. intros w1 Hw1. apply Hq. exact Hw1.
  - apply IH, Hq.
  - destruct (Hq w eq_refl) as (e & w2 & -> & HP). simpl.
    destruct (exec_fails_with e (k (Throws e)) (Hk e) cell i false q w2) as [w' ->].
    eauto.
Qed.

(** A rejection at the index [length before] reaches the caller of the
    pipeline when the functions before it let failures through. *)
Lemma dispatch_rejection_travels (P : jsval -> Prop) before rest next cell :
  Forall transparent_fn before ->
  (forall fuel w,
      (fuel_of (before ++ rest) next <= fuel + length before)%nat ->
      (cell < length (cells w))%nat ->
      index cell w < Z.of_nat (length before) ->
      exists e w',
        dispatch fuel (before ++ rest) next cell (Z.of_nat (length before)) w =
        Some (Returns (JPromise Rejected e), w') /\ P e) ->
  forall k i fuel w,
    Z.of_nat k = Z.of_nat (length before) - i -> 0 <= i ->
    (fuel_of (before ++ rest) next <= fuel + Z.to_nat i)%nat ->
    (cell < length (cells w))%nat ->
    index cell w < i ->
    exists e w',
      dispatch fuel (before ++ rest) next cell i w =
      Some (Returns (JPromise Rejected e), w') /\ P e.
Proof.
  intros Hbefore Hat.
  set (mw := before ++ rest) in *.
  induction k as [|k IH]; intros i fuel w Hk Hi Hfuel Hcell Hidx.
  - replace i with (Z.of_nat (length before)) in * by lia.
    apply Hat; [lia|exact Hcell|exact Hidx].
  - assert (Hget : exists a' body', array_get mw i = Some (Fn a' body') /\ transparent body').
    { unfold mw. rewrite array_get_app_l by lia.
      destruct (array_get before i) as [h|] eqn:Hget.
      - apply array_get_Some in Hget as [_ Hget].
        pose proof (Forall_lookup_1 _ _ _ _ Hbefore Hget) as Htr.
        destruct h as [a' body'|]; [eauto|contradiction].
      - unfold array_get in Hget. destruct (Z.ltb_spec i 0); [lia|].
        apply lookup_ge_None in Hget. lia. }
    destruct Hget as (a' & body' & Hget & Htr).
    assert (Hlen : (length before <= length mw)%nat).
    { unfold mw. rewrite length_app. lia. }
    assert (Hfn : (if i =? Z.of_nat (length mw) then next
                   else match array_get mw i with Some h => Func h | None => Falsy end)
                  = Func (Fn a' body')).
    { destruct (Z.eqb_spec i (Z.of_nat (length mw))); [lia|]. rewrite Hget. reflexivity. }
    destruct fuel as [|fuel]; [unfold fuel_of in Hfuel; lia|].
    rewrite (dispatch_call _ _ _ _ _ _ _ Hidx Hfn eq_refl). unfold invoke.
    destruct (exec_transparent_to P body' Htr cell i (negb a')
                (dispatch fuel mw next cell (i + 1))
                (emit (Enter cell i) (set_index cell i w))) as (e & w1 & -> & HP).
    + intros w1 Hw1. apply IH.
      * lia.
      * lia.
      * unfold fuel_of in *. lia.
      * rewrite Hw1. simpl. rewrite length_insert. exact Hcell.
      * rewrite (index_cells cell w1 (set_index cell i w)) by exact Hw1.
        rewrite index_set_index_eq by exact Hcell. lia.
    + simpl. eauto.
Qed.

Lemma exec_proceeds_again p :
  proceeds_again p ->
  forall cell i (q : proceed Ctx) w,
    (forall w1, cells w1 = cells w -> q w1 = Some (Returns multiple_times, w1)) ->
    exists w',
      exec cell i false p q w =
      Some (Returns (Promise_reject (new_Error "next() called multiple times")), w').
Proof.
  induction 1 as [f k _ IH|k _ IH|k Hk]; intros cell i q w Hq; simpl.
  - apply IH. intros w1 Hw1. apply Hq. exact Hw1.
  - apply IH, Hq.
  - rewrite (Hq w eq_refl). simpl.
    apply (exec_fails_with _ _ (Hk _) cell i false q w).
Qed.

Lemma exec_proceeds_twice (P : jsval -> Prop) p :
  proceeds_twice p ->
  P (new_Error "next() called multiple times") ->
  forall cell i sync (q : proceed Ctx) w,
    (forall w1, cells w1 = cells w ->
       exists st v w2,
         q w1 = Some (Returns (JPromise st v), w2) /\
         (st = Rejected -> P v) /\
         forall w3, cells w3 = cells w2 -> q w3 = Some (Returns multiple_times, w3)) ->
    exists e w',
      exec cell i sync p q w = Some (Returns (Promise_reject e), w') /\ P e.
Proof.
  intros Hp HP. induction Hp as [f k _ IH|k _ IH|k Hfail Hagain];
    intros cell i sync q w Hq; simpl.
  - apply IH. intros w1 Hw1. apply Hq. exact Hw1.
  - apply IH, Hq.
  - destruct (Hq w eq_refl) as (st & v & w2 & -> & Hrej & Hguard).
    destruct st; simpl.
    + destruct (exec_proceeds_again _ (Hagain v) cell i q w2 Hguard) as [w' ->].
      eauto.
    + destruct (exec_fails_with v _ (Hfail v) cell i false q w2) as [w' ->].
      eauto.
Qed.

(** The proceed callable of the function at [i], as [exec_proceeds_twice]
    wants it. *)
Lemma proceed_then_guard (P : jsval -> Prop) fuel middleware next cell i w :
  callee_total next -> callee_grows next ->
  (fuel_of middleware next <= fuel + Z.to_nat (i + 1))%nat ->
  (cell < length (cells w))%nat ->
  (forall w1 v w2,
      cells w1 = cells w ->
      dispatch fuel middleware next cell (i + 1) w1 =
        Some (Returns (JPromise Rejected v), w2) -> P v) ->
  forall w1, cells w1 = cells w ->
    exists st v w2,
      dispatch fuel middleware next cell (i + 1) w1 =
        Some (Returns (JPromise st v), w2) /\
      (st = Rejected -> P v) /\
      forall w3, cells w3 = cells w2 ->
        dispatch fuel middleware next cell (i + 1) w3 = Some (Returns multiple_times, w3).
Proof.
  intros Htotal Hgrows Hfuel Hcell HP w1 Hw1.
  destruct (dispatch_total fuel middleware next cell (i + 1) w1 Htotal Hfuel)
    as [[r w2] Hrun].
  destruct (dispatch_returns_promise _ _ _ _ _ _ _ _ Hrun) as (x & -> & Hx).
  apply is_promise_inv in Hx as (st & v & ->).
  exists st, v, w2. split; [exact Hrun|]. split.
  - intros ->. eapply HP; eassumption.
  - intros w3 Hw3. apply dispatch_guard.
    rewrite (index_cells cell w3 w2 Hw3).
    eapply dispatch_reaches; [exact Hgrows| |exact Hrun].
    rewrite Hw1. exact Hcell.
Qed.

Lemma fulfilled_or_rejected v :
  (forall e, Promise_resolve v <> JPromise Rejected e) ->
  exists x, Promise_resolve v = JPromise Fulfilled x.
Proof.
  intros Hv. destruct (is_promise_inv _ (Promise_resolve_promise v)) as ([|] & x & Hx).
  - eauto.
  - destruct (Hv x Hx).
Qed.

Lemma exec_returns_normally cell i p (q : proceed Ctx) :
  returns_normally p ->
  forall sync w,
    (forall w1, cells w1 = cells w ->
       exists v w2, q w1 = Some (Returns (JPromise Fulfilled v), w2)) ->
    exists v w',
      exec cell i sync p q w = Some (Returns v, w') /\
      forall e, Promise_resolve v <> JPromise Rejected e.
Proof.
  induction 1 as [v Hv|f k _ IH|k _ IH|k Hk]; intros sync w Hq; simpl.
  - apply (exec_resolves_alone cell i (Return v) q (ra_Return v Hv) sync w).
  - apply IH. intros w1 Hw1. apply Hq. exact Hw1.
  - apply IH, Hq.
  - destruct (Hq w eq_refl) as (v & w2 & ->). simpl.
    apply (exec_resolves_alone cell i _ q (Hk v) false w2).
Qed.

(** When [dispatch] fulfils at the index [hi] and the functions from [lo]
    to [hi] return normally, it fulfils at every index between them. *)
Lemma dispatch_returns_normally middleware next cell (lo hi : nat) :
  (forall j, (lo <= j < hi)%nat ->
     exists a body, middleware !! j = Some (Fn a body) /\ returns_normally body) ->
  (hi <= length middleware)%nat ->
  (forall fuel w,
      (fuel_of middleware next <= fuel + hi)%nat ->
      (cell < length (cells w))%nat ->
      index cell w < Z.of_nat hi ->
      exists v w',
        dispatch fuel middleware next cell (Z.of_nat hi) w =
        Some (Returns (JPromise Fulfilled v), w')) ->
  forall k i fuel w,
    Z.of_nat k = Z.of_nat hi - i -> Z.of_nat lo <= i ->
    (fuel_of middleware next <= fuel + Z.to_nat i)%nat ->
    (cell < length (cells w))%nat ->
    index cell w < i ->
    exists v w',
      dispatch fuel middleware next cell i w =
      Some (Returns (JPromise Fulfilled v), w').
Proof.
  intros Hfns Hhi Hat.
  induction k as [|k IH]; intros i fuel w Hk Hlo Hfuel Hcell Hidx.
  - replace i with (Z.of_nat hi) in * by lia.
    apply Hat; [lia|exact Hcell|exact Hidx].
  - destruct (Hfns (Z.to_nat i)) as (a & body & Hget & Hbody); [lia|].
    assert (Hfn : (if i =? Z.of_nat (length middleware) then next
                   else match array_get middleware i with
                        | Some h => Func h | None => Falsy end)
                  = Func (Fn a body)).
    { destruct (Z.eqb_spec i (Z.of_nat (length middleware))); [lia|].
      unfold array_get. destruct (Z.ltb_spec i 0); [lia|]. rewrite Hget. reflexivity. }
    destruct fuel as [|fuel]; [unfold fuel_of in Hfuel; lia|].
    rewrite (dispatch_call _ _ _ _ _ _ _ Hidx Hfn eq_refl). unfold invoke.
    destruct (exec_returns_normally cell i body
                (dispatch fuel middleware next cell (i + 1)) Hbody (negb a)
                (emit (Enter cell i) (set_index cell i w))) as (v & w1 & -> & Hv).
    + intros w1 Hw1. apply IH.
      * lia.
      * lia.
      * unfold fuel_of in *. lia.
      * rewrite Hw1. simpl. rewrite length_insert. exact Hcell.
      * rewrite (index_cells cell w1 (set_index cell i w)) by exact Hw1.
        rewrite index_set_index_eq by exact Hcell. lia.
    + destruct (fulfilled_or_rejected v Hv) as [x Hx]. simpl. rewrite Hx. eauto.
Qed.

(** The end of the pipeline, with a [next] argument that is quiet. *)
Lemma dispatch_quiet_next middleware next cell fuel w :
  quiet_next next ->
  (fuel_of middleware next <= fuel + length middleware)%nat ->
  (cell < length (cells w))%nat ->
  index cell w < Z.of_nat (length middleware) ->
  exists v w',
    dispatch fuel middleware next cell (Z.of_nat (length middleware)) w =
    Some (Returns (JPromise Fulfilled v), w').
Proof.
  intros Hnext Hfuel Hcell Hidx.
  assert (Hfn : (if Z.of_nat (length middleware) =? Z.of_nat (length middleware)
                 then next
                 else match array_get middleware (Z.of_nat (length middleware)) with
                      | Some h => Func h | None => Falsy end) = next).
  { rewrite Z.eqb_refl. reflexivity. }
  destruct next as [|v|[a body|]|]; simpl in Hnext; try contradiction.
  - rewrite (dispatch_falsy _ _ _ _ _ _ _ Hidx Hfn eq_refl). eauto.
  - rewrite (dispatch_falsy _ _ _ _ _ _ _ Hidx Hfn); [eauto|].
    simpl. rewrite Hnext. reflexivity.
  - destruct fuel as [|fuel]; [unfold fuel_of in Hfuel; lia|].
    rewrite (dispatch_call _ _ _ _ _ _ _ Hidx Hfn eq_refl). unfold invoke.
    destruct (exec_returns_normally cell (Z.of_nat (length middleware)) body
                (dispatch fuel middleware (Func (Fn a body)) cell
                   (Z.of_nat (length middleware) + 1)) Hnext (negb a)
                (emit (Enter cell (Z.of_nat (length middleware)))
                   (set_index cell (Z.of_nat (length middleware)) w)))
      as (v & w1 & -> & Hv).
    + intros w1 Hw1. rewrite (dispatch_end _ _ _ _ _ w1).
      * eauto.
      * rewrite (index_cells cell w1
                   (set_index cell (Z.of_nat (length middleware)) w)) by exact Hw1.
        rewrite index_set_index_eq by exact Hcell. lia.
      * destruct (Z.eqb_spec (Z.of_nat (length middleware) + 1)
                    (Z.of_nat (length middleware))); [lia|].
        rewrite array_get_ge by lia. reflexivity.
    + destruct (fulfilled_or_rejected v Hv) as [x Hx]. simpl. rewrite Hx. eauto.
Qed.

(** The function at [k] awaits its proceed callable twice. *)
Lemma dispatch_proceeds_twice (P : jsval -> Prop) middleware next cell
    (k : nat) a body :
  callee_total next -> callee_grows next ->
  middleware !! k = Some (Fn a body) ->
  proceeds_twice body ->
  P (new_Error "next() called multiple times") ->
  (forall fuel w1 v w2,
      (fuel_of middleware next <= fuel + S k)%nat ->
      (cell < length (cells w1))%nat ->
      index cell w1 < Z.of_nat (S k) ->
      dispatch fuel middleware next cell (Z.of_nat k + 1) w1 =
        Some (Returns (JPromise Rejected v), w2) -> P v) ->
  forall fuel w,
    (fuel_of middleware next <= fuel + k)%nat ->
    (cell < length (cells w))%nat ->
    index cell w < Z.of_nat k ->
    exists e w',
      dispatch fuel middleware next cell (Z.of_nat k) w =
      Some (Returns (JPromise Rejected e), w') /\ P e.
Proof.
  intros Htotal Hgrows Hget Hbody Hmt HP fuel w Hfuel Hcell Hidx.
  pose proof (lookup_lt_Some _ _ _ Hget) as Hlen.
  assert (Hfn : (if Z.of_nat k =? Z.of_nat (length middleware) then next
                 else match array_get middleware (Z.of_nat k) with
                      | Some h => Func h | None => Falsy end)
                = Func (Fn a body)).
  { destruct (Z.eqb_spec (Z.of_nat k) (Z.of_nat (length middleware))); [lia|].
    unfold array_get. destruct (Z.ltb_spec (Z.of_nat k) 0); [lia|].
    rewrite Nat2Z.id, Hget. reflexivity. }
  destruct fuel as [|fuel]; [unfold fuel_of in Hfuel; lia|].
  rewrite (dispatch_call _ _ _ _ _ _ _ Hidx Hfn eq_refl). unfold invoke.
  set (w0 := emit (Enter cell (Z.of_nat k)) (set_index cell (Z.of_nat k) w)).
  assert (Hcell0 : (cell < length (cells w0))%nat).
  { subst w0. simpl. rewrite length_insert. exact Hcell. }
  destruct (exec_proceeds_twice P body Hbody Hmt cell (Z.of_nat k) (negb a)
              (dispatch fuel middleware next cell (Z.of_nat k + 1)) w0)
    as (e & w' & -> & He).
  - apply proceed_then_guard; try assumption.
    + unfold fuel_of in *. lia.
    + intros w1 v w2 Hw1 Hrun. eapply (HP fuel w1 v w2); try eassumption.
      * unfold fuel_of in *. lia.
      * rewrite Hw1. exact Hcell0.
      * rewrite (index_cells cell w1 (set_index cell (Z.of_nat k) w)) by exact Hw1.
        rewrite index_set_index_eq by exact Hcell. lia.
  - simpl. eauto.
Qed.

Lemma compose_proceeds_twice before a body after next w :
  callee_total next -> callee_grows next ->
  Forall transparent_fn before ->
  proceeds_twice body ->
  (exists e w',
      compose (before ++ Fn a body :: after) next w =
      Some (Returns (JPromise Rejected e), w')) /\
  (Forall returns_normally_fn after -> quiet_next next ->
   exists w',
     compose (before ++ Fn a body :: after) next w = Some (Returns multiple_times, w')).
Proof.
  intros Htotal Hgrows Hbefore Hbody.
  set (mw := before ++ Fn a body :: after).
  set (cell := length (cells w)).
  assert (Hget : mw !! length before = Some (Fn a body)).
  { apply list_lookup_middle. reflexivity. }
  assert (Hgen : forall P : jsval -> Prop,
             P (new_Error "next() called multiple times") ->
             (forall fuel w1 v w2,
                 (fuel_of mw next <= fuel + S (length before))%nat ->
                 (cell < length (cells w1))%nat ->
                 index cell w1 < Z.of_nat (S (length before)) ->
                 dispatch fuel mw next cell (Z.of_nat (length before) + 1) w1 =
                   Some (Returns (JPromise Rejected v), w2) -> P v) ->
             exists e w',
               compose mw next w = Some (Returns (JPromise Rejected e), w') /\ P e).
  { intros P Hmt HP. unfold compose. fold cell.
    apply (dispatch_rejection_travels P before (Fn a body :: after) next cell
             Hbefore) with (k := length before).
    - intros fuel w1 Hfuel Hcell Hidx.
      apply (dispatch_proceeds_twice P mw next cell (length before) a body);
        assumption.
    - lia.
    - lia.
    - fold mw. lia.
    - rewrite length_cells_alloc_index. unfold cell. lia.
    - unfold cell. rewrite index_fresh. lia. }
  split.
  - destruct (Hgen (fun _ => True) I) as (e & w' & Hrun & _); [trivial|]. eauto.
  - intros Hafter Hnext.
    destruct (Hgen (fun e => e = new_Error "next() called multiple times") eq_refl)
      as (e & w' & Hrun & ->); [|eauto].
    intros fuel w1 v w2 Hfuel Hcell Hidx Hrun. exfalso.
    destruct (dispatch_returns_normally mw next cell (S (length before)) (length mw))
      with (k := length after) (i := Z.of_nat (length before) + 1)
           (fuel := fuel) (w := w1) as (x & w3 & Hful).
    + intros j Hj. unfold mw.
      rewrite lookup_app_r by lia.
      destruct (j - length before)%nat as [|m] eqn:Hm; [lia|]. simpl.
      destruct (after !! m) as [h|] eqn:Hh.
      * pose proof (Forall_lookup_1 _ _ _ _ Hafter Hh) as Hcalm.
        destruct h as [a' body'|]; [eauto|contradiction].
      * apply lookup_ge_None in Hh. unfold mw in Hj.
        rewrite length_app in Hj. simpl in Hj. lia.
    + lia.
    + intros fuel' w' Hfuel' Hcell' Hidx'.
      apply dispatch_quiet_next; assumption.
    + unfold mw. rewrite length_app. simpl. lia.
    + lia.
    + unfold fuel_of in *. lia.
    + exact Hcell.
    + lia.
    + rewrite Hrun in Hful. discriminate.
Qed.

(** C2, as amended.  Within one pipeline invocation, a proceed call whose
    target index is at most the cursor (the highest index dispatched so far)
    runs no handler and returns a promise rejected with the error
    "next() called multiple times"; once a proceed callable has returned,
    every later call of it is rejected in that way; and the states that an
    invocation reaches are those in which the cursors have only grown.
    For the invocation as a whole: when a function awaits its proceed
    callable and, after that call has fulfilled, awaits it again, with no
    [catch] around either call, and the functions before it let a failure
    of their proceed call through, the promise of the invocation is
    rejected, whatever the index of that function; it is rejected with
    the error "next() called multiple times" when the functions behind it
    and the [next] argument return normally, so that the first call
    fulfils. *)
Theorem proceed_called_again_is_rejected fuel middleware next cell i w :
  callee_grows next ->
  (i <= index cell w ->
   dispatch fuel middleware next cell i w = Some (Returns multiple_times, w)) /\
  (forall r w',
      (cell < length (cells w))%nat ->
      dispatch fuel middleware next cell i w = Some (r, w') ->
      forall w'', grown w' w'' ->
        dispatch fuel middleware next cell i w'' =
        Some (Returns multiple_times, w'')) /\
  (forall fuel' cell' j r w',
      dispatch fuel' middleware next cell' j w = Some (r, w') -> grown w w') /\
  (forall before async body after w0,
      callee_total next ->
      Forall transparent_fn before ->
      proceeds_twice body ->
      (exists e w',
          compose (before ++ Fn async body :: after) next w0 =
          Some (Returns (JPromise Rejected e), w')) /\
      (Forall returns_normally_fn after -> quiet_next next ->
       exists w',
         compose (before ++ Fn async body :: after) next w0 =
         Some (Returns multiple_times, w'))).
Proof.
  intros Hnext. split; [|split; [|split]].
  - apply dispatch_guard.
  - intros r w' Hcell Hrun w'' [_ Hidx].
    apply dispatch_guard.
    apply dispatch_reaches in Hrun; [|assumption|assumption].
    specialize (Hidx cell). lia.
  - intros fuel' cell' j r w'. apply dispatch_grows, Hnext.
  - intros before async body after w0 Htotal Hbefore Hbody.
    apply compose_proceeds_twice; assumption.
Qed.

Lemma dispatch_resolves_alone middleware next (k : nat) async body fuel cell w :
  middleware !! k = Some (Fn async body) ->
  resolves_alone body ->
  index cell w < Z.of_nat k ->
  exists v w',
    dispatch (S fuel) middleware next cell (Z.of_nat k) w =
    Some (Returns (JPromise Fulfilled v), w').
Proof.
  intros Hk Hres Hidx. rewrite dispatch_eq.
  destruct (Z.leb_spec (Z.of_nat k) (index cell w)); [lia|]. cbv zeta.
  pose proof (lookup_lt_Some _ _ _ Hk) as Hlen.
  destruct (Z.eqb_spec (Z.of_nat k) (Z.of_nat (length middleware))); [lia|].
  unfold array_get. destruct (Z.ltb_spec (Z.of_nat k) 0); [lia|].
  rewrite Nat2Z.id, Hk. simpl.
  destruct (exec_resolves_alone cell (Z.of_nat k) body
              (dispatch fuel middleware next cell (Z.of_nat k + 1)) Hres
              (negb async)
              (emit (Enter cell (Z.of_nat k)) (set_index cell (Z.of_nat k) w)))
    as (v & w2 & -> & Hv).
  destruct (fulfilled_or_rejected v Hv) as [x ->]. eauto.
Qed.

Lemma compose_short_circuit_fulfils middleware next (k : nat) async body w :
  middleware !! k = Some (Fn async body) ->
  resolves_alone body ->
  Forall returns_normally_fn (take k middleware) ->
  exists v w',
    compose middleware next w = Some (Returns (JPromise Fulfilled v), w').
Proof.
  intros Hk Hres Hbefore. unfold compose.
  pose proof (lookup_lt_Some _ _ _ Hk) as Hlen.
  apply (dispatch_returns_normally middleware next (length (cells w)) O k)
    with (k := k).
  - intros j Hj.
    destruct (middleware !! j) as [h|] eqn:Hh;
      [|apply lookup_ge_None in Hh; lia].
    assert (Hin : take k middleware !! j = Some h).
    { rewrite lookup_take_lt by lia. exact Hh. }
    pose proof (Forall_lookup_1 _ _ _ _ Hbefore Hin) as Hcalm.
    destruct h as [a' body'|]; [eauto|contradiction].
  - lia.
  - intros fuel w1 Hfuel Hcell Hidx.
    destruct fuel as [|fuel]; [unfold fuel_of in Hfuel; lia|].
    apply (dispatch_resolves_alone middleware next k async body); assumption.
  - lia.
  - lia.
  - lia.
  - rewrite length_cells_alloc_index. lia.
  - rewrite index_fresh. lia.
Qed.

(** C5, as amended.  If the handler at index [k] is a function that never
    invokes its proceed callable, then no function at an index greater than
    [k] is invoked during a pipeline invocation.  If that handler moreover
    resolves, the proceed call that invoked it returns a fulfilled promise,
    and the whole invocation returns a fulfilled promise when every
    handler before [k] is a function that returns normally after its
    proceed call, as is the case when [k] is 0. *)
Theorem handler_that_never_proceeds_stops_the_pipeline
    middleware next k async body w :
  callee_total next ->
  middleware !! k = Some (Fn async body) ->
  never_proceeds body ->
  (exists r w' t,
      compose middleware next w = Some (r, w') /\
      trace w' = trace w ++ t /\
      forall j, In (Enter (length (cells w)) j) t -> j <= Z.of_nat k) /\
  (resolves_alone body ->
   (forall fuel cell w1, index cell w1 < Z.of_nat k ->
      exists v w2,
        dispatch (S fuel) middleware next cell (Z.of_nat k) w1 =
        Some (Returns (JPromise Fulfilled v), w2)) /\
   (Forall returns_normally_fn (take k middleware) ->
    exists v w',
      compose middleware next w = Some (Returns (JPromise Fulfilled v), w'))).
Proof.
  intros Hnext Hk Hbody. split.
  - destruct (compose_total middleware next w Hnext) as [[r w'] Hrun].
    exists r, w'.
    assert (Hstop : stopped k (length (cells w)) (trace w) w').
    { unfold compose in Hrun.
      eapply (stopped_dispatch_own middleware k async body _ _ Hk Hbody);
        [| |exact Hrun]; [lia|].
      repeat split.
      - rewrite length_cells_alloc_index. lia.
      - rewrite index_fresh. lia.
      - exists []. split; [symmetry; apply app_nil_r|]. intros j []. }
    destruct Hstop as (_ & _ & t & Ht & Hin). exists t. auto.
  - intros Hres. split.
    + intros fuel cell w1 Hidx.
      apply (dispatch_resolves_alone middleware next k async body); assumption.
    + intros Hbefore.
      apply (compose_short_circuit_fulfils middleware next k async body);
        assumption.
Qed.

End ComposeFacts.

(** The second proceed call fails with the error, the handler catches it,
    and the pipeline invocation fulfils. *)
Lemma second_call_caught_pipeline_fulfils :
  compose [catches_second_call] Falsy (mkWorld [] [] tt) =
  Some (Returns (JPromise Fulfilled (new_Error "next() called multiple times")),
        mkWorld [1] [Enter 0 0; Exit 0 0] tt).
Proof. reflexivity. Qed.

(** Without the [try] the rejection of the second call becomes that of the
    pipeline invocation. *)
Example second_call_uncaught_pipeline_rejects :
  compose [calls_next_twice] Falsy (mkWorld [] [] tt) =
  Some (Returns multiple_times, mkWorld [1] [Enter 0 0; Exit 0 0] tt).
Proof. reflexivity. Qed.

Lemma passes_is_transparent : transparent_fn passes.
Proof. simpl. constructor. intros e. constructor. Qed.

Lemma passes_returns_normally : returns_normally_fn passes.
Proof. simpl. constructor. intros v. constructor. discriminate. Qed.

Lemma calls_next_twice_proceeds_twice :
  exists body, calls_next_twice = Fn true body /\ proceeds_twice body.
Proof.
  eexists. split; [reflexivity|].
  constructor; [intros e; constructor|].
  intros v. constructor. intros e. constructor.
Qed.

(** The guard for a second call of the proceed callable of [passes], and
    the pipeline in which the second of three functions calls its proceed
    callable twice. *)
Lemma proceed_called_again_witness :
  callee_grows (Falsy : callee unit) /\
  dispatch 3 [passes] Falsy 0 1 (mkWorld [1] [] tt) =
    Some (Returns multiple_times, mkWorld [1] [] tt) /\
  exists w',
    compose [passes; calls_next_twice; passes] Falsy (mkWorld [] [] tt) =
    Some (Returns multiple_times, w').
Proof.
  split; [exact I|].
  destruct (proceed_called_again_is_rejected 3 [passes] Falsy 0 1
              (mkWorld [0] [] tt) I) as (_ & Hagain & _ & Hwhole).
  split.
  - apply (Hagain (Returns (JPromise Fulfilled JUndefined)) (mkWorld [1] [] tt)).
    + simpl. lia.
    + reflexivity.
    + apply grown_refl.
  - destruct calls_next_twice_proceeds_twice as (body & Heq & Hbody).
    rewrite Heq.
    apply (Hwhole [passes] true body [passes] (mkWorld [] [] tt) I).
    + constructor; [apply passes_is_transparent|constructor].
    + exact Hbody.
    + constructor; [apply passes_returns_normally|constructor].
    + exact I.
Defined.


Lemma short_circuit_can_still_reject :
  [fails_late; answers] !! 1%nat = Some (Fn true (Return JUndefined)) /\
  resolves_alone (Return JUndefined : Prog unit) /\
  compose [fails_late; answers] Falsy (mkWorld [] [] tt) =
  Some (Returns (JPromise Rejected (new_Error "late")),
        mkWorld [1] [Enter 0 0; Enter 0 1; Exit 0 1; Exit 0 0] tt).
Proof.
  split; [reflexivity|]. split; [|reflexivity].
  constructor. discriminate.
Qed.

(** The second of three functions answers without proceeding: the third is
    not entered, and the invocation is fulfilled, the first function
    returning normally after its proceed call. *)
Lemma handler_that_never_proceeds_witness :
  (exists r w' t,
      compose [passes; answers; passes] Falsy (mkWorld [] [] tt) = Some (r, w') /\
      trace w' = [] ++ t /\
      forall j, In (Enter 0 j) t -> j <= 1) /\
  exists v w',
    compose [passes; answers; passes] Falsy (mkWorld [] [] tt) =
    Some (Returns (JPromise Fulfilled v), w').
Proof.
  destruct (handler_that_never_proceeds_stops_the_pipeline
              [passes; answers; passes] Falsy 1 true (Return JUndefined)
              (mkWorld [] [] tt) I eq_refl (np_Return JUndefined))
    as [Hstop Hres].
  split; [exact Hstop|].
  apply Hres.
  - constructor. discriminate.
  - constructor; [apply passes_returns_normally|constructor].
Defined.

Lemma logger_awaits_once async n : awaits_once_fn (logger async n).
Proof.
  simpl. constructor. constructor. intros r. destruct r; repeat constructor.
Qed.

(** Three logging handlers, the second one a plain function. *)
Example three_loggers :
  compose [logger true "1"; logger false "2"; logger true "3"] Falsy
    (mkWorld [] [] []) =
  Some (Returns (JPromise Fulfilled JUndefined),
        mkWorld [3]
          [Enter 0 0; Eff 0 0; Enter 0 1; Eff 0 1; Enter 0 2; Eff 0 2;
           Eff 0 2; Exit 0 2; Eff 0 1; Exit 0 1; Eff 0 0; Exit 0 0]
          ["before1"; "before2"; "before3"; "after3"; "after2"; "after1"]%string).
Proof. reflexivity. Qed.

Lemma compose_runs_the_handlers_as_an_onion_witness :
  Forall awaits_once_fn [logger true "1"; logger false "2"; logger true "3"] /\
  compose [logger true "1"; logger false "2"; logger true "3"] Falsy
    (mkWorld [] [] []) =
  Some (Returns (JPromise Fulfilled JUndefined),
        mkWorld [3]
          [Enter 0 0; Eff 0 0; Enter 0 1; Eff 0 1; Enter 0 2; Eff 0 2;
           Eff 0 2; Exit 0 2; Eff 0 1; Exit 0 1; Eff 0 0; Exit 0 0]
          ["before1"; "before2"; "before3"; "after3"; "after2"; "after1"]%string).
Proof.
  assert (Hall : Forall awaits_once_fn
                   [logger true "1"; logger false "2"; logger true "3"]).
  { repeat (apply Forall_cons; split; [apply logger_awaits_once|]).
    apply Forall_nil. exact I. }
  split; [exact Hall|].
  destruct (compose_runs_the_handlers_as_an_onion
              [logger true "1"; logger false "2"; logger true "3"]
              (mkWorld [] [] []) Hall)
    as (st & v & c' & t & Hspec & Hrun & _).
  vm_compute in Hspec. injection Hspec as <- <- <- <-. exact Hrun.
Defined.

(** Logging handlers, as many as there are names: the log reads as the
    onion, the entries "before" in the order of the handlers and the
    entries "after" in the opposite order. *)
Lemma onion_run_loggers async cell (names : list string) :
  forall i (log : list string),
    exists t,
      onion_run cell i (map (logger async) names) log =
      Some (JPromise Fulfilled JUndefined,
            log ++ map (String.append "before") names
                ++ map (String.append "after") (rev names),
            t).
Proof.
  induction names as [|n names IH]; intros i log; simpl.
  - exists []. rewrite app_nil_r. reflexivity.
  - destruct (IH (i + 1) (log ++ [String.append "before" n])) as [t ->]. simpl.
    eexists. do 3 f_equal.
    rewrite map_app. simpl. rewrite <- !app_assoc. reflexivity.
Qed.

Lemma loggers_log_in_onion_order async (names : list string) w :
  exists w',
    compose (map (logger async) names) Falsy w =
      Some (Returns (JPromise Fulfilled JUndefined), w') /\
    ctx w' = ctx w ++ map (String.append "before") names
                   ++ map (String.append "after") (rev names).
Proof.
  assert (Hall : Forall awaits_once_fn (map (logger async) names)).
  { apply Forall_map, Forall_true. intros n. apply logger_awaits_once. }
  destruct (compose_is_onion_run _ w Hall) as (st & v & c' & t & Hspec & Hrun).
  destruct (onion_run_loggers async (length (cells w)) names 0 (ctx w)) as [t' Ht'].
  rewrite Ht' in Hspec. injection Hspec as <- <- <- <-.
  eexists. split; [exact Hrun|]. reflexivity.
Qed.

(** * Properties of the application module *)

Section ApplicationFacts.

Context {host : Host}.

(** C6.  For a context that is not bypassed and is writable, with a status
    in the body-forbidden set: [respond] sets the body to [null] and ends
    the response without a payload, so zero payload bytes are written, and
    the body that was set before makes no difference. *)
Theorem respond_clears_a_forbidden_body c :
  is_false (ctx_respond c) = false ->
  writable c = true ->
  statuses_empty (status c) = true ->
  respond c =
    (Returns (JHost "res"), set_res (act (End None) (res c)) (set_body JNull c)) /\
  body (snd (respond c)) = JNull /\
  output (res (snd (respond c))) = output (res c) ++ [End None] /\
  payload_bytes (End None) = Some O /\
  forall v, respond (set_body v c) = respond c.
Proof.
  intros Hflag Hwritable Hempty.
  assert (Hrun : forall v, respond (set_body v c) =
            (Returns (JHost "res"),
             set_res (act (End None) (res c)) (set_body JNull c))).
  { intros v. unfold respond; simpl. unfold status in *; simpl.
    rewrite Hflag, Hwritable, Hempty. reflexivity. }
  assert (Hc : respond c =
            (Returns (JHost "res"),
             set_res (act (End None) (res c)) (set_body JNull c))).
  { rewrite <- (Hrun (body c)). destruct c; reflexivity. }
  rewrite Hc. repeat split. intros v. apply Hrun.
Qed.

(** C7, as amended.  For a context that is not bypassed and is writable,
    with the request method HEAD and a status that is not body-forbidden:
    when the headers have not been sent, [isJSON] accepts the body and
    [JSON.stringify] returns a text for it, [respond] sets the
    content-length to the byte length of that text and ends the response
    without a payload; when the headers have been sent or [isJSON] rejects
    the body, it ends the response without a payload and leaves the
    content-length alone. *)
Theorem respond_to_HEAD c :
  is_false (ctx_respond c) = false ->
  writable c = true ->
  statuses_empty (status c) = false ->
  method c = "HEAD"%string ->
  (headersSent (res c) = false ->
   isJSON (body c) = true ->
   forall text, JSON_stringify (body c) = Returns (JStr text) ->
     respond c =
       (Returns (JHost "res"),
        set_res (act (End None) (res c))
          (set_length (JNum (Z.of_nat (String.length text))) c))) /\
  (headersSent (res c) = true \/ isJSON (body c) = false ->
   respond c = (Returns (JHost "res"), set_res (act (End None) (res c)) c)).
Proof.
  intros Hflag Hwritable Hempty Hmethod. unfold respond.
  rewrite Hflag, Hwritable, Hempty, Hmethod. simpl. split.
  - intros -> -> text ->. reflexivity.
  - intros [-> | ->]; [reflexivity|]. rewrite andb_false_r. reflexivity.
Qed.

(** C8, as amended.  For every value that is not an error object the
    default error handler throws, whether the application is silent or not,
    and writes nothing: a [TypeError] with the text of [util.format] when
    that call returns, and what [util.format] throws when it throws.  It
    writes nothing either, and returns, for an error with status 404, for
    an error marked [expose], and for any error when the application is
    silent. *)
Theorem onerror_contract silent err console :
  (is_Error err = false ->
   (forall text,
       util_format_j "non-error thrown: %j" err = inl text ->
       onerror silent err console = (Throws (new_TypeError text), console) /\
       is_TypeError (new_TypeError text) = true) /\
   (forall e,
       util_format_j "non-error thrown: %j" err = inr e ->
       onerror silent err console = (Throws e, console)) /\
   exists e, onerror silent err console = (Throws e, console)) /\
  (forall name msg st expose stack,
      err = JError name msg st expose stack ->
      st = Some 404 \/ expose = true \/ silent = true ->
      onerror silent err console = (Returns JUndefined, console)).
Proof.
  split.
  - intros Herr. unfold onerror.
    destruct err; try discriminate;
      (split; [intros text ->; split; reflexivity|]);
      (split; [intros e ->; reflexivity|]);
      destruct (util_format_j _ _); eexists; reflexivity.
  - intros name msg st expose stack -> Hquiet. unfold onerror.
    destruct Hquiet as [-> | [-> | ->]].
    + reflexivity.
    + rewrite orb_true_r. reflexivity.
    + destruct (_ || _)%bool; reflexivity.
Qed.

(** C10.  [respond] returns at once, touching nothing, exactly when
    [ctx.respond] is the boolean [false].  For every other value of the flag
    it goes on to the writability check and the decision table: it does
    nothing when the context is not writable, and otherwise performs one
    terminating action on the response unless serialising the body throws;
    which other value the flag holds makes no difference. *)
Theorem respond_bypass_is_strict c :
  (ctx_respond c = JBool false -> respond c = (Returns JUndefined, c)) /\
  (ctx_respond c <> JBool false ->
   (writable c = false -> respond c = (Returns JUndefined, c)) /\
   (writable c = true ->
    match respond c with
    | (Returns _, c') => exists a, output (res c') = output (res c) ++ [a]
    | (Throws _, c') => output (res c') = output (res c)
    end) /\
   (forall v, v <> JBool false ->
      respond (set_respond v c) =
      (fst (respond c), set_respond v (snd (respond c))))).
Proof.
  split.
  { intros Hflag. unfold respond. rewrite Hflag. reflexivity. }
  intros Hflag.
  assert (Hnot : forall v, v <> JBool false -> is_false v = false).
  { intros v Hv. destruct v as [| |[|]| | | | | | | | | |]; try reflexivity.
    contradiction. }
  split; [|split].
  - intros Hw. unfold respond. rewrite (Hnot _ Hflag), Hw. reflexivity.
  - intros Hw. unfold respond. rewrite (Hnot _ Hflag), Hw. simpl.
    unfold with_byteLength, Buffer_byteLength, drop_value, res_end, pipe.
    repeat match goal with
           | |- context [if ?b then _ else _] => destruct b
           | |- context [match JSON_stringify ?v with _ => _ end] =>
               destruct (JSON_stringify v)
           | |- context [match ?v with JUndefined => _ | _ => _ end] =>
               destruct v
           end; simpl; eauto.
  - intros v Hv. unfold respond. simpl.
    rewrite (Hnot _ Hflag), (Hnot _ Hv).
    unfold with_byteLength, Buffer_byteLength, drop_value, res_end, pipe, status.
    simpl.
    repeat match goal with
           | |- context [if ?b then _ else _] => destruct b
           | |- context [match JSON_stringify ?v with _ => _ end] =>
               destruct (JSON_stringify v)
           | |- context [match ?v with JUndefined => _ | _ => _ end] =>
               destruct v
           end; reflexivity.
Qed.

End ApplicationFacts.

(** * Request handling *)


Section RequestFacts.

Context {host : Host}.




End RequestFacts.


(** ** Examples on the sample host *)

Lemma respond_clears_a_forbidden_body_witness :
  respond (head_request JUndefined 204) =
    (Returns (JHost "res"),
     set_res (act (End None) (res (head_request JUndefined 204)))
       (set_body JNull (head_request JUndefined 204))) /\
  output (res (snd (respond (head_request JUndefined 204)))) = [End None].
Proof.
  destruct (respond_clears_a_forbidden_body (head_request JUndefined 204))
    as (Hrun & _ & Hout & _); [reflexivity|reflexivity|reflexivity|].
  split; [exact Hrun|exact Hout].
Defined.

(** With [ctx.respond = false] nothing is ended, HEAD or not. *)
Lemma bypassed_HEAD_is_not_ended :
  method (head_request (JBool false) 200) = "HEAD"%string /\
  statuses_empty (status (head_request (JBool false) 200)) = false /\
  respond (head_request (JBool false) 200) =
    (Returns JUndefined, head_request (JBool false) 200) /\
  output (res (snd (respond (head_request (JBool false) 200)))) = [].
Proof. repeat split. Qed.

Lemma respond_to_HEAD_witness :
  String.length a_is_1 = 7%nat /\
  respond (head_request JUndefined 200) =
    (Returns (JHost "res"),
     set_res (act (End None) (res (head_request JUndefined 200)))
       (set_length (JNum 7) (head_request JUndefined 200))).
Proof.
  split; [reflexivity|].
  destruct (respond_to_HEAD (head_request JUndefined 200)) as [Hjson _];
    [reflexivity|reflexivity|reflexivity|reflexivity|].
  apply (Hjson eq_refl eq_refl a_is_1). reflexivity.
Defined.

(** A plain string is not an error object: [onerror] throws, silent or not. *)
Example onerror_plain_string silent :
  onerror silent (JStr "boom") [] =
  (Throws (new_TypeError
             (String.append "non-error thrown: " (quote "boom"))), []).
Proof. destruct silent; reflexivity. Qed.

(** An object that is not an error and whose [toJSON] throws: [onerror]
    throws what [util.format] threw, which is not a [TypeError]. *)
Lemma onerror_rethrows_what_format_throws :
  is_Error stubborn = false /\
  @onerror stubborn_host false stubborn [] = (Throws range_error, []) /\
  @onerror stubborn_host true stubborn [] = (Throws range_error, []) /\
  is_TypeError range_error = false.
Proof. repeat split. Qed.

(** [undefined], [null], [0] and the empty string do not bypass. *)
Example respond_flag_falsy_values :
  Forall (fun flag =>
            output (res (snd (respond (head_request flag 200)))) = [End None])
    [JUndefined; JNull; JNum 0; JStr EmptyString].
Proof. repeat constructor. Qed.

(** Four logging handlers, the second and third as a pipeline of their
    own. *)
Lemma nested_pipeline_behaves_as_flattened_witness :
  exists r wn wf tn,
    compose (nested [logger true "1"] [logger false "2"; logger true "3"]
               [logger true "4"]) Falsy (mkWorld [] [] []) = Some (r, wn) /\
    compose (flat [logger true "1"] [logger false "2"; logger true "3"]
               [logger true "4"]) Falsy (mkWorld [] [] []) = Some (r, wf) /\
    ctx wn = ctx wf /\
    trace wn = [] ++ tn /\
    trace wf = [] ++ flatten_trace 0 1 2 tn.
Proof.
  apply (nested_pipeline_behaves_as_flattened
           [logger true "1"] [logger false "2"; logger true "3"]
           [logger true "4"] Falsy (mkWorld [] [] []));
    repeat (apply Forall_cons; split; [reflexivity|]);
    try (apply Forall_nil; exact I); reflexivity.
Defined.

Example nested_loggers :
  compose (nested [logger true "1"] [logger false "2"; logger true "3"]
             [logger true "4"]) Falsy (mkWorld [] [] []) =
  Some (Returns (JPromise Fulfilled JUndefined),
        mkWorld [3; 2]
          [Enter 0 0; Eff 0 0; Enter 0 1; Enter 1 0; Eff 1 0; Enter 1 1;
           Eff 1 1; Enter 1 2; Enter 0 2; Eff 0 2; Eff 0 2; Exit 0 2;
           Exit 1 2; Eff 1 1; Exit 1 1; Eff 1 0; Exit 1 0; Exit 0 1;
           Eff 0 0; Exit 0 0]
          ["before1"; "before2"; "before3"; "before4";
           "after4"; "after3"; "after2"; "after1"]%string).
Proof. reflexivity. Qed.

(** * Further properties of koa-compose *)

Section ComposeMore.

Context {Ctx : Type}.
Implicit Types (w : World Ctx) (p : Prog Ctx) (next : callee Ctx).
Implicit Types (middleware : list (handler Ctx)).

(** ** The checks of compose *)

Lemma functions_of_Some (items : list (js_element Ctx)) hs :
  functions_of items = Some hs <-> items = map ElemFunction hs.
Proof.
  revert hs. induction items as [|x items IH]; intros hs; simpl.
  - split; [intros [= <-]; reflexivity|]. destruct hs; [reflexivity|discriminate].
  - destruct x as [h|v].
    + destruct (functions_of items) as [hs'|] eqn:Hrest.
      * split.
        -- intros [= <-]. simpl. f_equal. apply IH. reflexivity.
        -- destruct hs as [|h0 hs0]; [discriminate|]. simpl. intros [= -> Hitems].
           apply IH in Hitems. injection Hitems as <-. reflexivity.
      * split; [discriminate|]. destruct hs as [|h0 hs0]; [discriminate|].
        simpl. intros [= -> Hitems]. apply IH in Hitems. discriminate.
    + split; [discriminate|]. destruct hs; discriminate.
Qed.

Lemma functions_of_None (items : list (js_element Ctx)) :
  functions_of items = None <-> forallb is_element_function items = false.
Proof.
  induction items as [|[h|v] items IH]; simpl.
  - split; discriminate.
  - destruct (functions_of items); [|tauto].
    split; [discriminate|]. intros H. apply IH in H. discriminate.
  - tauto.
Qed.

(** X1.  [compose] throws, before any pipeline exists, exactly for an argument
    that is not an array or an array with an element that is not a
    function; for an array of functions, the empty one included, it returns
    the pipeline of these functions in their order. *)
Theorem compose_checks_its_argument (middleware : js_argument Ctx) :
  (forall v, middleware = NotAnArray v ->
     compose_checked middleware =
     inl (new_TypeError "Middleware stack must be an array!")) /\
  (forall items, middleware = AnArray items ->
     (forallb is_element_function items = false ->
      compose_checked middleware =
      inl (new_TypeError "Middleware must be composed of functions!")) /\
     (forallb is_element_function items = true ->
      exists hs, items = map ElemFunction hs /\
                 length hs = length items /\
                 compose_checked middleware = inr (compose hs))).
Proof.
  split.
  - intros v ->. reflexivity.
  - intros items ->. simpl. split.
    + intros Hbad. apply functions_of_None in Hbad. rewrite Hbad. reflexivity.
    + intros Hgood. destruct (functions_of items) as [hs|] eqn:Hfs.
      * exists hs. apply functions_of_Some in Hfs. subst items.
        rewrite length_map. auto.
      * apply functions_of_None in Hfs. congruence.
Qed.

(** ** No function is called twice *)

Lemma StronglySorted_snoc (l : list Z) x :
  StronglySorted Z.lt l -> Forall (fun y => y < x) l ->
  StronglySorted Z.lt (l ++ [x]).
Proof.
  induction 1 as [|y l Hl IH Hy]; intros Hall; simpl.
  - repeat constructor.
  - apply Forall_cons in Hall as [Hyx Hall]. constructor; [apply IH, Hall|].
    apply Forall_app. split; [exact Hy|]. repeat constructor. exact Hyx.
Qed.

Section Ordered.

Variables (middleware : list (handler Ctx)) (next : callee Ctx).
Variables (cell : nat) (t0 : list event).

(** The calls of the pipeline so far: at increasing indexes, none beyond
    the cursor. *)
Definition ordered (w : World Ctx) : Prop :=
  (cell < length (cells w))%nat /\
  exists t,
    trace w = t0 ++ t /\
    StronglySorted Z.lt (calls cell t) /\
    Forall (fun j => 0 <= j <= index cell w /\ j <= Z.of_nat (length middleware))
      (calls cell t).

Lemma ordered_emit e w :
  (forall j, e <> Enter cell j) -> ordered w -> ordered (emit e w).
Proof.
  intros He (Hcell & t & Ht & Hs & Hb). split; [exact Hcell|].
  exists (t ++ [e]). split; [unfold emit; simpl; rewrite Ht; symmetry; apply app_assoc|].
  assert (Hcalls : calls cell (t ++ [e]) = calls cell t).
  { rewrite calls_app. destruct e as [c j|c j|c j| |x]; simpl;
      try apply app_nil_r.
    destruct (Nat.eqb_spec c cell) as [->|Hne]; [|apply app_nil_r].
    destruct (He j). reflexivity. }
  rewrite Hcalls. split; assumption.
Qed.

Lemma ordered_set_ctx c w : ordered w -> ordered (set_ctx c w).
Proof. intros H. exact H. Qed.

Lemma ordered_set_index_other cell' i w :
  cell' <> cell -> ordered w -> ordered (set_index cell' i w).
Proof.
  intros Hne (Hcell & t & Ht & Hs & Hb). split.
  - rewrite length_cells_set_index. exact Hcell.
  - exists t. rewrite index_set_index_ne by assumption. auto.
Qed.

Lemma ordered_alloc_index w :
  ordered w -> ordered (alloc_index w) /\ length (cells w) <> cell.
Proof.
  intros (Hcell & t & Ht & Hs & Hb). split; [|lia]. split.
  - rewrite length_cells_alloc_index. lia.
  - exists t. rewrite index_alloc_index. auto.
Qed.

(** Entering the function at [i], which the guard lets through only beyond
    the cursor. *)
Lemma ordered_enter i w :
  0 <= i <= Z.of_nat (length middleware) -> index cell w < i -> ordered w ->
  ordered (emit (Enter cell i) (set_index cell i w)).
Proof.
  intros Hi Hlt (Hcell & t & Ht & Hs & Hb). split.
  - unfold emit; simpl. rewrite length_insert. exact Hcell.
  - exists (t ++ [Enter cell i]). split.
    { unfold emit; simpl. rewrite Ht. symmetry. apply app_assoc. }
    rewrite calls_app. simpl. rewrite Nat.eqb_refl.
    assert (Hidx : index cell (emit (Enter cell i) (set_index cell i w)) = i).
    { apply (index_set_index_eq cell i w Hcell). }
    rewrite Hidx. split.
    + apply StronglySorted_snoc; [exact Hs|].
      eapply Forall_impl; [exact Hb|]. simpl. intros; lia.
    + apply Forall_app. split.
      * eapply Forall_impl; [exact Hb|]. simpl. intros; lia.
      * repeat constructor; lia.
Qed.

Lemma ordered_dispatch_other fuel mw nxt cell' i :
  cell' <> cell -> callee_preserves ordered nxt ->
  preserves ordered (dispatch fuel mw nxt cell' i).
Proof.
  intros Hne Hnxt.
  apply (dispatch_preserves ordered (fun c => c <> cell)); try assumption.
  - intros; apply ordered_set_index_other; assumption.
  - intros c j w Hc Hw. apply ordered_emit; [|assumption]. intros j' [= -> _]. congruence.
  - intros c j w Hc Hw. apply ordered_emit; [|assumption]. discriminate.
  - intros c j w Hc Hw. apply ordered_emit; [|assumption]. discriminate.
  - apply ordered_set_ctx.
  - apply ordered_alloc_index.
Qed.

Lemma ordered_dispatch_own fuel :
  callee_preserves ordered next ->
  forall i, preserves ordered (dispatch fuel middleware next cell i).
Proof.
  intros Hnext.
  induction fuel as [|fuel IH]; intros i w r w' HP;
    rewrite dispatch_eq;
    destruct (Z.leb_spec i (index cell w)) as [Hle|Hlt];
    try (intros [= <- <-]; assumption); cbv zeta.
  - destruct (is_falsy _); [|discriminate]. intros [= <- <-].
    destruct HP as (Hcell & t & Ht & Hs & Hb). split.
    + rewrite length_cells_set_index. exact Hcell.
    + exists t. rewrite index_set_index_eq by assumption.
      repeat split; try assumption.
      eapply Forall_impl; [exact Hb|]. simpl. intros; lia.
  - set (fn := if i =? Z.of_nat (length middleware) then next else _).
    destruct (is_falsy fn) eqn:Hfalsy.
    { intros [= <- <-].
      destruct HP as (Hcell & t & Ht & Hs & Hb). split.
      + rewrite length_cells_set_index. exact Hcell.
      + exists t. rewrite index_set_index_eq by assumption.
        repeat split; try assumption.
        eapply Forall_impl; [exact Hb|]. simpl. intros; lia. }
    assert (Hi : 0 <= i <= Z.of_nat (length middleware)).
    { subst fn. destruct (Z.eqb_spec i (Z.of_nat (length middleware))); [lia|].
      destruct (array_get middleware i) as [h|] eqn:Hget; [|discriminate].
      apply array_get_Some in Hget. lia. }
    assert (Hfn : callee_preserves ordered fn).
    { subst fn. destruct (i =? _); [assumption|]. destruct (array_get _ _); exact I. }
    assert (Hstart : ordered (emit (Enter cell i) (set_index cell i w))).
    { apply ordered_enter; assumption. }
    assert (Hinvoke : preserves ordered
              (invoke (dispatch fuel) fn
                 (dispatch fuel middleware next cell (i + 1)) cell i)).
    { clearbody fn. destruct fn as [|v|[a p|mw']|q]; unfold invoke.
      - intros w1 r1 w2 H1 [= <- <-]. exact H1.
      - intros w1 r1 w2 H1 [= <- <-]. exact H1.
      - apply (exec_preserves ordered ordered_set_ctx); [|apply IH].
        intros w1 Hw1. apply ordered_emit; [discriminate|assumption].
      - intros w1 r1 w2 H1.
        destruct (ordered_alloc_index w1 H1) as [H1' Hfresh].
        apply ordered_dispatch_other; [assumption| |assumption].
        simpl. apply IH.
      - exact Hfn. }
    destruct (invoke _ _ _ _ _ _) as [[[v|e] w1]|] eqn:Hinv; [| |discriminate];
      intros [= <- <-];
      (apply ordered_emit; [discriminate|]); eapply Hinvoke; eassumption.
Qed.

End Ordered.

(** X2.  Whatever the handlers do, within one invocation [dispatch] calls
    functions at strictly increasing indexes between 0 and the length of the
    list: no function is called twice and none is called after one behind
    it. *)
Theorem no_function_is_called_twice middleware next w :
  unbound next = true ->
  exists r w' t,
    compose middleware next w = Some (r, w') /\
    trace w' = trace w ++ t /\
    StronglySorted Z.lt (calls (length (cells w)) t) /\
    Forall (fun j => 0 <= j <= Z.of_nat (length middleware))
      (calls (length (cells w)) t).
Proof.
  intros Hnext.
  assert (Htotal : callee_total next) by (destruct next; try exact I; discriminate).
  destruct (compose_total middleware next w Htotal) as [[r w'] Hrun].
  exists r, w'.
  assert (Hord : ordered middleware (length (cells w)) (trace w) w').
  { unfold compose in Hrun.
    eapply (ordered_dispatch_own middleware next); [| |exact Hrun].
    - destruct next; try exact I; discriminate.
    - split; [rewrite length_cells_alloc_index; lia|].
      exists []. rewrite app_nil_r. repeat split; constructor. }
  destruct Hord as (_ & t & Ht & Hs & Hb). exists t. repeat split; try assumption.
  eapply Forall_impl; [exact Hb|]. simpl. intros; lia.
Qed.

(** ** An invocation keeps to its own cursor *)

(** X3.  The cursors that exist when a pipeline is invoked are left as they
    are: the invocation appends its own cell, and those of the pipelines
    nested in it, behind them. *)
Theorem invocation_leaves_other_cursors middleware next w r w' :
  unbound next = true ->
  compose middleware next w = Some (r, w') ->
  exists added, cells w' = cells w ++ added /\ (0 < length added)%nat.
Proof.
  intros Hnext Hrun. unfold compose in Hrun.
  set (n := length (cells w)) in *.
  set (P := fun w1 : World Ctx =>
              (n < length (cells w1))%nat /\ take n (cells w1) = cells w).
  assert (HP : P w').
  { apply (dispatch_preserves P (fun c => (n <= c)%nat)) in Hrun;
      try assumption; try (subst n; lia).
    - intros c i w1 Hc [Hlen Htake] _. split.
      + rewrite length_cells_set_index. exact Hlen.
      + unfold set_index; simpl. rewrite take_insert_ge by exact Hc. exact Htake.
    - intros c i w1 _ H1. exact H1.
    - intros c i w1 _ H1. exact H1.
    - intros c i w1 _ H1. exact H1.
    - intros c w1 H1. exact H1.
    - intros w1 [Hlen Htake]. split; [split|lia].
      + rewrite length_cells_alloc_index. lia.
      + unfold alloc_index; simpl. rewrite take_app_le by lia. exact Htake.
    - destruct next; try exact I; discriminate.
    - split.
      + rewrite length_cells_alloc_index. subst n. lia.
      + unfold alloc_index; simpl. subst n. rewrite take_app_length. reflexivity. }
  destruct HP as [Hlen Htake]. exists (drop n (cells w')). split.
  - rewrite <- Htake at 1. symmetry. apply take_drop.
  - rewrite length_drop. lia.
Qed.

(** ** The next argument of a pipeline *)

Lemma exec_ext cell i p (q1 q2 : proceed Ctx) :
  (forall w, q1 w = q2 w) ->
  forall sync w, exec cell i sync p q1 w = exec cell i sync p q2 w.
Proof.
  intros Hq. induction p as [v|e|f k IH|k IH|k IH]; intros sync w; simpl; auto.
  rewrite Hq. destruct (q2 w) as [[[v|e] w1]|]; auto.
Qed.

(** The same function in the place of [fn], up to the behaviour of a bound
    [dispatch]. *)
Definition callee_ext (n1 n2 : callee Ctx) : Prop :=
  match n1, n2 with
  | Bound q1, Bound q2 => forall w, q1 w = q2 w
  | Bound _, _ | _, Bound _ => False
  | _, _ => n1 = n2
  end.

Lemma callee_ext_refl n : callee_ext n n.
Proof. destruct n; simpl; auto. Qed.

Lemma callee_ext_depth n1 n2 : callee_ext n1 n2 -> callee_depth n1 = callee_depth n2.
Proof. destruct n1, n2; simpl; try tauto; try discriminate; intros [= ->]; reflexivity. Qed.

Lemma callee_ext_falsy n1 n2 : callee_ext n1 n2 -> is_falsy n1 = is_falsy n2.
Proof.
  destruct n1, n2; simpl; try tauto; try discriminate; try reflexivity.
  intros [= ->]. reflexivity.
Qed.

Lemma invoke_ext f1 f2 (fn1 fn2 : callee Ctx) (q1 q2 : proceed Ctx) cell i w :
  (forall mw n1 n2 c j w,
      callee_ext n1 n2 ->
      (fuel_of mw n1 <= f1 + Z.to_nat j)%nat ->
      (fuel_of mw n2 <= f2 + Z.to_nat j)%nat ->
      dispatch f1 mw n1 c j w = dispatch f2 mw n2 c j w) ->
  callee_ext fn1 fn2 ->
  (callee_depth fn1 < f1)%nat -> (callee_depth fn2 < f2)%nat ->
  (forall w, q1 w = q2 w) ->
  invoke (dispatch f1) fn1 q1 cell i w = invoke (dispatch f2) fn2 q2 cell i w.
Proof.
  intros Hrec Hfn Hd1 Hd2 Hq.
  destruct fn1 as [|v1|[a1 p1|mw1]|p1], fn2 as [|v2|[a2 p2|mw2]|p2];
    simpl in Hfn; try tauto; try discriminate; try reflexivity.
  - injection Hfn as <- <-. simpl. apply exec_ext, Hq.
  - injection Hfn as <-. simpl. apply Hrec; [exact Hq| |].
    + simpl in Hd1. unfold fuel_of. simpl. fold (max_depth mw1) in Hd1. lia.
    + simpl in Hd2. unfold fuel_of. simpl. fold (max_depth mw1) in Hd2. lia.
  - simpl. apply Hfn.
Qed.

(** The result of [dispatch] does not depend on how much fuel is left, once
    there is enough of it. *)
Lemma dispatch_ext f1 :
  forall f2 mw n1 n2 c i w,
    callee_ext n1 n2 ->
    (fuel_of mw n1 <= f1 + Z.to_nat i)%nat ->
    (fuel_of mw n2 <= f2 + Z.to_nat i)%nat ->
    dispatch f1 mw n1 c i w = dispatch f2 mw n2 c i w.
Proof.
  induction f1 as [|f1 IH]; intros f2 mw n1 n2 c i w Hn H1 H2;
    rewrite !dispatch_eq; destruct (i <=? index c w); try reflexivity; cbv zeta.
  - (* the left run has no fuel: the index is past the end *)
    unfold fuel_of in H1.
    destruct (array_get mw i) as [h|] eqn:Hget.
    { apply array_get_Some in Hget. lia. }
    destruct (Z.eqb_spec i (Z.of_nat (length mw))); [lia|]. reflexivity.
  - set (fn1 := if i =? Z.of_nat (length mw) then n1 else _).
    set (fn2 := if i =? Z.of_nat (length mw) then n2 else _).
    assert (Hfn : callee_ext fn1 fn2).
    { subst fn1 fn2. destruct (i =? _); [exact Hn|apply callee_ext_refl]. }
    rewrite <- (callee_ext_falsy _ _ Hfn).
    destruct (is_falsy fn1) eqn:Hfalsy; [reflexivity|].
    assert (Hi : 0 <= i <= Z.of_nat (length mw)).
    { subst fn1. destruct (Z.eqb_spec i (Z.of_nat (length mw))); [lia|].
      destruct (array_get mw i) as [h|] eqn:Hget; [|discriminate].
      apply array_get_Some in Hget. lia. }
    assert (Hd1 : (callee_depth fn1 <= Nat.max (max_depth mw) (callee_depth n1))%nat).
    { subst fn1. destruct (Z.eqb_spec i (Z.of_nat (length mw))); [lia|].
      destruct (array_get mw i) as [h|] eqn:Hget; simpl; [|lia].
      apply array_get_Some in Hget as [_ Hget].
      apply depth_le_max_depth in Hget. lia. }
    pose proof (callee_ext_depth _ _ Hfn) as Hdfn.
    pose proof (callee_ext_depth _ _ Hn) as Hdn.
    destruct f2 as [|f2]; [unfold fuel_of in H2; lia|].
    rewrite (invoke_ext f1 f2 fn1 fn2
               (dispatch f1 mw n1 c (i + 1)) (dispatch f2 mw n2 c (i + 1))).
    + reflexivity.
    + intros mw' m1 m2 c' j w' Hm Hf1 Hf2. apply IH; assumption.
    + exact Hfn.
    + unfold fuel_of in H1. lia.
    + unfold fuel_of in H2. lia.
    + intros w1. apply IH; [exact Hn| |]; unfold fuel_of in *; lia.
Qed.

Lemma max_depth_app (mw1 mw2 : list (handler Ctx)) :
  max_depth (mw1 ++ mw2) = Nat.max (max_depth mw1) (max_depth mw2).
Proof.
  unfold max_depth. induction mw1 as [|h mw1 IH]; simpl; [reflexivity|].
  rewrite IH. lia.
Qed.

Lemma dispatch_next_as_last middleware (h : handler Ctx) c f1 :
  forall f2 i w,
    (fuel_of middleware (Func h) <= f1 + Z.to_nat i)%nat ->
    (fuel_of (middleware ++ [h]) Falsy <= f2 + Z.to_nat i)%nat ->
    dispatch f1 middleware (Func h) c i w =
    dispatch f2 (middleware ++ [h]) Falsy c i w.
Proof.
  assert (Hmax : max_depth (middleware ++ [h]) =
                 Nat.max (max_depth middleware) (depth h)).
  { rewrite max_depth_app. unfold max_depth at 2. simpl. lia. }
  induction f1 as [|f1 IH]; intros f2 i w H1 H2;
    rewrite !dispatch_eq; destruct (i <=? index c w); try reflexivity; cbv zeta;
    rewrite length_app; simpl length.
  - unfold fuel_of in H1, H2. rewrite length_app in H2. simpl in H1, H2.
    rewrite !array_get_ge by (rewrite ?length_app; simpl; lia).
    destruct (Z.eqb_spec i (Z.of_nat (length middleware))); [lia|].
    destruct (Z.eqb_spec i (Z.of_nat (length middleware + 1))); [lia|]. reflexivity.
  - set (fn1 := if i =? Z.of_nat (length middleware) then Func h else _).
    set (fn2 := if i =? Z.of_nat (length middleware + 1) then Falsy else _).
    assert (Hfn : fn2 = fn1).
    { subst fn1 fn2.
      destruct (Z.eqb_spec i (Z.of_nat (length middleware))) as [->|Hne].
      - destruct (Z.eqb_spec (Z.of_nat (length middleware))
                    (Z.of_nat (length middleware + 1))); [lia|].
        unfold array_get. destruct (Z.ltb_spec (Z.of_nat (length middleware)) 0); [lia|].
        rewrite Nat2Z.id, list_lookup_middle by reflexivity. reflexivity.
      - destruct (Z.eqb_spec i (Z.of_nat (length middleware + 1))) as [->|Hne'].
        + rewrite array_get_ge by lia. reflexivity.
        + destruct (Z.lt_ge_cases i (Z.of_nat (length middleware))).
          * rewrite array_get_app_l by lia. reflexivity.
          * rewrite (array_get_ge middleware) by lia.
            rewrite array_get_ge by (rewrite length_app; simpl; lia). reflexivity. }
    rewrite Hfn. destruct (is_falsy fn1) eqn:Hfalsy; [reflexivity|].
    assert (Hi : 0 <= i <= Z.of_nat (length middleware)).
    { subst fn1. destruct (Z.eqb_spec i (Z.of_nat (length middleware))); [lia|].
      destruct (array_get middleware i) as [h'|] eqn:Hget; [|discriminate].
      apply array_get_Some in Hget. lia. }
    assert (Hd1 : (callee_depth fn1 <= Nat.max (max_depth middleware) (depth h))%nat).
    { subst fn1. destruct (Z.eqb_spec i (Z.of_nat (length middleware))); [simpl; lia|].
      destruct (array_get middleware i) as [h'|] eqn:Hget; simpl; [|lia].
      apply array_get_Some in Hget as [_ Hget].
      apply depth_le_max_depth in Hget. lia. }
    unfold fuel_of in H1, H2. rewrite length_app, Hmax in H2. simpl in H1, H2.
    destruct f2 as [|f2]; [lia|].
    rewrite (invoke_ext f1 f2 fn1 fn1
               (dispatch f1 middleware (Func h) c (i + 1))
               (dispatch f2 (middleware ++ [h]) Falsy c (i + 1))).
    + reflexivity.
    + intros mw' m1 m2 c' j w' Hm Hf1 Hf2. apply dispatch_ext; assumption.
    + apply callee_ext_refl.
    + lia.
    + lia.
    + intros w1. apply IH; unfold fuel_of; rewrite ?length_app, ?Hmax; simpl; lia.
Qed.

(** X4.  A function passed as [next] runs exactly as if it were the last
    element of the array: [compose(middleware)(ctx, h)] and
    [compose([...middleware, h])(ctx)] return the same promise and leave the
    same store, context and order of calls, for every list of middleware
    (units that are themselves pipelines included) and every [h]. *)
Theorem next_runs_as_the_last_handler middleware (h : handler Ctx) w :
  compose middleware (Func h) w = compose (middleware ++ [h]) Falsy w.
Proof.
  unfold compose. apply dispatch_next_as_last; lia.
Qed.

(** ** Errors travel outwards *)

Lemma exec_transparent p :
  transparent p ->
  forall cell i sync (q : proceed Ctx) w e,
    (forall w1, cells w1 = cells w ->
                exists w2, q w1 = Some (Returns (JPromise Rejected e), w2)) ->
    exists w', exec cell i sync p q w = Some (Returns (Promise_reject e), w').
Proof.
  induction 1 as [f k _ IH|k _ IH|k Hk]; intros cell i sync q w e Hq; simpl.
  - apply IH. intros w1 Hw1. apply Hq. exact Hw1.
  - apply IH, Hq.
  - destruct (Hq w eq_refl) as [w2 ->]. simpl.
    apply (exec_fails_with e (k (Throws e)) (Hk e) cell i false q w2).
Qed.

Lemma dispatch_propagates before a body after next cell e :
  Forall transparent_fn before ->
  fails_with e body ->
  forall k i fuel w,
    Z.of_nat k = Z.of_nat (length before) - i -> 0 <= i ->
    (fuel_of (before ++ Fn a body :: after) next <= fuel + Z.to_nat i)%nat ->
    (cell < length (cells w))%nat ->
    index cell w < i ->
    exists w', dispatch fuel (before ++ Fn a body :: after) next cell i w =
               Some (Returns (JPromise Rejected e), w').
Proof.
  intros Hbefore Hbody.
  set (mw := before ++ Fn a body :: after).
  assert (Hlen : Z.of_nat (length mw) = Z.of_nat (length before) + 1 + Z.of_nat (length after)).
  { unfold mw. rewrite length_app. simpl. lia. }
  induction k as [|k IH]; intros i fuel w Hk Hi Hfuel Hcell Hidx.
  - assert (Hfn : (if i =? Z.of_nat (length mw) then next
                   else match array_get mw i with Some h => Func h | None => Falsy end)
                  = Func (Fn a body)).
    { destruct (Z.eqb_spec i (Z.of_nat (length mw))); [lia|].
      unfold mw, array_get. destruct (Z.ltb_spec i 0); [lia|].
      replace (Z.to_nat i) with (length before) by lia.
      rewrite list_lookup_middle by reflexivity. reflexivity. }
    destruct fuel as [|fuel]; [unfold fuel_of in Hfuel; lia|].
    rewrite (dispatch_call _ _ _ _ _ _ _ Hidx Hfn eq_refl). unfold invoke.
    destruct (exec_fails_with e body Hbody cell i (negb a)
                (dispatch fuel mw next cell (i + 1))
                (emit (Enter cell i) (set_index cell i w))) as [w1 ->].
    destruct (negb a); simpl; eauto.
  - assert (Hget : exists a' body', array_get mw i = Some (Fn a' body') /\ transparent body').
    { unfold mw. rewrite array_get_app_l by lia.
      destruct (array_get before i) as [h|] eqn:Hget.
      - apply array_get_Some in Hget as [_ Hget].
        pose proof (Forall_lookup_1 _ _ _ _ Hbefore Hget) as Htr.
        destruct h as [a' body'|]; [eauto|contradiction].
      - unfold array_get in Hget. destruct (Z.ltb_spec i 0); [lia|].
        apply lookup_ge_None in Hget. lia. }
    destruct Hget as (a' & body' & Hget & Htr).
    assert (Hfn : (if i =? Z.of_nat (length mw) then next
                   else match array_get mw i with Some h => Func h | None => Falsy end)
                  = Func (Fn a' body')).
    { destruct (Z.eqb_spec i (Z.of_nat (length mw))); [lia|]. rewrite Hget. reflexivity. }
    destruct fuel as [|fuel]; [unfold fuel_of in Hfuel; lia|].
    rewrite (dispatch_call _ _ _ _ _ _ _ Hidx Hfn eq_refl). unfold invoke.
    destruct (exec_transparent body' Htr cell i (negb a')
                (dispatch fuel mw next cell (i + 1))
                (emit (Enter cell i) (set_index cell i w)) e) as [w1 ->].
    + intros w1 Hw1. apply IH.
      * lia.
      * lia.
      * unfold fuel_of in *. lia.
      * rewrite Hw1. simpl. rewrite length_insert. exact Hcell.
      * rewrite (index_cells cell w1 (set_index cell i w)) by exact Hw1.
        rewrite index_set_index_eq by exact Hcell. lia.
    + simpl. eauto.
Qed.

(** X5.  An error is never lost on its way out.  When the functions before
    position [k] each await [next] once and let its failure through (no
    [catch] that swallows or replaces it), and the function at position [k]
    throws [e] without calling [next], the promise of the whole pipeline is
    rejected with exactly [e], whatever comes after position [k] and
    whatever [next] is. *)
Theorem thrown_error_rejects_the_pipeline before a body after next e w :
  Forall transparent_fn before ->
  fails_with e body ->
  exists w',
    compose (before ++ Fn a body :: after) next w =
    Some (Returns (JPromise Rejected e), w').
Proof.
  intros Hbefore Hbody. unfold compose.
  apply (dispatch_propagates before a body after next (length (cells w)) e
           Hbefore Hbody (length before) 0).
  - lia.
  - lia.
  - lia.
  - rewrite length_cells_alloc_index. lia.
  - rewrite index_fresh. lia.
Qed.

(** ** One pipeline, many requests *)

(** Two runs agree when both run out of fuel or both complete with the
    same result and related stores. *)
Definition agree (R : World Ctx -> World Ctx -> Prop)
    (o1 o2 : option (call_result * World Ctx)) : Prop :=
  match o1, o2 with
  | None, None => True
  | Some (r1, w1), Some (r2, w2) => r1 = r2 /\ R w1 w2
  | _, _ => False
  end.

Section Again.

(** The cursors that existed before the first and before the second
    invocation. *)
Variables n1 n2 : nat.

(** The same context, and the same cursors behind the earlier ones. *)
Definition same_request w1 w2 : Prop :=
  ctx w1 = ctx w2 /\
  (n1 <= length (cells w1))%nat /\ (n2 <= length (cells w2))%nat /\
  drop n1 (cells w1) = drop n2 (cells w2).

Definition callee_again (nx1 nx2 : callee Ctx) : Prop :=
  match nx1, nx2 with
  | Bound q1, Bound q2 =>
      forall w1 w2, same_request w1 w2 -> agree same_request (q1 w1) (q2 w2)
  | Bound _, _ | _, Bound _ => False
  | _, _ => nx1 = nx2
  end.

Lemma callee_again_refl fn : unbound fn = true -> callee_again fn fn.
Proof. destruct fn; simpl; try reflexivity. discriminate. Qed.

Lemma same_request_index c w1 w2 :
  same_request w1 w2 -> index (n1 + c) w1 = index (n2 + c) w2.
Proof.
  intros (_ & _ & _ & Hdrop). unfold index.
  rewrite <- !lookup_drop, Hdrop. reflexivity.
Qed.

Lemma same_request_set_index c i w1 w2 :
  same_request w1 w2 ->
  same_request (set_index (n1 + c) i w1) (set_index (n2 + c) i w2).
Proof.
  intros (Hctx & H1 & H2 & Hdrop). unfold same_request, set_index; simpl.
  rewrite !length_insert. repeat split; try assumption.
  rewrite !drop_insert_ge by lia.
  replace (n1 + c - n1)%nat with c by lia.
  replace (n2 + c - n2)%nat with c by lia.
  rewrite Hdrop. reflexivity.
Qed.

Lemma same_request_emit e1 e2 w1 w2 :
  same_request w1 w2 -> same_request (emit e1 w1) (emit e2 w2).
Proof. intros H. exact H. Qed.

Lemma same_request_set_ctx x w1 w2 :
  same_request w1 w2 -> same_request (set_ctx x w1) (set_ctx x w2).
Proof. intros (_ & H). split; [reflexivity|exact H]. Qed.

Lemma same_request_alloc_index w1 w2 :
  same_request w1 w2 ->
  same_request (alloc_index w1) (alloc_index w2) /\
  exists c, length (cells w1) = (n1 + c)%nat /\ length (cells w2) = (n2 + c)%nat.
Proof.
  intros (Hctx & H1 & H2 & Hdrop). split.
  - unfold same_request, alloc_index; simpl. rewrite !length_app; simpl.
    repeat split; try assumption; try lia.
    rewrite !drop_app_le by lia. rewrite Hdrop. reflexivity.
  - exists (length (drop n1 (cells w1))). split.
    + rewrite length_drop. lia.
    + rewrite Hdrop, length_drop. lia.
Qed.

Lemma exec_again c1 c2 i p (q1 q2 : proceed Ctx) :
  (forall w1 w2, same_request w1 w2 -> agree same_request (q1 w1) (q2 w2)) ->
  forall sync w1 w2, same_request w1 w2 ->
    agree same_request (exec c1 i sync p q1 w1) (exec c2 i sync p q2 w2).
Proof.
  intros Hq. induction p as [v|e|f k IH|k IH|k IH]; intros sync w1 w2 HR; simpl.
  - split; [reflexivity|exact HR].
  - split; [reflexivity|exact HR].
  - rewrite (proj1 HR). apply IH, same_request_emit, same_request_set_ctx, HR.
  - rewrite (proj1 HR). apply IH, HR.
  - specialize (Hq _ _ HR).
    destruct (q1 w1) as [[[v1|e1] w1']|], (q2 w2) as [[[v2|e2] w2']|];
      simpl in Hq; try tauto; destruct Hq as [Heq HR']; try discriminate;
      injection Heq as <-; apply IH, HR'.
Qed.

Lemma dispatch_again fuel :
  forall middleware nx1 nx2 c i w1 w2,
    callee_again nx1 nx2 -> same_request w1 w2 ->
    agree same_request
      (dispatch fuel middleware nx1 (n1 + c) i w1)
      (dispatch fuel middleware nx2 (n2 + c) i w2).
Proof.
  induction fuel as [|fuel IH]; intros middleware nx1 nx2 c i w1 w2 Hnx HR;
    rewrite !dispatch_eq; rewrite <- (same_request_index c w1 w2 HR);
    (destruct (i <=? index (n1 + c) w1); [split; [reflexivity|exact HR]|]);
    cbv zeta.
  - set (fn1 := if i =? Z.of_nat (length middleware) then nx1 else _).
    set (fn2 := if i =? Z.of_nat (length middleware) then nx2 else _).
    assert (Hfn : callee_again fn1 fn2).
    { subst fn1 fn2. destruct (i =? _); [exact Hnx|].
      destruct (array_get middleware i); reflexivity. }
    assert (Hfalsy : is_falsy fn1 = is_falsy fn2).
    { destruct fn1, fn2; simpl in Hfn; try tauto; try discriminate;
        try reflexivity. injection Hfn as <-. reflexivity. }
    rewrite <- Hfalsy. destruct (is_falsy fn1); [|exact I].
    split; [reflexivity|]. apply same_request_set_index, HR.
  - set (fn1 := if i =? Z.of_nat (length middleware) then nx1 else _).
    set (fn2 := if i =? Z.of_nat (length middleware) then nx2 else _).
    assert (Hfn : callee_again fn1 fn2).
    { subst fn1 fn2. destruct (i =? _); [exact Hnx|].
      destruct (array_get middleware i); reflexivity. }
    assert (Hstart : same_request (emit (Enter (n1 + c) i) (set_index (n1 + c) i w1))
                       (emit (Enter (n2 + c) i) (set_index (n2 + c) i w2))).
    { apply same_request_emit, same_request_set_index, HR. }
    assert (Hq : forall w1 w2, same_request w1 w2 ->
               agree same_request (dispatch fuel middleware nx1 (n1 + c) (i + 1) w1)
                 (dispatch fuel middleware nx2 (n2 + c) (i + 1) w2)).
    { intros; apply IH; assumption. }
    assert (Hinv : agree same_request
              (invoke (dispatch fuel) fn1 (dispatch fuel middleware nx1 (n1 + c) (i + 1))
                 (n1 + c) i (emit (Enter (n1 + c) i) (set_index (n1 + c) i w1)))
              (invoke (dispatch fuel) fn2 (dispatch fuel middleware nx2 (n2 + c) (i + 1))
                 (n2 + c) i (emit (Enter (n2 + c) i) (set_index (n2 + c) i w2)))).
    { clearbody fn1 fn2.
      destruct fn1 as [|v1|[a1 b1|mw1]|p1], fn2 as [|v2|[a2 b2|mw2]|p2];
        simpl in Hfn; try tauto; try discriminate.
      - split; [reflexivity|exact Hstart].
      - injection Hfn as <-. split; [reflexivity|exact Hstart].
      - injection Hfn as <- <-. simpl. apply exec_again; assumption.
      - injection Hfn as <-. unfold invoke.
        destruct (same_request_alloc_index _ _ Hstart) as (Halloc & c' & -> & ->).
        apply IH; [exact Hq|exact Halloc].
      - simpl. apply Hfn, Hstart. }
    assert (Hfalsy : is_falsy fn1 = is_falsy fn2).
    { destruct fn1, fn2; simpl in Hfn; try tauto; try discriminate;
        try reflexivity. injection Hfn as <-. reflexivity. }
    rewrite <- Hfalsy. destruct (is_falsy fn1).
    { split; [reflexivity|]. apply same_request_set_index, HR. }
    destruct (invoke _ fn1 _ _ _ _) as [[[v1|e1] w1']|],
             (invoke _ fn2 _ _ _ _) as [[[v2|e2] w2']|];
      simpl in Hinv; try tauto; destruct Hinv as [Heq HR']; try discriminate;
      injection Heq as <-; (split; [reflexivity|]); apply same_request_emit, HR'.
Qed.

End Again.

(** X6.  A pipeline can be invoked again and again: the promise it returns
    and the context it leaves depend on the context it is given and on
    nothing that earlier invocations, finished or still suspended, have
    left behind.  Each invocation starts from its own [index = -1]. *)
Theorem pipeline_can_be_invoked_again middleware next w1 w2 :
  unbound next = true ->
  ctx w1 = ctx w2 ->
  exists r w1' w2',
    compose middleware next w1 = Some (r, w1') /\
    compose middleware next w2 = Some (r, w2') /\
    ctx w1' = ctx w2'.
Proof.
  intros Hnext Hctx.
  assert (Htotal : callee_total next) by (destruct next; try exact I; discriminate).
  destruct (compose_total middleware next w1 Htotal) as [[r w1'] Hrun1].
  assert (HR0 : same_request (length (cells w1)) (length (cells w2))
                  (alloc_index w1) (alloc_index w2)).
  { unfold same_request, alloc_index; simpl. rewrite !length_app; simpl.
    repeat split; try assumption; try lia.
    rewrite !drop_app_length. reflexivity. }
  pose proof (dispatch_again (length (cells w1)) (length (cells w2))
                (fuel_of middleware next) middleware next next O 0
                (alloc_index w1) (alloc_index w2)
                (callee_again_refl _ _ next Hnext) HR0) as Hag.
  rewrite !Nat.add_0_r in Hag. fold (compose middleware next w1) in Hag.
  fold (compose middleware next w2) in Hag. rewrite Hrun1 in Hag.
  destruct (compose middleware next w2) as [[r2 w2']|]; [|contradiction].
  destruct Hag as [<- HR]. exists r, w1', w2'.
  split; [exact Hrun1|]. split; [reflexivity|]. apply HR.
Qed.

End ComposeMore.

(** * Further properties of the application module *)


Section ApplicationMore.

Context {host : Host}.

Local Ltac respond_cases :=
  unfold respond, with_byteLength, Buffer_byteLength, drop_value, res_end, pipe;
  repeat match goal with
         | |- context [if ?b then _ else _] => destruct b eqn:?
         | |- context [match JSON_stringify ?v with _ => _ end] =>
             destruct (JSON_stringify v) eqn:?
         | |- context [match ?v with JUndefined => _ | _ => _ end] =>
             destruct v eqn:?
         end.

(** What [respond] returns is [undefined] or the response handle, never a
    promise. *)
Lemma respond_returns c x c' :
  respond c = (Returns x, c') -> x = JUndefined \/ x = JHost "res".
Proof.
  revert x c'. respond_cases; intros x c' [= <- <-]; auto.
Qed.

(** X7.  [respond] never changes the status code, and when it throws (the
    body cannot be serialised) it has written nothing and has left the
    context exactly as the pipeline left it, so the error handler that
    runs next sees that context. *)
Theorem respond_fails_cleanly c :
  statusCode (res (snd (respond c))) = statusCode (res c) /\
  (forall e, fst (respond c) = Throws e -> snd (respond c) = c).
Proof.
  split.
  - respond_cases; reflexivity.
  - intros e. respond_cases; simpl; intros [= <-]; reflexivity.
Qed.

(** X8.  For a context that is not bypassed and is writable, a request
    whose method is not HEAD and a status that allows a body.  When the
    headers have not been sent and the body is absent, [respond] writes
    the status text as the one payload and sets the content-length to the
    number of its bytes (and the type to [text]).  When the headers have
    not been sent and the body is neither absent nor a Buffer, a string or
    a stream, and [JSON.stringify] returns a text for it, [respond] writes
    that text as the one payload and sets the content-length to the number
    of its bytes.  When the headers have been sent, or the body is a
    Buffer, a string or a stream, it leaves the content-length as it
    was. *)
Theorem respond_content_length_is_the_payload_size c :
  is_false (ctx_respond c) = false ->
  writable c = true ->
  statuses_empty (status c) = false ->
  String.eqb "HEAD" (method c) = false ->
  (headersSent (res c) = false -> is_nullish (body c) = true ->
   respond c =
     (Returns (JHost "res"),
      set_res (act (End (Some (JStr (status_text c)))) (res c))
        (set_length (JNum (Z.of_nat (String.length (status_text c))))
           (set_type "text" c))) /\
   payload_bytes (End (Some (JStr (status_text c)))) =
     Some (String.length (status_text c))) /\
  (headersSent (res c) = false -> is_nullish (body c) = false ->
   is_raw (body c) = false ->
   forall text n,
     JSON_stringify (body c) = Returns text ->
     payload_bytes (End (Some text)) = Some n ->
     respond c =
       (Returns JUndefined,
        set_res (act (End (Some text)) (res c)) (set_length (JNum (Z.of_nat n)) c))) /\
  (headersSent (res c) = true \/ is_raw (body c) = true ->
   length_header (snd (respond c)) = length_header c).
Proof.
  intros Hflag Hwritable Hempty Hhead. unfold respond.
  rewrite Hflag, Hwritable, Hempty, Hhead. cbn [negb]. split; [|split].
  - intros -> ->. cbn [negb]. unfold status_text, with_byteLength, Buffer_byteLength.
    destruct (2 <=? httpVersionMajor c); cbn [orb];
      [|destruct (String.eqb (message c) EmptyString)]; split; reflexivity.
  - intros -> -> Hraw text n -> Hbytes. cbn [negb].
    unfold with_byteLength, Buffer_byteLength.
    destruct (body c); try discriminate Hraw;
      destruct text; try discriminate Hbytes;
      injection Hbytes as <-; reflexivity.
  - intros Hcase. unfold with_byteLength, Buffer_byteLength, drop_value, res_end, pipe.
    destruct Hcase as [-> | Hraw].
    + cbn [negb]. destruct (is_nullish (body c)); [reflexivity|].
      destruct (body c); try reflexivity;
        destruct (JSON_stringify _); reflexivity.
    + destruct (body c); try discriminate Hraw; simpl;
        destruct (headersSent (res c)); reflexivity.
Qed.

Lemma Promise_resolve_fulfilled v :
  (forall x, v <> JPromise Rejected x) ->
  exists y, Promise_resolve v = JPromise Fulfilled y.
Proof.
  intros Hv. destruct v as [| | | | | | | | | | | |[|] x]; simpl; eauto.
  destruct (Hv x eq_refl).
Qed.

(** X9.  The promise that the request handler returns is fulfilled for
    every list of middleware and every request, whether the pipeline
    fails or [respond] throws, as long as [ctx.onerror] itself returns
    (and not a rejected promise): a failing handler never becomes an
    unhandled rejection. *)
Theorem request_promise_is_fulfilled (middleware : list (handler context)) w :
  (forall e c, exists v c',
      ctx_onerror e c = (Returns v, c') /\ forall x, v <> JPromise Rejected x) ->
  exists v w', callback middleware w = Some (Returns (JPromise Fulfilled v), w').
Proof.
  intros Honerror.
  destruct (compose_returns_promise middleware Falsy
              (observe_finish (default_status w)) I)
    as (st & v & w1 & Hrun).
  unfold callback, handleRequest. rewrite Hrun.
  unfold promise_then, promise_catch, settle_with, lift.
  assert (Hcatch : forall e w0, exists y w',
             (let (r, w') := let (r, c) := ctx_onerror e (ctx (emit (OnError e) w0)) in
                             (r, set_ctx c (emit (OnError e) w0)) in
              match r with
              | Returns x => (Promise_resolve x, w')
              | Throws e' => (Promise_reject e', w')
              end) = (JPromise Fulfilled y, w')).
  { intros e w0. destruct (Honerror e (ctx (emit (OnError e) w0))) as (x & c' & -> & Hx).
    destruct (Promise_resolve_fulfilled x Hx) as [y ->]. eauto. }
  destruct st.
  - destruct (respond (ctx (emit Responded w1))) as [[x|e] c1] eqn:Hrespond.
    + destruct (respond_returns _ _ _ Hrespond) as [-> | ->]; simpl; eauto.
    + cbn [Promise_reject].
      destruct (Hcatch e (set_ctx c1 (emit Responded w1))) as (y & w' & ->). eauto.
  - destruct (Hcatch v w1) as (y & w' & ->). eauto.
Qed.

End ApplicationMore.

(** * The application object *)

Section ApplicationObjectFacts.

Context {host : Host}.
Variable Generator : Type.
Variable convert : Generator -> handler context.

(** X11.  Whatever is passed to a chain of [use] calls: the functions
    before the first argument that is not a function are appended to the
    middleware in the order of the calls, generator functions converted in
    place, and one warning is given to [deprecate] for each generator
    function among them and none besides; the chain fails exactly at that
    argument, with a [TypeError], and completes when there is none; the
    listeners are left alone. *)
Theorem use_registers_in_order (fns : list (use_argument Generator)) app :
  exists hs,
    Forall2 (fun fn h => registered Generator convert fn = Some h)
      (take (length hs) fns) hs /\
    app_middleware (snd (use_all Generator convert fns app)) =
      app_middleware app ++ hs /\
    deprecations (snd (use_all Generator convert fns app)) =
      deprecations app
        ++ repeat generator_warning
             (length (List.filter is_generator (take (length hs) fns))) /\
    error_listeners (snd (use_all Generator convert fns app)) = error_listeners app /\
    match fst (use_all Generator convert fns app) with
    | None => length hs = length fns
    | Some e =>
        e = new_TypeError "middleware must be a function!" /\
        exists v, fns !! length hs = Some (UseOther v)
    end.
Proof.
  revert app. induction fns as [|fn fns IH]; intros app.
  - exists []. simpl. rewrite !app_nil_r. repeat split. constructor.
  - simpl. destruct fn as [h|g|v]; simpl.
    + destruct (IH (mkApplication (app_middleware app ++ [h])
                      (error_listeners app) (deprecations app)))
        as (hs & Hreg & Hmw & Hdep & Hls & Hres).
      exists (h :: hs). simpl in *. rewrite Hmw, <- app_assoc.
      split; [constructor; [reflexivity|exact Hreg]|].
      split; [reflexivity|]. split.
      * rewrite Hdep. reflexivity.
      * split; [exact Hls|].
        destruct (fst _); [exact Hres|]. rewrite Hres. reflexivity.
    + destruct (IH (mkApplication (app_middleware app ++ [convert g])
                      (error_listeners app) (deprecations app ++ [generator_warning])))
        as (hs & Hreg & Hmw & Hdep & Hls & Hres).
      exists (convert g :: hs). simpl in *. rewrite Hmw, <- app_assoc.
      split; [constructor; [reflexivity|exact Hreg]|].
      split; [reflexivity|]. split.
      * rewrite Hdep, <- app_assoc. reflexivity.
      * split; [exact Hls|].
        destruct (fst _); [exact Hres|]. rewrite Hres. reflexivity.
    + exists []. simpl. rewrite !app_nil_r.
      split; [constructor|]. repeat split. eauto.
Qed.



(** [callback()] called [n] times in a row. *)

Lemma callback_listeners app :
  error_listeners (fst (app_callback app)) =
  match error_listeners app with
  | [] => [DefaultOnerror]
  | ls => ls
  end.
Proof.
  unfold app_callback. destruct (error_listeners app) eqn:Hls; simpl; [reflexivity|].
  exact Hls.
Qed.

(** X13.  However often [callback] is called (one application can serve
    several servers), the default error handler is installed at most once,
    and only when the program has registered no listener of its own; the
    listeners of the program are kept and the middleware is untouched. *)
Theorem callback_installs_one_error_listener (n : nat) app :
  error_listeners (Nat.iter (S n) (fun a => fst (app_callback a)) app) =
    match error_listeners app with
    | [] => [DefaultOnerror]
    | ls => ls
    end /\
  app_middleware (Nat.iter (S n) (fun a => fst (app_callback a)) app) =
    app_middleware app.
Proof.
  induction n as [|n [IHl IHm]].
  - simpl. split; [apply callback_listeners|].
    unfold app_callback. destruct (error_listeners app); reflexivity.
  - change (Nat.iter (S (S n)) (fun a => fst (app_callback a)) app)
      with (fst (app_callback (Nat.iter (S n) (fun a => fst (app_callback a)) app))).
    split.
    + rewrite callback_listeners, IHl. destruct (error_listeners app); reflexivity.
    + rewrite <- IHm. unfold app_callback.
      destruct (error_listeners (Nat.iter (S n) _ app)); reflexivity.
Qed.

End ApplicationObjectFacts.

(** * The CORS middleware *)

Section CorsFacts.

Variable Number_String : Z -> string.
Variable vary_append : jsval -> string -> call_result.

Lemma cors_respond_calls_next_at_most_once options o c :
  (exists r, forall next, cors_respond vary_append options o c next = r) \/
  (exists c1 (k : completion * cors_context -> completion * cors_context),
     (forall next, cors_respond vary_append options o c next = k (next c1)) /\
     (forall v c', k (Completes v, c') = (Completes v, c')) /\
     (forall e c', exists e', k (Fails e, c') = (Fails e', c'))).
Proof.
  unfold cors_respond.
  destruct (negb (String.eqb (request_method c) "OPTIONS")).
  - right. destruct (negb (keepHeadersOnError options)).
    + eexists _, (fun r => r). split; [reflexivity|]. split; eauto.
    + eexists _, (fun r => match r with
                          | (Completes v, c') => (Completes v, c')
                          | (Fails err, c') => (decorate vary_append _ err, c')
                          end).
      split; [reflexivity|]. split; [reflexivity|]. intros e c'.
      unfold decorate. destruct (vary_append _ _); eauto.
  - destruct (negb (truthy (ctx_get "Access-Control-Request-Method" c))).
    + right. eexists _, (fun r => r). split; [reflexivity|]. split; eauto.
    + left. eexists. reflexivity.
Qed.

(** X14.  For every request and every configuration the CORS handler
    either never calls [next], or calls it exactly once and returns what
    it returns: a value is passed on untouched, a failure stays a failure,
    and the context that [next] left is not touched again. *)
Theorem cors_calls_next_at_most_once options c :
  (exists r, forall next, cors vary_append options c next = r) \/
  (exists c1 (k : completion * cors_context -> completion * cors_context),
     (forall next, cors vary_append options c next = k (next c1)) /\
     (forall v c', k (Completes v, c') = (Completes v, c')) /\
     (forall e c', exists e', k (Fails e, c') = (Fails e', c'))).
Proof.
  unfold cors.
  assert (Hpass : forall c1,
    exists c1' (k : completion * cors_context -> completion * cors_context),
     (forall next : cors_next, next c1 = k (next c1')) /\
     (forall v c', k (Completes v, c') = (Completes v, c')) /\
     (forall e c', exists e', k (Fails e, c') = (Fails e', c'))).
  { intros c1. exists c1, (fun r => r). split; [reflexivity|]. split; eauto. }
  destruct (negb (truthy (ctx_get "Origin" c))); [right; apply Hpass|].
  destruct (origin options) as [v|f].
  - apply cors_respond_calls_next_at_most_once.
  - destruct (f _) as [v|v|e|e].
    + destruct (negb (truthy v)); [right; apply Hpass|].
      apply cors_respond_calls_next_at_most_once.
    + destruct (negb (truthy v)); [right; apply Hpass|].
      apply cors_respond_calls_next_at_most_once.
    + left. eexists. reflexivity.
    + left. eexists. reflexivity.
Qed.

Lemma perform_extended e c es : perform e (extended c es) = extended c (es ++ [e]).
Proof. unfold perform, extended; simpl. rewrite <- app_assoc. reflexivity. Qed.

Lemma truthy_js_or v r : truthy r = true -> truthy (js_or v r) = true.
Proof. unfold js_or. destruct (truthy v) eqn:Hv; auto. Qed.

Lemma hands_over_next c1 : hands_over (fun next => next c1) c1.
Proof. right. exists (fun r => r). split; reflexivity. Qed.

Definition well_formed (options : cors_options) (c : cors_context)
    (o : jsval) (hs : list cors_effect) : Prop :=
  (hs = [] \/ exists rest, hs = SetHeader "Access-Control-Allow-Origin" o :: rest) /\
  (forall code, In (SetStatus code) hs ->
     code = 204 /\ request_method c = "OPTIONS"%string /\
     truthy (ctx_get "Access-Control-Request-Method" c) = true) /\
  NoDup (map target hs).

Lemma cors_respond_effects options o c :
  exists hs,
    hands_over (cors_respond vary_append options o (extended c [Vary "Origin"]))
      (extended c (Vary "Origin" :: hs)) /\
    well_formed options c o hs.
Proof.
  unfold cors_respond, cors_set. cbn [fst snd request_method extended ctx_get request_header].
  destruct (String.eqb (request_method c) "OPTIONS") eqn:Hmethod; cbn [negb].
  - destruct (truthy (request_header c "Access-Control-Request-Method")) eqn:Hacrm;
      cbn [negb].
    + apply String.eqb_eq in Hmethod.
      destruct (credentials options), (age_truthy (maxAge options)),
        (header_truthy (allowMethods options)),
        (header_truthy (allowHeaders options));
        rewrite ?perform_extended; cbn [app ctx_get extended request_header];
        try destruct (truthy (header_value (allowHeaders options)));
        try destruct (truthy (request_header c "Access-Control-Request-Headers"));
        rewrite ?perform_extended; cbn [app];
        (eexists; split; [left; eexists; intros next; reflexivity|]);
        (split; [right; eexists; reflexivity|]);
        (split; [intros code Hin; cbn [In] in Hin;
                 repeat (destruct Hin as [[=]|Hin]); try contradiction; subst; auto|]);
        cbn [map target]; refine (bool_decide_unpack _ _); vm_compute; exact I.
    + exists []. split; [apply hands_over_next|].
      split; [left; reflexivity|]. split; [intros code []|constructor].
  - destruct (credentials options), (header_truthy (exposeHeaders options));
      repeat (progress (rewrite ?perform_extended; cbn [fst snd app]));
      (eexists; split;
       [right; destruct (negb (keepHeadersOnError options));
        [exists (fun r => r); split; [intros next; reflexivity|reflexivity]
        |eexists (fun r => match r with
                           | (Completes v, c') => (Completes v, c')
                           | (Fails err, c') => (decorate vary_append _ err, c')
                           end);
         split; [intros next; reflexivity|intros [v|e] c'; reflexivity]]|]);
      (split; [right; eexists; reflexivity|]);
      (split; [intros code Hin; cbn [In] in Hin;
               repeat (destruct Hin as [[=]|Hin]); contradiction|]);
      cbn [map target]; refine (bool_decide_unpack _ _); vm_compute; exact I.
Qed.

(** X15.  What the CORS handler does to the response before it hands over
    or returns: it always begins with [Vary: Origin]; without an [Origin]
    header in the request it does nothing else; when it does anything else
    it first sets [Access-Control-Allow-Origin], to a truthy value, which
    is the configured origin or else the origin of the request when the
    option is not a function; it assigns a status only for an [OPTIONS]
    request that carries [Access-Control-Request-Method], and then 204; and
    it writes no header twice. *)
Theorem cors_headers_only_for_cross_origin_requests options c :
  exists hs,
    hands_over (cors vary_append options c) (extended c (Vary "Origin" :: hs)) /\
    (truthy (ctx_get "Origin" c) = false -> hs = []) /\
    (hs <> [] ->
     exists o rest,
       hs = SetHeader "Access-Control-Allow-Origin" o :: rest /\
       truthy o = true /\
       forall v, origin options = OriginValue v -> o = js_or v (ctx_get "Origin" c)) /\
    (forall code, In (SetStatus code) hs ->
       code = 204 /\ request_method c = "OPTIONS"%string /\
       truthy (ctx_get "Access-Control-Request-Method" c) = true) /\
    NoDup (map target hs).
Proof.
  assert (Hnone : forall run,
    hands_over run (extended c [Vary "Origin"]) ->
    exists hs,
      hands_over run (extended c (Vary "Origin" :: hs)) /\
      (truthy (ctx_get "Origin" c) = false -> hs = []) /\
      (hs <> [] ->
       exists o rest,
         hs = SetHeader "Access-Control-Allow-Origin" o :: rest /\
         truthy o = true /\
         forall v, origin options = OriginValue v -> o = js_or v (ctx_get "Origin" c)) /\
      (forall code, In (SetStatus code) hs ->
         code = 204 /\ request_method c = "OPTIONS"%string /\
         truthy (ctx_get "Access-Control-Request-Method" c) = true) /\
      NoDup (map target hs)).
  { intros run Hrun. exists []. split; [exact Hrun|]. split; [reflexivity|].
    split; [congruence|]. split; [intros code []|constructor]. }
  assert (Hsome : forall o,
    truthy (ctx_get "Origin" c) = true -> truthy o = true ->
    (forall v, origin options = OriginValue v -> o = js_or v (ctx_get "Origin" c)) ->
    exists hs,
      hands_over (cors_respond vary_append options o (extended c [Vary "Origin"]))
        (extended c (Vary "Origin" :: hs)) /\
      (truthy (ctx_get "Origin" c) = false -> hs = []) /\
      (hs <> [] ->
       exists o rest,
         hs = SetHeader "Access-Control-Allow-Origin" o :: rest /\
         truthy o = true /\
         forall v, origin options = OriginValue v -> o = js_or v (ctx_get "Origin" c)) /\
      (forall code, In (SetStatus code) hs ->
         code = 204 /\ request_method c = "OPTIONS"%string /\
         truthy (ctx_get "Access-Control-Request-Method" c) = true) /\
      NoDup (map target hs)).
  { intros o Horigin Ho Hvalue.
    destruct (cors_respond_effects options o c) as (hs & Hrun & Hfirst & Hstatus & Hdup).
    exists hs. split; [exact Hrun|]. split; [congruence|].
    split; [|split; assumption].
    intros Hhs. destruct Hfirst as [->|[rest ->]]; [contradiction|]. eauto. }
  unfold cors. change (perform (Vary "Origin") c) with (extended c [Vary "Origin"]).
  destruct (truthy (ctx_get "Origin" c)) eqn:Horigin; cbn [negb];
    [|apply Hnone, hands_over_next].
  destruct (origin options) as [v|f] eqn:Hopt.
  - apply Hsome; [reflexivity|apply truthy_js_or, Horigin|].
    intros v' [= <-]. reflexivity.
  - destruct (f _) as [v|v|e|e].
    + destruct (truthy v) eqn:Hv; cbn [negb]; [|apply Hnone, hands_over_next].
      apply Hsome; [reflexivity|exact Hv|discriminate].
    + destruct (truthy v) eqn:Hv; cbn [negb]; [|apply Hnone, hands_over_next].
      apply Hsome; [reflexivity|exact Hv|discriminate].
    + apply Hnone. left. eexists. reflexivity.
    + apply Hnone. left. eexists. reflexivity.
Qed.

Lemma header_truthy_value x : header_truthy x = true -> truthy (header_value x) = true.
Proof. destruct x; simpl; auto. Qed.

(** X16.  A preflight request (method [OPTIONS], with [Origin] and
    [Access-Control-Request-Method]; the origin option not a function) is
    answered by the handler itself: whatever [next] is, it is not called,
    the handler returns [undefined], and the status 204 is assigned last.
    In between [Access-Control-Allow-Credentials] is set exactly when
    credentials are enabled, [Access-Control-Max-Age] and
    [Access-Control-Allow-Methods] exactly when configured, and
    [Access-Control-Allow-Headers] to the configured value or else to
    what the request asked for in [Access-Control-Request-Headers]. *)
Theorem cors_answers_a_preflight_request options c v :
  truthy (ctx_get "Origin" c) = true ->
  request_method c = "OPTIONS"%string ->
  truthy (ctx_get "Access-Control-Request-Method" c) = true ->
  origin options = OriginValue v ->
  exists hs,
    (forall next,
        cors vary_append options c next =
        (Completes JUndefined,
         extended c
           (Vary "Origin"
            :: SetHeader "Access-Control-Allow-Origin" (js_or v (ctx_get "Origin" c))
            :: hs ++ [SetStatus 204]))) /\
    (forall x, In (SetHeader "Access-Control-Allow-Credentials" x) hs <->
               credentials options = true /\ x = JStr "true") /\
    (forall x, In (SetHeader "Access-Control-Max-Age" x) hs <->
               age_truthy (maxAge options) = true /\ x = age_value (maxAge options)) /\
    (forall x, In (SetHeader "Access-Control-Allow-Methods" x) hs <->
               header_truthy (allowMethods options) = true /\
               x = header_value (allowMethods options)) /\
    (forall x, In (SetHeader "Access-Control-Allow-Headers" x) hs <->
               truthy x = true /\
               x = if header_truthy (allowHeaders options)
                   then header_value (allowHeaders options)
                   else ctx_get "Access-Control-Request-Headers" c).
Proof.
  intros Horigin Hmethod Hacrm Hopt. unfold cors. rewrite Horigin, Hopt. cbn [negb].
  change (perform (Vary "Origin") c) with (extended c [Vary "Origin"]).
  unfold cors_respond. cbn [request_method extended ctx_get request_header].
  rewrite Hmethod. unfold ctx_get in Hacrm. rewrite Hacrm.
  replace (String.eqb "OPTIONS" "OPTIONS") with true by reflexivity. cbn [negb].
  set (requested := if header_truthy (allowHeaders options)
                    then header_value (allowHeaders options)
                    else request_header c "Access-Control-Request-Headers").
  exists ((if credentials options
           then [SetHeader "Access-Control-Allow-Credentials" (JStr "true")] else []) ++
          (if age_truthy (maxAge options)
           then [SetHeader "Access-Control-Max-Age" (age_value (maxAge options))] else []) ++
          (if header_truthy (allowMethods options)
           then [SetHeader "Access-Control-Allow-Methods"
                   (header_value (allowMethods options))] else []) ++
          (if truthy requested
           then [SetHeader "Access-Control-Allow-Headers" requested] else [])).
  split.
  - intros next. unfold ctx_get.
    destruct (credentials options), (age_truthy (maxAge options)),
      (header_truthy (allowMethods options));
      rewrite ?perform_extended; cbn [app ctx_get extended request_header];
      fold requested; destruct (truthy requested);
      rewrite ?perform_extended; reflexivity.
  - unfold ctx_get. fold requested.
    destruct (credentials options), (age_truthy (maxAge options)),
      (header_truthy (allowMethods options)), (truthy requested) eqn:Hreq;
      cbn [app In];
      repeat split; intros;
      repeat match goal with
             | H : _ \/ _ |- _ => destruct H
             | H : _ /\ _ |- _ => destruct H
             | H : SetHeader _ _ = SetHeader _ _ |- _ => injection H as ?; subst
             | H : False |- _ => destruct H
             end;
      subst; try discriminate; try congruence; auto 6.
Qed.

(** X17.  A request with an [Origin] header that is not [OPTIONS], the
    origin option not a function, and a pipeline behind the handler that
    fails with [err].  Without [keepHeadersOnError] the handler fails with
    [err] as it is.  With it (the default), and when [vary.append]
    returns, the handler fails with the same object, whose [headers] now
    hold: [vary] as computed by [vary.append], no [Vary], every CORS header
    that was set on the response, and every other header that [err]
    carried before. *)
Theorem cors_error_carries_the_headers options c next err v :
  truthy (ctx_get "Origin" c) = true ->
  request_method c <> "OPTIONS"%string ->
  origin options = OriginValue v ->
  (forall c0, fst (next c0) = Fails err) ->
  (keepHeadersOnError options = false ->
   fst (cors vary_append options c next) = Fails err) /\
  (keepHeadersOnError options = true ->
   forall varyWithOrigin,
     vary_append
       (js_or (js_or (property (default ∅ (headers err)) "vary")
                 (property (default ∅ (headers err)) "Vary"))
          (JStr EmptyString))
       "Origin" = Returns varyWithOrigin ->
     exists h,
       fst (cors vary_append options c next) = Fails (mkThrown (reason err) (Some h)) /\
       h !! "vary" = Some varyWithOrigin /\
       h !! "Vary" = None /\
       h !! "Access-Control-Allow-Origin" = Some (js_or v (ctx_get "Origin" c)) /\
       (credentials options = true ->
        h !! "Access-Control-Allow-Credentials" = Some (JStr "true")) /\
       (header_truthy (exposeHeaders options) = true ->
        h !! "Access-Control-Expose-Headers" =
        Some (header_value (exposeHeaders options))) /\
       (forall key,
           key ∉ ["vary"; "Vary"; "Access-Control-Allow-Origin";
                  "Access-Control-Allow-Credentials";
                  "Access-Control-Expose-Headers"]%string ->
           h !! key = default ∅ (headers err) !! key)).
Proof.
  intros Horigin Hmethod Hopt Hnext.
  apply String.eqb_neq in Hmethod.
  unfold cors. rewrite Horigin, Hopt. cbn [negb].
  unfold cors_respond. cbn [request_method perform]. rewrite Hmethod. cbn [negb].
  split.
  - intros ->. cbn [negb]. apply Hnext.
  - intros -> vw Hvary. cbn [negb].
    match goal with
    | |- context [next ?c1] =>
        pose proof (Hnext c1) as Hfail; destruct (next c1) as [r c'] eqn:Hrun
    end.
    cbn [fst] in Hfail. subst r. cbn [fst]. unfold decorate. rewrite Hvary.
    eexists. split; [reflexivity|].
    unfold cors_set. cbn [fst snd].
    destruct (credentials options), (header_truthy (exposeHeaders options));
      cbn [fst snd];
      repeat split; try discriminate; intros;
      repeat match goal with
             | H : _ ∉ _ :: _ |- _ => apply not_elem_of_cons in H as [? H]
             end;
      unfold headers_object in *;
      repeat (rewrite lookup_insert || rewrite lookup_union
              || rewrite lookup_delete || rewrite lookup_empty);
      repeat case_decide; try congruence; try discriminate;
      try reflexivity;
      match goal with
      | |- context [_ ∪ ?o] => destruct o; reflexivity
      end.
Qed.



End CorsFacts.

(** * Examples for the further properties *)

Lemma no_function_is_called_twice_witness :
  unbound (Falsy : callee unit) = true /\
  exists r w' t,
    compose [calls_next_twice; passes] Falsy (mkWorld [] [] tt) = Some (r, w') /\
    trace w' = [] ++ t /\
    StronglySorted Z.lt (calls 0 t) /\
    Forall (fun j => 0 <= j <= 2) (calls 0 t).
Proof.
  split; [reflexivity|].
  apply (no_function_is_called_twice [calls_next_twice; passes] Falsy
           (mkWorld [] [] tt)).
  reflexivity.
Defined.

Lemma invocation_leaves_other_cursors_witness :
  unbound (Falsy : callee unit) = true /\
  exists added, [7; 1] = [7] ++ added /\ (0 < length added)%nat.
Proof.
  split; [reflexivity|].
  apply (invocation_leaves_other_cursors [passes] Falsy (mkWorld [7] [] tt)
           (Returns (JPromise Fulfilled JUndefined))
           (mkWorld [7; 1] [Enter 1 0; Exit 1 0] tt)); reflexivity.
Defined.

Lemma thrown_error_rejects_the_pipeline_witness :
  Forall transparent_fn [passes] /\
  fails_with (new_Error "teapot") (Throw (new_Error "teapot") : Prog unit) /\
  exists w',
    compose [passes; throws_teapot; passes] Falsy (mkWorld [] [] tt) =
    Some (Returns (JPromise Rejected (new_Error "teapot")), w').
Proof.
  assert (Hbefore : Forall transparent_fn [passes]).
  { constructor; [apply passes_is_transparent|constructor]. }
  split; [exact Hbefore|]. split; [constructor|].
  apply (thrown_error_rejects_the_pipeline [passes] true
           (Throw (new_Error "teapot")) [passes] Falsy (new_Error "teapot")
           (mkWorld [] [] tt) Hbefore).
  constructor.
Defined.

Lemma pipeline_can_be_invoked_again_witness :
  unbound (Falsy : callee unit) = true /\
  exists r w1' w2',
    compose [calls_next_twice; passes] Falsy (mkWorld [] [] tt) = Some (r, w1') /\
    compose [calls_next_twice; passes] Falsy
      (mkWorld [2] [Enter 0 0; Enter 0 1; Exit 0 1; Exit 0 0] tt) = Some (r, w2') /\
    ctx w1' = ctx w2'.
Proof.
  split; [reflexivity|].
  apply (pipeline_can_be_invoked_again [calls_next_twice; passes] Falsy
           (mkWorld [] [] tt)
           (mkWorld [2] [Enter 0 0; Enter 0 1; Exit 0 1; Exit 0 0] tt));
    reflexivity.
Defined.

(** A request whose handlers left nothing: the payload is the text of the
    status, and the content-length is the number of its bytes. *)
Lemma respond_content_length_is_the_payload_size_witness :
  (is_false (ctx_respond (ctx fresh_request)) = false /\
   writable (ctx fresh_request) = true /\
   statuses_empty (status (ctx fresh_request)) = false /\
   String.eqb "HEAD" (method (ctx fresh_request)) = false /\
   headersSent (res (ctx fresh_request)) = false /\
   is_nullish (body (ctx fresh_request)) = true) /\
  respond (ctx fresh_request) =
    (Returns (JHost "res"),
     set_res (act (End (Some (JStr (status_text (ctx fresh_request)))))
                (res (ctx fresh_request)))
       (set_length
          (JNum (Z.of_nat (String.length (status_text (ctx fresh_request)))))
          (set_type "text" (ctx fresh_request)))) /\
  payload_bytes (End (Some (JStr (status_text (ctx fresh_request))))) =
    Some (String.length (status_text (ctx fresh_request))).
Proof.
  split; [repeat split; reflexivity|].
  apply (respond_content_length_is_the_payload_size (ctx fresh_request));
    reflexivity.
Defined.

Lemma sample_onerror_returns e c :
  exists v c', ctx_onerror e c = (Returns v, c') /\ forall x, v <> JPromise Rejected x.
Proof. exists JUndefined, c. split; [reflexivity|discriminate]. Qed.

Lemma request_promise_is_fulfilled_witness :
  exists v w',
    callback [fails_with_teapot] fresh_request =
    Some (Returns (JPromise Fulfilled v), w').
Proof.
  apply (request_promise_is_fulfilled [fails_with_teapot] fresh_request).
  exact sample_onerror_returns.
Defined.





(** The preflight request of the examples, for [cors()]: the methods are
    the default ones and the headers those that the request asked for. *)
Lemma cors_answers_a_preflight_request_witness :
  exists hs,
    (forall next,
        cors sample_vary_append (normalise String_of no_arguments) (cross_origin "OPTIONS") next =
        (Completes JUndefined,
         extended (cross_origin "OPTIONS")
           (Vary "Origin"
            :: SetHeader "Access-Control-Allow-Origin" (JStr "https://a.example")
            :: hs ++ [SetStatus 204]))) /\
    In (SetHeader "Access-Control-Allow-Methods" (JStr "GET,HEAD,PUT,POST,DELETE,PATCH")) hs /\
    In (SetHeader "Access-Control-Allow-Headers" (JStr "X-Token")) hs.
Proof.
  destruct (cors_answers_a_preflight_request sample_vary_append
              (normalise String_of no_arguments) (cross_origin "OPTIONS") JUndefined)
    as (hs & Hrun & _ & _ & Hmethods & Hheaders);
    [reflexivity|reflexivity|reflexivity|reflexivity|].
  exists hs. split; [exact Hrun|]. split.
  - apply Hmethods. split; reflexivity.
  - apply Hheaders. split; reflexivity.
Defined.

(** A [GET] from another origin, credentials enabled, and a pipeline that
    throws: the error leaves with the CORS headers and [vary]. *)
Lemma cors_error_carries_the_headers_witness :
  exists h,
    fst (cors sample_vary_append (normalise String_of with_credentials) (cross_origin "GET")
           (fun c => (Fails teapot, c))) =
    Fails (mkThrown (new_Error "teapot") (Some h)) /\
    h !! "vary"%string = Some (JStr "Accept, Origin") /\
    h !! "Vary"%string = None /\
    h !! "Access-Control-Allow-Origin"%string = Some (JStr "https://a.example") /\
    h !! "Access-Control-Allow-Credentials"%string = Some (JStr "true").
Proof.
  destruct (cors_error_carries_the_headers sample_vary_append
              (normalise String_of with_credentials) (cross_origin "GET")
              (fun c => (Fails teapot, c)) teapot JUndefined)
    as [_ Hkeep];
    [reflexivity|discriminate|reflexivity|reflexivity|].
  destruct (Hkeep eq_refl (JStr "Accept, Origin") eq_refl)
    as (h & Hrun & Hvary & HVary & Horigin & Hcredentials & _).
  exists h. repeat split; try assumption. apply Hcredentials. reflexivity.
Defined.

